(** * Core primitives of the trading simulator

    A shallow embedding of the four runtime primitives of the repository
    and the proofs of their specified properties:

    - [LockFreeQueue]  (include/core/lock_free_queue.h)
    - [MemoryPool]     (src/core/memory_pool.cpp)
    - [ThreadPool]     (include/core/thread_pool.h, src/core/thread_pool.cpp)
    - [CacheManager]   (src/data/cache_manager.cpp)

    Conventions.  A [size_t] is a [Z] in the range [0, 2^64); every
    arithmetic operation the source performs on one is followed by [wrap].
    Addresses are [Z] too, with 0 for [nullptr].  The first part of the file
    holds the definitions, module by module; the second part the proofs. *)

From stdpp Require Import gmap strings list fin_maps.
From Stdlib Require Import ZArith QArith Lia Ascii.

Local Open Scope Z_scope.

(** ** Machine integers *)

Definition SIZE_BITS : Z := 64.

(** Reduction of an integer to the range of [size_t]. *)
Definition wrap (z : Z) : Z := z mod 2 ^ SIZE_BITS.

Definition in_size_t (z : Z) : Prop := 0 <= z < 2 ^ SIZE_BITS.

(* ====================================================================== *)
(** ** LockFreeQueue<T> *)
(* ====================================================================== *)

Module LockFreeQueue.

Section Queue.

Context {T : Type} `{Inhabited T}.

(** [struct Node { T data; std::atomic<size_t> sequence; }] *)
Record Node : Type := mkNode {
  data : T;
  sequence : Z
}.

Record LockFreeQueue : Type := mkQueue {
  buffer_ : list Node;
  capacity_ : Z;
  mask_ : Z;
  head_ : Z;
  tail_ : Z
}.

(** The loop [while (power < n) power <<= 1;].  The shift is a [size_t]
    shift, so the bit that leaves the word is lost. *)
Fixpoint next_power_of_2_loop (fuel : nat) (power n : Z) : option Z :=
  match fuel with
  | O => None
  | S fuel' =>
      if power <? n
      then next_power_of_2_loop fuel' (wrap (Z.shiftl power 1)) n
      else Some power
  end.

Definition next_power_of_2 (fuel : nat) (n : Z) : option Z :=
  if n <=? 1 then Some 1 else next_power_of_2_loop fuel 1 n.

(** The nodes as the constructor leaves them: default data and
    [sequence = i] at index [i]. *)
Definition initial_buffer (capacity : Z) : list Node :=
  (λ i, mkNode inhabitant i) <$> seqZ 0 capacity.

(** A node holds a [T] and a [size_t] counter: 16 bytes or more on an
    LP64 target, whatever [T] is. *)
Definition sizeof_Node_min : Z := 16.

(** [std::make_unique<Node[]>(capacity_)] returns.  An array whose size in
    bytes is not a [size_t] is refused before the host is asked
    ([std::bad_array_new_length]); otherwise [host n] tells whether the
    host has the memory for [n] nodes ([std::bad_alloc] when not). *)
Definition make_unique_Node (host : Z → bool) (n : Z) : bool :=
  (n * sizeof_Node_min <? 2 ^ SIZE_BITS) && host n.

(** [LockFreeQueue(size_t capacity)].  [None]: no queue is constructed,
    because the loop of [next_power_of_2] does not end or because the
    allocation of the buffer throws. *)
Definition new (fuel : nat) (host : Z → bool) (capacity : Z)
  : option LockFreeQueue :=
  match next_power_of_2 fuel capacity with
  | None => None
  | Some c =>
      if make_unique_Node host c
      then Some {| buffer_ := initial_buffer c;
                   capacity_ := c;
                   mask_ := wrap (c - 1);
                   head_ := 0;
                   tail_ := 0 |}
      else None
  end.

Definition capacity (q : LockFreeQueue) : Z := capacity_ q.

Definition set_head (h : Z) (q : LockFreeQueue) : LockFreeQueue :=
  {| buffer_ := buffer_ q; capacity_ := capacity_ q; mask_ := mask_ q;
     head_ := h; tail_ := tail_ q |}.

Definition set_tail (t : Z) (q : LockFreeQueue) : LockFreeQueue :=
  {| buffer_ := buffer_ q; capacity_ := capacity_ q; mask_ := mask_ q;
     head_ := head_ q; tail_ := t |}.

Definition set_node (i : nat) (n : Node) (q : LockFreeQueue) : LockFreeQueue :=
  {| buffer_ := <[i := n]> (buffer_ q); capacity_ := capacity_ q;
     mask_ := mask_ q; head_ := head_ q; tail_ := tail_ q |}.

(** [bool try_push(const T &value)], executed by one thread with no other
    thread running: every atomic load returns the last value stored, and
    the compare-exchange on [head_] compares it with the value just loaded
    and, being equal, stores (the weak form is taken not to fail without
    cause).  An index outside the buffer (which [head & mask_] never is in
    a constructed queue) makes the call fail. *)
Definition try_push (value : T) (q : LockFreeQueue) : bool * LockFreeQueue :=
  let head := head_ q in
  let tail := tail_ q in
  if capacity_ q <=? wrap (head - tail) then (false, q)
  else
    let idx := Z.to_nat (Z.land head (mask_ q)) in
    match buffer_ q !! idx with
    | None => (false, q)
    | Some node =>
        if negb (sequence node =? head) then (false, q)
        else if negb (head_ q =? head) then (false, q)
        else
          let q1 := set_head (wrap (head + 1)) q in
          (true, set_node idx (mkNode value (wrap (head + 1))) q1)
    end.

(** [bool try_pop(T &value)]: the first component is [Some v] when the call
    returns true after storing [v] in [value], and [None] when it returns
    false and leaves [value] alone.  The node keeps its data after the move
    (as it does for a trivially copyable [T]). *)
Definition try_pop (q : LockFreeQueue) : option T * LockFreeQueue :=
  let tail := tail_ q in
  let head := head_ q in
  if head <=? tail then (None, q)
  else
    let idx := Z.to_nat (Z.land tail (mask_ q)) in
    match buffer_ q !! idx with
    | None => (None, q)
    | Some node =>
        if negb (sequence node =? wrap (tail + 1)) then (None, q)
        else if negb (tail_ q =? tail) then (None, q)
        else
          let q1 := set_tail (wrap (tail + 1)) q in
          (Some (data node),
           set_node idx (mkNode (data node) (wrap (tail + capacity_ q))) q1)
    end.

Definition empty (q : LockFreeQueue) : bool := head_ q <=? tail_ q.

Definition full (q : LockFreeQueue) : bool :=
  capacity_ q <=? wrap (head_ q - tail_ q).

Definition size (q : LockFreeQueue) : Z := wrap (head_ q - tail_ q).

(** Drivers: a run of pushes, then a run of pops, on one thread. *)
Fixpoint push_all (vs : list T) (q : LockFreeQueue)
  : list bool * LockFreeQueue :=
  match vs with
  | [] => ([], q)
  | v :: vs' =>
      let '(ok, q1) := try_push v q in
      let '(oks, q2) := push_all vs' q1 in
      (ok :: oks, q2)
  end.

Fixpoint pop_n (n : nat) (q : LockFreeQueue)
  : list (option T) * LockFreeQueue :=
  match n with
  | O => ([], q)
  | S n' =>
      let '(r, q1) := try_pop q in
      let '(rs, q2) := pop_n n' q1 in
      (r :: rs, q2)
  end.

(** Any interleaving of pushes and pops on one thread. *)
Inductive op : Type :=
  | Push (v : T)
  | Pop.

Definition step (q : LockFreeQueue) (o : op) : LockFreeQueue :=
  match o with
  | Push v => snd (try_push v q)
  | Pop => snd (try_pop q)
  end.

Definition run (ops : list op) (q : LockFreeQueue) : LockFreeQueue :=
  foldl step q ops.

(** A number is a power of two. *)
Definition is_power_of_2 (p : Z) : Prop := ∃ m : Z, 0 <= m ∧ p = 2 ^ m.

(** [p] is the smallest power of two that is at least [n]. *)
Definition smallest_power_of_2_ge (n p : Z) : Prop :=
  is_power_of_2 p ∧ n <= p ∧ ∀ p', is_power_of_2 p' → n <= p' → p <= p'.

(** The first [length ws] slots hold [ws], published; the rest of the
    buffer is writable. *)
Definition filled (c : Z) (ws : list T) (q : LockFreeQueue) : Prop :=
  capacity_ q = c ∧ mask_ q = c - 1 ∧
  head_ q = Z.of_nat (length ws) ∧ tail_ q = 0 ∧
  (∀ (i : nat) w, ws !! i = Some w →
     ∃ nd, buffer_ q !! i = Some nd ∧ data nd = w ∧
           sequence nd = Z.of_nat i + 1) ∧
  (∀ i : nat, Z.of_nat (length ws) <= Z.of_nat i < c →
     ∃ nd, buffer_ q !! i = Some nd ∧ sequence nd = Z.of_nat i).

(** The consumer has taken the first [j] of the published values [ws]. *)
Definition draining (c : Z) (ws : list T) (j : nat) (q : LockFreeQueue)
  : Prop :=
  capacity_ q = c ∧ mask_ q = c - 1 ∧
  head_ q = Z.of_nat (length ws) ∧ tail_ q = Z.of_nat j ∧
  (∀ (i : nat) w, (j <= i)%nat → ws !! i = Some w →
     ∃ nd, buffer_ q !! i = Some nd ∧ data nd = w ∧
           sequence nd = Z.of_nat i + 1).

End Queue.

Arguments Node : clear implicits.
Arguments LockFreeQueue : clear implicits.
Arguments op : clear implicits.

Section Model.

Context {T : Type} `{Inhabited T}.

(** What a call of [try_push] or [try_pop] reports. *)
Inductive result : Type :=
  | pushed (ok : bool)
  | popped (v : option T).

Definition step_result (q : LockFreeQueue T) (o : op T)
  : result * LockFreeQueue T :=
  match o with
  | Push v => let '(ok, q') := try_push v q in (pushed ok, q')
  | Pop => let '(v, q') := try_pop q in (popped v, q')
  end.

(** What the calls of a sequence report, one after the other. *)
Fixpoint results (ops : list (op T)) (q : LockFreeQueue T) : list result :=
  match ops with
  | [] => []
  | o :: ops' =>
      let '(r, q') := step_result q o in r :: results ops' q'
  end.

(** A bounded first-in first-out list, to compare the queue with. *)
Definition fifo_step (cap : Z) (items : list T) (o : op T)
  : result * list T :=
  match o with
  | Push v =>
      if Z.of_nat (length items) <? cap then (pushed true, items ++ [v])
      else (pushed false, items)
  | Pop =>
      match items with
      | [] => (popped None, [])
      | x :: rest => (popped (Some x), rest)
      end
  end.

Fixpoint fifo_results (cap : Z) (items : list T) (ops : list (op T))
  : list result :=
  match ops with
  | [] => []
  | o :: ops' =>
      let '(r, items') := fifo_step cap items o in
      r :: fifo_results cap items' ops'
  end.

Definition fifo_run (cap : Z) (items : list T) (ops : list (op T)) : list T :=
  foldl (λ its o, snd (fifo_step cap its o)) items ops.

(** The queue holds [items], oldest first: they sit, published, in the
    slots of the positions from [tail_] up to [head_], and the slots of the
    positions from [head_] up to [tail_ + c] are writable. *)
Definition holds (c : Z) (items : list T) (q : LockFreeQueue T) : Prop :=
  capacity_ q = c ∧ mask_ q = c - 1 ∧ 0 <= tail_ q ∧
  head_ q = tail_ q + Z.of_nat (length items) ∧
  Z.of_nat (length items) <= c ∧
  (∀ (i : nat) w, items !! i = Some w →
     ∃ nd, buffer_ q !! Z.to_nat ((tail_ q + Z.of_nat i) mod c) = Some nd ∧
           data nd = w ∧ sequence nd = tail_ q + Z.of_nat i + 1) ∧
  (∀ z, head_ q <= z < tail_ q + c →
     ∃ nd, buffer_ q !! Z.to_nat (z mod c) = Some nd ∧ sequence nd = z).

End Model.

(** A host with the memory for 2^20 nodes and no more. *)
Definition host_2_20 (n : Z) : bool := n <=? 2 ^ 20.

Arguments result : clear implicits.

End LockFreeQueue.

(* ====================================================================== *)
(** ** MemoryPool *)
(* ====================================================================== *)

Module MemoryPool.

(** Layout of [struct Block { Block *next; char data[1]; }] on an LP64
    target: an 8-byte pointer, then the data. *)
Definition sizeof_Block : Z := 16.
Definition alignof_Block : Z := 8.
Definition offsetof_Block_data : Z := 8.

(** A chunk is the array a [std::unique_ptr<char[]>] owns: its first
    address and the number of bytes that were requested for it. *)
Record Chunk : Type := mkChunk {
  chunk_start : Z;
  chunk_bytes : Z
}.

(** The pool, with the part of memory it writes: [next_] maps the address
    of a block to the contents of its [next] field. *)
Record MemoryPool : Type := mkPool {
  block_size_ : Z;
  chunks_ : list Chunk;
  free_list_ : Z;
  total_blocks_ : Z;
  allocated_blocks_ : Z;
  next_ : gmap Z Z
}.

(** [block->next = free_list_; free_list_ = block;] *)
Definition push_free (block : Z) (p : MemoryPool) : MemoryPool :=
  {| block_size_ := block_size_ p;
     chunks_ := chunks_ p;
     free_list_ := block;
     total_blocks_ := total_blocks_ p;
     allocated_blocks_ := allocated_blocks_ p;
     next_ := <[block := free_list_ p]> (next_ p) |}.

(** The loop of [expand_pool] over the blocks of the new chunk. *)
Fixpoint init_blocks (n : nat) (chunk_ptr : Z) (p : MemoryPool) : MemoryPool :=
  match n with
  | O => p
  | S n' => init_blocks n' (chunk_ptr + block_size_ p) (push_free chunk_ptr p)
  end.

(** [expand_pool(num_blocks)]; [chunk] is the address [make_unique]
    returns for the new array. *)
Definition expand_pool (chunk : Z) (num_blocks : Z) (p : MemoryPool)
  : MemoryPool :=
  let chunk_size := wrap (block_size_ p * num_blocks) in
  let p1 := init_blocks (Z.to_nat num_blocks) chunk p in
  {| block_size_ := block_size_ p1;
     chunks_ := chunks_ p1 ++ [mkChunk chunk chunk_size];
     free_list_ := free_list_ p1;
     total_blocks_ := wrap (total_blocks_ p1 + num_blocks);
     allocated_blocks_ := allocated_blocks_ p1;
     next_ := next_ p1 |}.

(** [MemoryPool(block_size, initial_blocks)]; [None] is the
    [std::invalid_argument] thrown for a zero block size. *)
Definition new (chunk : Z) (block_size initial_blocks : Z)
  : option MemoryPool :=
  if block_size =? 0 then None
  else
    let total_block_size := wrap (wrap (sizeof_Block + block_size) - 1) in
    let total_block_size :=
      if negb (total_block_size mod alignof_Block =? 0)
      then wrap (total_block_size
                 + (alignof_Block - total_block_size mod alignof_Block))
      else total_block_size in
    let p := {| block_size_ := total_block_size;
                chunks_ := [];
                free_list_ := 0;
                total_blocks_ := 0;
                allocated_blocks_ := 0;
                next_ := ∅ |} in
    Some (if 0 <? initial_blocks then expand_pool chunk initial_blocks p
          else p).

(** [allocate()]; [chunk] is the address of the array that is created if
    the pool has to grow.  Reading the [next] field of a block that was
    never written gives 0 in the model. *)
Definition allocate (chunk : Z) (p : MemoryPool) : Z * MemoryPool :=
  let p1 :=
    if free_list_ p =? 0
    then expand_pool chunk (Z.max 1 (total_blocks_ p / 2)) p
    else p in
  let block := free_list_ p1 in
  (block + offsetof_Block_data,
   {| block_size_ := block_size_ p1;
      chunks_ := chunks_ p1;
      free_list_ := default 0 (next_ p1 !! block);
      total_blocks_ := total_blocks_ p1;
      allocated_blocks_ := wrap (allocated_blocks_ p1 + 1);
      next_ := next_ p1 |}).

(** The test [is_valid_pointer] makes for one chunk. *)
Definition in_chunk (ptr : Z) (p : MemoryPool) (chunk : Chunk) : bool :=
  let chunk_end := chunk_start chunk
                   + wrap (total_blocks_ p * block_size_ p) in
  (chunk_start chunk <=? ptr) && (ptr <? chunk_end)
  && ((ptr - chunk_start chunk) mod block_size_ p =? offsetof_Block_data).

Definition is_valid_pointer (ptr : Z) (p : MemoryPool) : bool :=
  if ptr =? 0 then false else existsb (in_chunk ptr p) (chunks_ p).

(** [deallocate(ptr)] *)
Definition deallocate (ptr : Z) (p : MemoryPool) : MemoryPool :=
  if ptr =? 0 then p
  else if negb (is_valid_pointer ptr p) then p
  else
    let block := ptr - offsetof_Block_data in
    let p1 := push_free block p in
    {| block_size_ := block_size_ p1;
       chunks_ := chunks_ p1;
       free_list_ := free_list_ p1;
       total_blocks_ := total_blocks_ p1;
       allocated_blocks_ := wrap (allocated_blocks_ p1 - 1);
       next_ := next_ p1 |}.

Definition total_blocks (p : MemoryPool) : Z := total_blocks_ p.

Definition allocated_blocks (p : MemoryPool) : Z := allocated_blocks_ p.

(** [free_blocks()]: the walk along the free list. *)
Fixpoint free_blocks_from (fuel : nat) (current : Z) (count : Z)
    (p : MemoryPool) : option Z :=
  match fuel with
  | O => None
  | S fuel' =>
      if current =? 0 then Some count
      else free_blocks_from fuel' (default 0 (next_ p !! current))
                            (wrap (count + 1)) p
  end.

Definition free_blocks (fuel : nat) (p : MemoryPool) : option Z :=
  free_blocks_from fuel (free_list_ p) 0 p.

(** The free list as the pool sees it: the head and the links. *)
Definition free_list (p : MemoryPool) : Z * gmap Z Z :=
  (free_list_ p, next_ p).

(** [ptr] lies in the bytes of an array the pool owns. *)
Definition in_owned_chunk (ptr : Z) (p : MemoryPool) : Prop :=
  ∃ c, c ∈ chunks_ p ∧ chunk_start c <= ptr < chunk_start c + chunk_bytes c.

(** What [is_valid_pointer] refuses: for each chunk the pointer is before
    its start, or [total_blocks_ * block_size_] bytes or more past it, or
    at an offset that is not the data offset of a block. *)
Definition rejected (ptr : Z) (p : MemoryPool) : Prop :=
  ptr = 0 ∨
  ∀ c, c ∈ chunks_ p →
    ptr < chunk_start c
    ∨ chunk_start c + wrap (total_blocks_ p * block_size_ p) <= ptr
    ∨ (ptr - chunk_start c) mod block_size_ p ≠ offsetof_Block_data.

(** [reserve(num_blocks)] *)
Definition reserve (chunk : Z) (num_blocks : Z) (p : MemoryPool)
  : MemoryPool :=
  expand_pool chunk num_blocks p.

(** The addresses [expand_pool] visits: [n] blocks from [ptr] on, each
    [bs] bytes after the one before. *)
Fixpoint blocks_from (ptr bs : Z) (n : nat) : list Z :=
  match n with
  | O => []
  | S n' => ptr :: blocks_from (ptr + bs) bs n'
  end.

(** The free list read through memory: from [head], the [next] fields lead
    through the blocks of [l], in that order, to the null pointer. *)
Fixpoint chain (next : gmap Z Z) (head : Z) (l : list Z) : Prop :=
  match l with
  | [] => head = 0
  | b :: l' => head = b ∧ b ≠ 0 ∧ ∃ n, next !! b = Some n ∧ chain next n l'
  end.

(** [b] is the address of a block: a whole number of blocks into a chunk,
    with room for the block before the chunk ends. *)
Definition slot (p : MemoryPool) (b : Z) : Prop :=
  ∃ c i, c ∈ chunks_ p ∧ 0 <= i ∧
         b = chunk_start c + i * block_size_ p ∧
         (i + 1) * block_size_ p <= chunk_bytes c.

(** A pool in proper use: [free] are the blocks of the free list, in its
    order, and [out] the pointers [allocate] has handed out and that have
    not come back. *)
Definition pool_ok (p : MemoryPool) (free : list Z) (out : gset Z) : Prop :=
  offsetof_Block_data < block_size_ p ∧
  chain (next_ p) (free_list_ p) free ∧
  NoDup free ∧
  (∀ b, b ∈ free → b + offsetof_Block_data ∉ out) ∧
  (∀ b, b ∈ free → slot p b) ∧
  (∀ ptr, ptr ∈ out → slot p (ptr - offsetof_Block_data)) ∧
  (∀ c, c ∈ chunks_ p →
     0 < chunk_start c ∧
     chunk_bytes c <= total_blocks_ p * block_size_ p) ∧
  total_blocks_ p * block_size_ p < 2 ^ 64 ∧
  total_blocks_ p = Z.of_nat (length free + size out) ∧
  allocated_blocks_ p = Z.of_nat (size out).

(** What the host allocator owes the pool for a new chunk of [n] blocks:
    an address that is not null, bytes that overlap no chunk the pool
    has, and a pool that stays within the range of [size_t]. *)
Definition fresh_chunk (p : MemoryPool) (chunk n : Z) : Prop :=
  0 < chunk ∧ 0 <= n ∧
  (total_blocks_ p + n) * block_size_ p < 2 ^ 64 ∧
  ∀ c, c ∈ chunks_ p →
    chunk + n * block_size_ p <= chunk_start c
    ∨ chunk_start c + chunk_bytes c <= chunk.

(** The pools a client reaches who frees only what it was given, with the
    pointers it still holds. *)
Inductive in_use : MemoryPool → gset Z → Prop :=
  | in_use_new chunk block_size initial_blocks p :
      new chunk block_size initial_blocks = Some p →
      0 < block_size <= 2 ^ 32 → 0 < chunk →
      0 <= initial_blocks <= 2 ^ 24 →
      in_use p ∅
  | in_use_allocate p out chunk ptr p' :
      in_use p out →
      (free_list_ p = 0 →
       fresh_chunk p chunk (Z.max 1 (total_blocks_ p / 2))) →
      allocate chunk p = (ptr, p') →
      in_use p' ({[ptr]} ∪ out)
  | in_use_deallocate p out ptr :
      in_use p out → ptr ∈ out →
      in_use (deallocate ptr p) (out ∖ {[ptr]})
  | in_use_reserve p out chunk num_blocks :
      in_use p out → fresh_chunk p chunk num_blocks →
      in_use (reserve chunk num_blocks p) out.

(** The pool of the tests: [MemoryPool(sizeof(int), 5)], its chunk at
    address 4096. *)
Definition sample_pool : MemoryPool :=
  expand_pool 4096 5
    {| block_size_ := 24; chunks_ := []; free_list_ := 0;
       total_blocks_ := 0; allocated_blocks_ := 0; next_ := ∅ |}.

(** A pool of one block, [MemoryPool(sizeof(int), 1)], and the same after
    the block has been allocated. *)
Definition one_block_pool : MemoryPool :=
  expand_pool 4096 1
    {| block_size_ := 24; chunks_ := []; free_list_ := 0;
       total_blocks_ := 0; allocated_blocks_ := 0; next_ := ∅ |}.

Definition exhausted_pool : MemoryPool := snd (allocate 0 one_block_pool).

(** [sample_pool] after one, two, ... five calls of [allocate()]: the
    last one has no free block left. *)
Definition sample_pool_1 : MemoryPool := snd (allocate 0 sample_pool).
Definition sample_pool_2 : MemoryPool := snd (allocate 0 sample_pool_1).
Definition sample_pool_3 : MemoryPool := snd (allocate 0 sample_pool_2).
Definition sample_pool_4 : MemoryPool := snd (allocate 0 sample_pool_3).
Definition drained_pool : MemoryPool := snd (allocate 0 sample_pool_4).

(** The pointers the client holds then. *)
Definition drained_pool_out : gset Z :=
  {[4104]} ∪ ({[4128]} ∪ ({[4152]} ∪ ({[4176]} ∪ ({[4200]} ∪ ∅)))).

End MemoryPool.

(* ====================================================================== *)
(** ** ThreadPool *)
(* ====================================================================== *)

Module ThreadPool.

Section Pool.

(** A queued task: the type-erased closure of [std::function<void()>]. *)
Context {Task : Type}.

(** The pool as one thread observes it between calls: the number of
    worker threads in [workers_], the queue, the flag and the counters. *)
Record ThreadPool : Type := mkPool {
  workers_ : nat;
  tasks_ : list Task;
  stop_ : bool;
  active_tasks_ : Z;
  completed_tasks_ : Z
}.

(** How a call to [submit] ends. *)
Inductive submit_result : Type :=
  | future_returned
  | runtime_error (what : string).

(** [ThreadPool(num_threads)]; [hardware_concurrency] is what
    [std::thread::hardware_concurrency()] reports. *)
Definition new (num_threads hardware_concurrency : nat) : ThreadPool :=
  let n :=
    if (num_threads =? 0)%nat
    then (if (hardware_concurrency =? 0)%nat then 4%nat
          else hardware_concurrency)
    else num_threads in
  {| workers_ := n; tasks_ := []; stop_ := false;
     active_tasks_ := 0; completed_tasks_ := 0 |}.

(** [submit(task)]: the test of [stop_] and the [emplace] under
    [queue_mutex_]. *)
Definition submit (task : Task) (p : ThreadPool)
  : submit_result * ThreadPool :=
  if stop_ p then (runtime_error "submit on stopped ThreadPool", p)
  else
    (future_returned,
     {| workers_ := workers_ p; tasks_ := tasks_ p ++ [task];
        stop_ := stop_ p; active_tasks_ := active_tasks_ p;
        completed_tasks_ := completed_tasks_ p |}).

Definition pending_tasks (p : ThreadPool) : nat := length (tasks_ p).

Definition thread_count (p : ThreadPool) : nat := workers_ p.

(** One turn of [worker_function] that finds a task: the task leaves the
    queue and is run to its end.  [None] when no worker can take one. *)
Definition worker_step (p : ThreadPool) : option (Task * ThreadPool) :=
  match workers_ p, tasks_ p with
  | S _, task :: rest =>
      Some (task,
            {| workers_ := workers_ p; tasks_ := rest; stop_ := stop_ p;
               active_tasks_ := active_tasks_ p;
               completed_tasks_ := wrap (completed_tasks_ p + 1) |})
  | _, _ => None
  end.

(** [shutdown()]: the flag is set, then every worker is joined.  A worker
    leaves its loop only when [stop_] is set and the queue is empty, so the
    join returns once the workers, if there are any, have run what was
    queued. *)
Definition shutdown (p : ThreadPool) : ThreadPool :=
  match workers_ p with
  | O =>
      {| workers_ := O; tasks_ := tasks_ p; stop_ := true;
         active_tasks_ := active_tasks_ p;
         completed_tasks_ := completed_tasks_ p |}
  | S _ =>
      {| workers_ := O; tasks_ := []; stop_ := true;
         active_tasks_ := active_tasks_ p;
         completed_tasks_ :=
           wrap (completed_tasks_ p + Z.of_nat (length (tasks_ p))) |}
  end.

(** [wait_all()] returns when the queue is empty and nothing runs; with
    workers that is after they have run the queue, without workers only if
    the queue is empty already ([None]: the call spins for ever). *)
Definition wait_all (p : ThreadPool) : option ThreadPool :=
  match workers_ p, tasks_ p with
  | _, [] => Some p
  | O, _ :: _ => None
  | S _, _ :: _ =>
      Some {| workers_ := workers_ p; tasks_ := []; stop_ := stop_ p;
              active_tasks_ := active_tasks_ p;
              completed_tasks_ :=
                wrap (completed_tasks_ p + Z.of_nat (length (tasks_ p))) |}
  end.

(** The calls a client can make after a shutdown, and the pool after a
    sequence of them. *)
Inductive call : Type :=
  | call_submit (task : Task)
  | call_shutdown
  | call_wait_all
  | call_pending_tasks.

Definition after_call (c : call) (p : ThreadPool) : option ThreadPool :=
  match c with
  | call_submit task => Some (snd (submit task p))
  | call_shutdown => Some (shutdown p)
  | call_wait_all => wait_all p
  | call_pending_tasks => Some p
  end.

(** [None] when one of the calls does not return. *)
Fixpoint after_calls (cs : list call) (p : ThreadPool) : option ThreadPool :=
  match cs with
  | [] => Some p
  | c :: cs' =>
      match after_call c p with
      | Some p' => after_calls cs' p'
      | None => None
      end
  end.

End Pool.

Arguments ThreadPool : clear implicits.
Arguments call : clear implicits.

Section Order.

Context {Task : Type}.

(** [submit] for each task of a list, first to last. *)
Fixpoint submit_all (ts : list Task) (p : ThreadPool Task)
  : ThreadPool Task :=
  match ts with
  | [] => p
  | t :: ts' => submit_all ts' (snd (submit t p))
  end.

(** Up to [n] turns of the workers: the tasks they take, in the order they
    take them, and the pool they leave. *)
Fixpoint take_tasks (n : nat) (p : ThreadPool Task)
  : list Task * ThreadPool Task :=
  match n with
  | O => ([], p)
  | S n' =>
      match worker_step p with
      | Some (t, p') =>
          let '(ts, p'') := take_tasks n' p' in (t :: ts, p'')
      | None => ([], p)
      end
  end.

End Order.

End ThreadPool.

(* ====================================================================== *)
(** ** CacheManager *)
(* ====================================================================== *)

Module CacheManager.

(** *** The cached payload (include/data/market_data.h) *)

(** Prices are rationals here; the cache never computes with them. *)
Record MarketDataPoint : Type := mkPoint {
  timestamp : Z;
  open : Q;
  high : Q;
  low : Q;
  close : Q;
  volume : Z
}.

Record MarketDataSeries : Type := mkSeries {
  symbol_ : string;
  data_ : list MarketDataPoint
}.

(** [sizeof(MarketDataPoint)] and [sizeof(std::vector<MarketDataPoint>)]
    on an LP64 target. *)
Definition sizeof_MarketDataPoint : Z := 48.
Definition sizeof_vector : Z := 24.

(** *** The cache *)

Record CacheEntry : Type := mkEntry {
  data : MarketDataSeries;
  size_bytes : Z;
  last_accessed : Z;
  created : Z
}.

(** A persistence task queued on the thread pool: the captured key and
    payload of the lambda that calls [persist_to_disk]. *)
Definition PersistTask : Type := string * MarketDataSeries.

(** *** The cache directory and its host *)

(** What the host makes of the path [cache_dir_ / (key + ".cache")] that
    [get_cache_file_path(key)] builds.
    - [names f]: the path leads to the regular file [f], or to the place
      where the process can create a regular file [f]; the streams open
      it and [std::filesystem::remove] deletes it when it is there.
      Two keys can name one file.
    - [missing]: there is nothing under the path and nothing can be
      created there, for instance because a directory on the way does
      not exist: the streams do not open, and [std::filesystem::remove]
      reports that there was nothing to remove.
    - [refused]: the host reports another error (a regular file where a
      directory is needed, a name that is too long, a directory at the
      end of the path): the streams do not open, and the throwing
      [std::filesystem::remove] throws [filesystem_error]. *)
Inductive resolution : Type :=
  | names (file : string)
  | missing
  | refused.

(** The host of a cache manager.
    - [path_of files key]: the resolution of the path of [key] when the
      regular files are [files].
    - [entry_of f]: for a regular file [f], the [stem()] of its path when
      the iteration over [cache_dir_] yields it with an [extension()]
      equal to [".cache"].
    - [reads_back d]: what [load_from_disk] returns for a file as
      [persist_to_disk] leaves it for the payload [d]. *)
Record Host : Type := mkHost {
  path_of : gmap string MarketDataSeries → string → resolution;
  entry_of : string → option string;
  reads_back : MarketDataSeries → option MarketDataSeries
}.

(** The regular files the cache manager can reach, each with the payload
    [persist_to_disk] was given when it wrote the file, and the host.
    The process is taken to be the only one that changes these files, to
    be allowed to delete the files of [cache_dir_], and a write to an
    open stream to complete. *)
Record Directory : Type := mkDirectory {
  files_ : gmap string MarketDataSeries;
  host_ : Host
}.

Definition set_files (m : gmap string MarketDataSeries) (dir : Directory)
  : Directory :=
  {| files_ := m; host_ := host_ dir |}.

(** [get_cache_file_path(key)], as the host resolves it. *)
Definition get_cache_file_path (key : string) (dir : Directory)
  : resolution :=
  path_of (host_ dir) (files_ dir) key.

(** [std::ofstream file(filepath); if (file.is_open()) { file << ...; }] *)
Definition write_file (key : string) (d : MarketDataSeries)
    (dir : Directory) : Directory :=
  match get_cache_file_path key dir with
  | names f => set_files (<[f := d]> (files_ dir)) dir
  | missing => dir
  | refused => dir
  end.

(** [std::filesystem::remove(get_cache_file_path(key))]; [None] when it
    throws. *)
Definition remove_file (key : string) (dir : Directory)
  : option Directory :=
  match get_cache_file_path key dir with
  | names f => Some (set_files (delete f (files_ dir)) dir)
  | missing => Some dir
  | refused => None
  end.

(** The loop of [clear()] over the entries of [cache_dir_]: the regular
    files whose extension is [".cache"] are removed. *)
Definition remove_cache_files (dir : Directory) : Directory :=
  set_files
    (filter (λ kv, entry_of (host_ dir) (fst kv) = None) (files_ dir)) dir.

(** The keys [preload_from_disk()] finds: the stems of the regular files
    of [cache_dir_] whose extension is [".cache"]. *)
Definition cache_file_keys (dir : Directory) : list string :=
  omap (λ kv, entry_of (host_ dir) (fst kv)) (map_to_list (files_ dir)).

(** **** A host: a process confined to its cache directory

    The root directory of the process is its cache directory
    ([cache_dir_] is ["/"]); the directory holds regular files only.
    Every path, absolute or not, is resolved inside this one directory,
    and [".."] leads nowhere else.  A name has at most 255 bytes and a
    path at most 4095. *)

(** [std::string::c_str()]: the path as the host reads it ends at the
    first null character. *)
Fixpoint c_str (s : string) : string :=
  match s with
  | EmptyString => EmptyString
  | String c s' =>
      if Ascii.eqb c "000"%char then EmptyString else String c (c_str s')
  end.

(** The components of a path, between its slashes. *)
Fixpoint components (s : string) : list string :=
  match s with
  | EmptyString => [EmptyString]
  | String c s' =>
      if Ascii.eqb c "/"%char then EmptyString :: components s'
      else
        match components s' with
        | [] => [String c EmptyString]
        | x :: xs => String c x :: xs
        end
  end.

(** A component that stays in the directory. *)
Definition stays (c : string) : bool :=
  String.eqb c "" || String.eqb c "." || String.eqb c "..".

Definition too_long (c : string) : bool := (255 <? String.length c)%nat.

Fixpoint walk (files : gmap string MarketDataSeries) (cs : list string)
  : resolution :=
  match cs with
  | [] => refused
  | c :: rest =>
      match rest with
      | [] => if stays c || too_long c then refused else names c
      | _ :: _ =>
          if stays c then walk files rest
          else if too_long c then refused
          else if bool_decide (is_Some (files !! c)) then refused
          else missing
      end
  end.

Definition confined_path_of (files : gmap string MarketDataSeries)
    (key : string) : resolution :=
  let p := c_str (key ++ ".cache") in
  let full := match p with
              | String "/" _ => p
              | _ => String "/" p
              end in
  if (4095 <? String.length full)%nat then refused
  else walk files (components p).

(** The rightmost period of a file name: what is before it, and the rest
    from the period on. *)
Fixpoint last_period (s : string) : option (string * string) :=
  match s with
  | EmptyString => None
  | String c s' =>
      match last_period s' with
      | Some (before, rest) => Some (String c before, rest)
      | None => if Ascii.eqb c "."%char then Some (EmptyString, s) else None
      end
  end.

(** [path::stem()] and [path::extension()] of a file name: a period at
    the start of the name does not begin an extension, and ["."] and
    [".."] have none. *)
Definition stem_extension (name : string) : string * string :=
  if String.eqb name "." || String.eqb name ".." then (name, EmptyString)
  else
    match last_period name with
    | Some (EmptyString, _) => (name, EmptyString)
    | Some (before, rest) => (before, rest)
    | None => (name, EmptyString)
    end.

Definition confined_entry_of (name : string) : option string :=
  if String.eqb (snd (stem_extension name)) ".cache"
  then Some (fst (stem_extension name))
  else None.

(** Well-formed UTF-8, byte by byte.  [dump()] throws on a symbol that is
    not: the file is then left empty and does not read back. *)
Definition byte_in (lo hi : N) (c : ascii) : bool :=
  (lo <=? N_of_ascii c)%N && (N_of_ascii c <=? hi)%N.

Fixpoint utf8 (fuel : nat) (s : string) : bool :=
  match fuel with
  | O => true
  | S fuel' =>
      match s with
      | EmptyString => true
      | String a s1 =>
          if byte_in 0 127 a then utf8 fuel' s1
          else
            match s1 with
            | EmptyString => false
            | String b s2 =>
                if byte_in 194 223 a
                then byte_in 128 191 b && utf8 fuel' s2
                else
                  match s2 with
                  | EmptyString => false
                  | String c s3 =>
                      if byte_in 224 239 a
                      then (if byte_in 224 224 a then byte_in 160 191 b
                            else if byte_in 237 237 a then byte_in 128 159 b
                            else byte_in 128 191 b)
                           && byte_in 128 191 c && utf8 fuel' s3
                      else
                        match s3 with
                        | EmptyString => false
                        | String d s4 =>
                            byte_in 240 244 a
                            && (if byte_in 240 240 a then byte_in 144 191 b
                                else if byte_in 244 244 a
                                     then byte_in 128 143 b
                                else byte_in 128 191 b)
                            && byte_in 128 191 c && byte_in 128 191 d
                            && utf8 fuel' s4
                        end
                  end
            end
      end
  end.

(** The time stamps of the model are whole seconds, as the file has
    them, so a payload that is written reads back as it was. *)
Definition confined_reads_back (d : MarketDataSeries)
  : option MarketDataSeries :=
  if utf8 (S (String.length (symbol_ d))) (symbol_ d) then Some d else None.

Definition confined_host : Host :=
  {| path_of := confined_path_of;
     entry_of := confined_entry_of;
     reads_back := confined_reads_back |}.

(** The empty cache directory of a confined process. *)
Global Instance Directory_empty : Empty Directory :=
  {| files_ := ∅; host_ := confined_host |}.

(** The members of the class, with the state of its mutex and the
    directory. *)
Record CacheManager : Type := mkCache {
  cache_ : gmap string CacheEntry;
  lru_list_ : list string;
  max_memory_bytes_ : Z;
  current_memory_bytes_ : Z;
  thread_pool_ : option (ThreadPool.ThreadPool PersistTask);
  total_requests_ : Z;
  cache_hits_ : Z;
  cache_mutex_ : bool;
  disk : Directory
}.

Definition set_cache (m : gmap string CacheEntry) (s : CacheManager) :=
  mkCache m (lru_list_ s) (max_memory_bytes_ s) (current_memory_bytes_ s)
          (thread_pool_ s) (total_requests_ s) (cache_hits_ s)
          (cache_mutex_ s) (disk s).

Definition set_lru (l : list string) (s : CacheManager) :=
  mkCache (cache_ s) l (max_memory_bytes_ s) (current_memory_bytes_ s)
          (thread_pool_ s) (total_requests_ s) (cache_hits_ s)
          (cache_mutex_ s) (disk s).

Definition set_current (b : Z) (s : CacheManager) :=
  mkCache (cache_ s) (lru_list_ s) (max_memory_bytes_ s) b
          (thread_pool_ s) (total_requests_ s) (cache_hits_ s)
          (cache_mutex_ s) (disk s).

Definition set_pool (tp : option (ThreadPool.ThreadPool PersistTask))
    (s : CacheManager) :=
  mkCache (cache_ s) (lru_list_ s) (max_memory_bytes_ s)
          (current_memory_bytes_ s) tp (total_requests_ s) (cache_hits_ s)
          (cache_mutex_ s) (disk s).

Definition set_mutex (b : bool) (s : CacheManager) :=
  mkCache (cache_ s) (lru_list_ s) (max_memory_bytes_ s)
          (current_memory_bytes_ s) (thread_pool_ s) (total_requests_ s)
          (cache_hits_ s) b (disk s).

Definition set_disk (d : Directory) (s : CacheManager) :=
  mkCache (cache_ s) (lru_list_ s) (max_memory_bytes_ s)
          (current_memory_bytes_ s) (thread_pool_ s) (total_requests_ s)
          (cache_hits_ s) (cache_mutex_ s) d.

(** How a call ends: it returns, it throws, it blocks on a mutex its own
    thread already holds, or (in the model only) the fuel of a loop is
    used up. *)
Inductive outcome (A : Type) : Type :=
  | Returned (a : A) (s : CacheManager)
  | Threw (what : string) (s : CacheManager)
  | Blocked
  | OutOfFuel.

Arguments Returned {A} a s.
Arguments Threw {A} what s.
Arguments Blocked {A}.
Arguments OutOfFuel {A}.

(** The state a call leaves behind when control comes back. *)
Definition state_after {A : Type} (o : outcome A) : option CacheManager :=
  match o with
  | Returned _ s => Some s
  | Threw _ s => Some s
  | Blocked => None
  | OutOfFuel => None
  end.

Definition discard {A : Type} (o : outcome A) : outcome unit :=
  match o with
  | Returned _ s => Returned () s
  | Threw w s => Threw w s
  | Blocked => Blocked
  | OutOfFuel => OutOfFuel
  end.

(** [std::lock_guard<std::mutex> lock(cache_mutex_);] around a body.
    [std::mutex] is not recursive: locking it again from the thread that
    holds it does not return. *)
Definition lock_guard {A : Type} (body : CacheManager → outcome A)
    (s : CacheManager) : outcome A :=
  if cache_mutex_ s then Blocked
  else
    match body (set_mutex true s) with
    | Returned a s' => Returned a (set_mutex false s')
    | Threw w s' => Threw w (set_mutex false s')
    | Blocked => Blocked
    | OutOfFuel => OutOfFuel
    end.

(** The conversion of a number to [int], which is what
    [j.value("total_requests", 0)] returns. *)
Definition to_int (z : Z) : Z := (z + 2 ^ 31) mod 2 ^ 32 - 2 ^ 31.

(** [load_cache_metadata()]; [metadata] holds the two numbers of
    [metadata.json], and is [None] when the file is not there or cannot
    be read.  Each number is read as an [int] and stored in a
    [size_t]. *)
Definition load_cache_metadata (metadata : option (Z * Z)) : Z * Z :=
  match metadata with
  | Some (requests, hits) => (wrap (to_int requests), wrap (to_int hits))
  | None => (0, 0)
  end.

(** [CacheManager(max_memory_mb, cache_dir, thread_pool)]; [files] is the
    directory as the constructor finds it, after [create_directories]. *)
Definition new (max_memory_mb : Z)
    (thread_pool : option (ThreadPool.ThreadPool PersistTask))
    (files : Directory) (metadata : option (Z * Z))
  : CacheManager :=
  {| cache_ := ∅;
     lru_list_ := [];
     max_memory_bytes_ := wrap (wrap (max_memory_mb * 1024) * 1024);
     current_memory_bytes_ := 0;
     thread_pool_ := thread_pool;
     total_requests_ := fst (load_cache_metadata metadata);
     cache_hits_ := snd (load_cache_metadata metadata);
     cache_mutex_ := false;
     disk := files |}.

Definition estimate_memory_usage (d : MarketDataSeries) : Z :=
  let base_size :=
    wrap (sizeof_MarketDataPoint * Z.of_nat (length (data_ d))) in
  let overhead :=
    wrap (wrap (Z.of_nat (String.length (symbol_ d)) + sizeof_vector)
          + 100) in
  wrap (base_size + overhead).

(** [persist_to_disk(key, data)]: the file the path of the key names is
    written if the stream opens; an exception is caught inside. *)
Definition persist_to_disk (key : string) (d : MarketDataSeries)
    (s : CacheManager) : CacheManager :=
  set_disk (write_file key d (disk s)) s.

(** [load_from_disk(key)]: [std::nullopt] when the stream does not open
    or the file does not parse. *)
Definition load_from_disk (key : string) (s : CacheManager)
  : option MarketDataSeries :=
  match get_cache_file_path key (disk s) with
  | names f => files_ (disk s) !! f ≫= reads_back (host_ (disk s))
  | missing => None
  | refused => None
  end.

(** The path of the key names a regular file that is there. *)
Definition file_exists (key : string) (s : CacheManager) : bool :=
  match get_cache_file_path key (disk s) with
  | names f => bool_decide (is_Some (files_ (disk s) !! f))
  | missing => false
  | refused => false
  end.

(** [lru_list_.remove(key)] *)
Definition list_remove (key : string) (l : list string) : list string :=
  filter (λ k, k ≠ key) l.

Definition touch (now : Z) (e : CacheEntry) : CacheEntry :=
  {| data := data e; size_bytes := size_bytes e;
     last_accessed := now; created := created e |}.

(** [get(key)]; [now] is the reading of the steady clock. *)
Definition get_body (key : string) (now : Z) (s : CacheManager)
  : outcome (option MarketDataSeries) :=
  match cache_ s !! key with
  | None => Returned None s
  | Some e =>
      let s1 := set_cache (<[key := touch now e]> (cache_ s)) s in
      let s2 := set_lru (key :: list_remove key (lru_list_ s1)) s1 in
      Returned (Some (data e)) s2
  end.

Definition get (key : string) (now : Z) : CacheManager →
    outcome (option MarketDataSeries) :=
  lock_guard (get_body key now).

(** [evict_lru_item()] *)
Definition evict_lru_item (s : CacheManager) : CacheManager :=
  match last (lru_list_ s) with
  | None => s
  | Some key_to_evict =>
      let s1 := set_lru (removelast (lru_list_ s)) s in
      match cache_ s1 !! key_to_evict with
      | Some e =>
          let s2 :=
            set_current (wrap (current_memory_bytes_ s1 - size_bytes e)) s1 in
          set_cache (delete key_to_evict (cache_ s2)) s2
      | None => s1
      end
  end.

(** [current_memory_bytes_ + data_size > max_memory_bytes_] *)
Definition over_budget (data_size : Z) (s : CacheManager) : bool :=
  max_memory_bytes_ s <? wrap (current_memory_bytes_ s + data_size).

(** [cache_.empty()] *)
Definition cache_empty (s : CacheManager) : bool :=
  bool_decide (size (cache_ s) = 0%nat).

(** The eviction loop of [put]. *)
Fixpoint evict_loop (fuel : nat) (data_size : Z) (s : CacheManager)
  : option CacheManager :=
  match fuel with
  | O => None
  | S fuel' =>
      if over_budget data_size s && negb (cache_empty s)
      then evict_loop fuel' data_size (evict_lru_item s)
      else Some s
  end.

(** The part of [put] after the early return: the old entry of the key
    goes, the new one comes first in the recency order. *)
Definition insert_entry (key : string) (d : MarketDataSeries)
    (data_size now : Z) (s : CacheManager) : CacheManager :=
  let entry := {| data := d; size_bytes := data_size;
                  last_accessed := now; created := now |} in
  let s1 :=
    match cache_ s !! key with
    | Some existing =>
        set_lru (list_remove key (lru_list_ s))
          (set_current
             (wrap (current_memory_bytes_ s - size_bytes existing)) s)
    | None => s
    end in
  let s2 := set_cache (<[key := entry]> (cache_ s1)) s1 in
  let s3 := set_current (wrap (current_memory_bytes_ s2 + data_size)) s2 in
  set_lru (key :: lru_list_ s3) s3.

(** [put(key, data)] *)
Definition put_body (fuel : nat) (key : string) (d : MarketDataSeries)
    (now : Z) (s : CacheManager) : outcome unit :=
  let data_size := estimate_memory_usage d in
  match evict_loop fuel data_size s with
  | None => OutOfFuel
  | Some s1 =>
      if over_budget data_size s1 then Returned () s1
      else
        let s2 := insert_entry key d data_size now s1 in
        match thread_pool_ s2 with
        | Some pool =>
            match ThreadPool.submit (key, d) pool with
            | (ThreadPool.future_returned, pool') =>
                Returned () (set_pool (Some pool') s2)
            | (ThreadPool.runtime_error what, _) => Threw what s2
            end
        | None => Returned () (persist_to_disk key d s2)
        end
  end.

Definition put (fuel : nat) (key : string) (d : MarketDataSeries) (now : Z)
  : CacheManager → outcome unit :=
  lock_guard (put_body fuel key d now).

(** [remove(key)].  The entry is erased before
    [std::filesystem::remove] is called, so an exception of that call
    leaves the cache without the entry.  The text of [what()] begins as
    written here and goes on with the error and the path. *)
Definition remove_body (key : string) (s : CacheManager) : outcome unit :=
  match cache_ s !! key with
  | Some e =>
      let s1 :=
        set_current (wrap (current_memory_bytes_ s - size_bytes e)) s in
      let s2 := set_lru (list_remove key (lru_list_ s1)) s1 in
      let s3 := set_cache (delete key (cache_ s2)) s2 in
      match remove_file key (disk s3) with
      | Some dir => Returned () (set_disk dir s3)
      | None => Threw "filesystem error: cannot remove" s3
      end
  | None => Returned () s
  end.

Definition remove (key : string) : CacheManager → outcome unit :=
  lock_guard (remove_body key).

(** [clear()] *)
Definition clear_body (s : CacheManager) : outcome unit :=
  Returned ()
    (set_disk (remove_cache_files (disk s))
       (set_current 0 (set_lru [] (set_cache ∅ s)))).

Definition clear : CacheManager → outcome unit := lock_guard clear_body.

Definition contains (key : string) (s : CacheManager) : bool :=
  bool_decide (is_Some (cache_ s !! key)).

Definition size (s : CacheManager) : nat := size (cache_ s).

Definition memory_usage (s : CacheManager) : Z := current_memory_bytes_ s.

(** [hit_rate()], the quotient as a rational. *)
Definition hit_rate (s : CacheManager) : Q :=
  if total_requests_ s =? 0 then 0%Q
  else (inject_Z (cache_hits_ s) / inject_Z (total_requests_ s))%Q.

(** [now - entry.created > max_age] *)
Definition expired (max_age now : Z) (e : CacheEntry) : bool :=
  max_age <? now - created e.

(** The second loop of [cleanup_expired_entries]: [remove(key)], the
    public member, for each key. *)
Fixpoint remove_each (keys : list string) (s : CacheManager) : outcome unit :=
  match keys with
  | [] => Returned () s
  | key :: rest =>
      match remove key s with
      | Returned _ s' => remove_each rest s'
      | Threw w s' => Threw w s'
      | Blocked => Blocked
      | OutOfFuel => OutOfFuel
      end
  end.

(** [cleanup_expired_entries(max_age)] *)
Definition cleanup_expired_entries_body (max_age now : Z) (s : CacheManager)
  : outcome unit :=
  let to_remove :=
    fst <$> filter (λ kv, expired max_age now (snd kv) = true)
                   (map_to_list (cache_ s)) in
  remove_each to_remove s.

Definition cleanup_expired_entries (max_age now : Z)
  : CacheManager → outcome unit :=
  lock_guard (cleanup_expired_entries_body max_age now).

(** The loop of [preload_from_disk] over the files found; an exception of
    [put] is caught and the loop goes on. *)
Fixpoint preload_each (fuel : nat) (now : Z) (keys : list string)
    (s : CacheManager) : outcome unit :=
  match keys with
  | [] => Returned () s
  | key :: rest =>
      match load_from_disk key s with
      | None => preload_each fuel now rest s
      | Some d =>
          match put fuel key d now s with
          | Returned _ s' => preload_each fuel now rest s'
          | Threw _ s' => preload_each fuel now rest s'
          | Blocked => Blocked
          | OutOfFuel => OutOfFuel
          end
      end
  end.

Definition preload_from_disk (fuel : nat) (now : Z)
  : CacheManager → outcome unit :=
  lock_guard (λ s, preload_each fuel now (cache_file_keys (disk s)) s).

(** *** The thread pool behind the cache *)

(** A worker of the shared pool runs the persistence task at the front of
    the queue. *)
Definition pool_worker (s : CacheManager) : CacheManager :=
  match thread_pool_ s with
  | Some pool =>
      match ThreadPool.worker_step pool with
      | Some ((key, d), pool') =>
          persist_to_disk key d (set_pool (Some pool') s)
      | None => s
      end
  | None => s
  end.

(** Another owner of the shared pool shuts it down: the workers, if any,
    run what is queued. *)
Definition pool_shutdown (s : CacheManager) : CacheManager :=
  match thread_pool_ s with
  | Some pool =>
      let written :=
        match ThreadPool.workers_ pool with
        | O => disk s
        | S _ => foldl (λ dir t, write_file (fst t) (snd t) dir) (disk s)
                       (ThreadPool.tasks_ pool)
        end in
      set_disk written (set_pool (Some (ThreadPool.shutdown pool)) s)
  | None => s
  end.

(** *** Histories *)

Inductive op : Type :=
  | op_put (key : string) (d : MarketDataSeries) (now : Z)
  | op_get (key : string) (now : Z)
  | op_remove (key : string)
  | op_clear
  | op_cleanup_expired_entries (max_age now : Z)
  | op_preload_from_disk (now : Z)
  | op_evict_lru_item
  | op_pool_worker
  | op_pool_shutdown.

Definition exec (fuel : nat) (o : op) (s : CacheManager) : outcome unit :=
  match o with
  | op_put key d now => put fuel key d now s
  | op_get key now => discard (get key now s)
  | op_remove key => remove key s
  | op_clear => clear s
  | op_cleanup_expired_entries max_age now =>
      cleanup_expired_entries max_age now s
  | op_preload_from_disk now => preload_from_disk fuel now s
  | op_evict_lru_item => Returned () (evict_lru_item s)
  | op_pool_worker => Returned () (pool_worker s)
  | op_pool_shutdown => Returned () (pool_shutdown s)
  end.

(** The states of a cache manager: the one the constructor builds, and
    each state a call leaves behind. *)
Inductive reachable : CacheManager → Prop :=
  | reachable_new max_memory_mb thread_pool files metadata :
      reachable (new max_memory_mb thread_pool files metadata)
  | reachable_step s fuel o s' :
      reachable s → state_after (exec fuel o s) = Some s' → reachable s'.

(** A history: calls, each with the fuel for its loop.  [None] when one
    of them does not come back. *)
Fixpoint run (calls : list (nat * op)) (s : CacheManager)
  : option CacheManager :=
  match calls with
  | [] => Some s
  | (fuel, o) :: rest =>
      match state_after (exec fuel o s) with
      | Some s' => run rest s'
      | None => None
      end
  end.

(** *** Invariants *)

(** A function applied to the state a call leaves. *)
Definition map_state {A : Type} (f : CacheManager → CacheManager)
    (o : outcome A) : outcome A :=
  match o with
  | Returned a s => Returned a (f s)
  | Threw w s => Threw w (f s)
  | Blocked => Blocked
  | OutOfFuel => OutOfFuel
  end.

(** A body neither reads nor writes the bit of the mutex. *)
Definition mutex_blind {A : Type} (body : CacheManager → outcome A) : Prop :=
  ∀ b s, body (set_mutex b s) = map_state (set_mutex b) (body s).

(** The sum of [size_bytes] over the entries, as an integer. *)
Definition sum_size_bytes (m : gmap string CacheEntry) : Z :=
  map_fold (λ _ e acc, size_bytes e + acc) 0 m.

(** The recency list holds the cached keys, each once. *)
Definition recency_inv (s : CacheManager) : Prop :=
  NoDup (lru_list_ s) ∧ ∀ k, k ∈ lru_list_ s ↔ is_Some (cache_ s !! k).

(** The byte counter is the sum of the sizes, in [size_t] arithmetic. *)
Definition memory_inv (s : CacheManager) : Prop :=
  current_memory_bytes_ s = wrap (sum_size_bytes (cache_ s)).

Definition unlocked (s : CacheManager) : Prop := cache_mutex_ s = false.

Definition well_formed (s : CacheManager) : Prop :=
  recency_inv s ∧ memory_inv s ∧ unlocked s.

(** The recorded size of an entry is the estimate for its payload. *)
Definition sizes_inv (s : CacheManager) : Prop :=
  ∀ k e, cache_ s !! k = Some e →
         size_bytes e = estimate_memory_usage (data e).

(** [k] evictions in a row. *)
Definition evict_n (k : nat) (s : CacheManager) : CacheManager :=
  Nat.iter k evict_lru_item s.

(** The entries of [m] whose key is not among [keys]. *)
Definition without (keys : list string) (m : gmap string CacheEntry)
  : gmap string CacheEntry :=
  foldr delete m keys.

(** The counter is the sum of the sizes as integers, and it is within the
    budget. *)
Definition within_budget (s : CacheManager) : Prop :=
  current_memory_bytes_ s = sum_size_bytes (cache_ s) ∧
  current_memory_bytes_ s <= max_memory_bytes_ s.

(** The payload of a call of [put] and the budget are, together, a number
    a [size_t] can hold. *)
Definition payload_fits (budget : Z) (call : nat * op) : Prop :=
  match snd call with
  | op_put _ d _ => budget + estimate_memory_usage d < 2 ^ 64
  | _ => True
  end.

(** *** Sample data *)

Definition sample_point : MarketDataPoint :=
  mkPoint 1700000000 100 101 99 (201 # 2) 1000000.

Definition sample_series : MarketDataSeries :=
  mkSeries "AAPL" [sample_point; sample_point].

(** A payload of just under half a megabyte: two of them fit in a budget
    of one megabyte, which has no room left then for [sample_series]. *)
Definition large_series : MarketDataSeries :=
  mkSeries "MSFT" (replicate (Z.to_nat 10918) sample_point).

(** A history with two entries at its end: the constructor with a budget
    of one megabyte, no thread pool and an empty directory, then two calls
    of [put]. *)
Definition two_puts : list (nat * op) :=
  [(1%nat, op_put "AAPL" sample_series 5);
   (2%nat, op_put "MSFT" large_series 6)].

Definition two_puts_state : CacheManager :=
  default (new 1 None ∅ None) (run two_puts (new 1 None ∅ None)).

(** A cache manager that shares a pool of two workers, after one [put]:
    the write of the file is queued. *)
Definition pooled_put : list (nat * op) :=
  [(1%nat, op_put "AAPL" sample_series 5)].

Definition pooled_put_state : CacheManager :=
  default (new 1 (Some (ThreadPool.new 2 8)) ∅ None)
          (run pooled_put (new 1 (Some (ThreadPool.new 2 8)) ∅ None)).

End CacheManager.

(* ====================================================================== *)
(** * Proofs *)
(* ====================================================================== *)

Lemma wrap_small z : in_size_t z → wrap z = z.
Proof. unfold in_size_t, wrap. intros Hz. by apply Z.mod_small. Qed.

Lemma wrap_range z : in_size_t (wrap z).
Proof. unfold in_size_t, wrap. apply Z.mod_pos_bound. done. Qed.

Lemma small_in_size_t z : 0 <= z <= 2 ^ 63 + 2 ^ 63 - 1 → wrap z = z.
Proof. intros Hz. apply wrap_small. unfold in_size_t, SIZE_BITS. lia. Qed.

Module LockFreeQueueFacts.
Import LockFreeQueue.

Example next_power_of_2_5 : next_power_of_2 64 5 = Some 8.
Proof. reflexivity. Qed.

Example push_pop_3 :
  match new 64 host_2_20 3 with
  | Some q => fst (pop_n 3 (snd (push_all [10; 20; 30] q)))
  | None => []
  end = [Some 10; Some 20; Some 30].
Proof. vm_compute. reflexivity. Qed.

(** *** next_power_of_2 *)

Lemma shift_pow2 i : 0 <= i < 63 → wrap (Z.shiftl (2 ^ i) 1) = 2 ^ (i + 1).
Proof.
  intros Hi. rewrite Z.shiftl_mul_pow2 by lia.
  rewrite <- Z.pow_add_r by lia.
  apply wrap_small. split; [apply Z.pow_nonneg; lia|].
  apply Z.pow_lt_mono_r; unfold SIZE_BITS; lia.
Qed.

Lemma loop_stuck_at_zero fuel n :
  0 < n → next_power_of_2_loop fuel 0 n = None.
Proof.
  intros Hn. induction fuel as [|fuel IH]; [done|].
  simpl. destruct (Z.ltb_spec 0 n); [|lia]. exact IH.
Qed.

Lemma loop_total (k : nat) : ∀ i n fuel,
  0 <= i → i + Z.of_nat k = 63 → n <= 2 ^ 63 → (k < fuel)%nat →
  ∃ m, i <= m <= 63 ∧ next_power_of_2_loop fuel (2 ^ i) n = Some (2 ^ m) ∧
       n <= 2 ^ m ∧ (m = i ∨ 2 ^ (m - 1) < n).
Proof.
  induction k as [|k IH]; intros i n fuel Hi Hk Hn Hfuel.
  - destruct fuel as [|fuel]; [lia|]. simpl.
    assert (i = 63) as -> by lia.
    destruct (Z.ltb_spec (2 ^ 63) n); [lia|].
    exists 63. split; [lia|]. split; [done|]. split; [lia|]. by left.
  - destruct fuel as [|fuel]; [lia|]. simpl.
    destruct (Z.ltb_spec (2 ^ i) n) as [Hlt|Hge].
    + rewrite shift_pow2 by lia.
      destruct (IH (i + 1) n fuel) as (m & Hm & Hrun & Hle & Hmin);
        try lia.
      exists m. split; [lia|]. split; [done|]. split; [lia|].
      right. destruct Hmin as [->|?]; [|done].
      by replace (i + 1 - 1) with i by lia.
    + exists i. split; [lia|]. split; [done|]. split; [lia|]. by left.
Qed.

Lemma loop_returns_pow2 fuel : ∀ i n p,
  0 <= i <= 63 → next_power_of_2_loop fuel (2 ^ i) n = Some p →
  ∃ m, i <= m <= 63 ∧ p = 2 ^ m.
Proof.
  induction fuel as [|fuel IH]; intros i n p Hi Hrun; [done|].
  simpl in Hrun. destruct (Z.ltb_spec (2 ^ i) n) as [Hlt|Hge].
  - destruct (decide (i = 63)) as [->|Hne].
    + replace (wrap (Z.shiftl (2 ^ 63) 1)) with 0 in Hrun by reflexivity.
      rewrite loop_stuck_at_zero in Hrun; [done|].
      pose proof (Z.pow_pos_nonneg 2 63). lia.
    + rewrite shift_pow2 in Hrun by lia.
      destruct (IH (i + 1) n p ltac:(lia) Hrun) as (m & Hm & ->).
      exists m. split; [lia|done].
  - inversion Hrun; subst. exists i. split; [lia|done].
Qed.

Lemma loop_diverges (k : nat) : ∀ i n fuel,
  0 <= i → i + Z.of_nat k = 63 → 2 ^ 63 < n →
  next_power_of_2_loop fuel (2 ^ i) n = None.
Proof.
  induction k as [|k IH]; intros i n fuel Hi Hk Hn;
    (destruct fuel as [|fuel]; [done|]); simpl.
  - assert (i = 63) as -> by lia.
    destruct (Z.ltb_spec (2 ^ 63) n); [|lia].
    replace (wrap (Z.shiftl (2 ^ 63) 1)) with 0 by reflexivity.
    apply loop_stuck_at_zero. lia.
  - assert (2 ^ i < n) as Hlt.
    { eapply Z.le_lt_trans; [|exact Hn]. apply Z.pow_le_mono_r; lia. }
    destruct (Z.ltb_spec (2 ^ i) n); [|lia].
    rewrite shift_pow2 by lia. apply IH; lia.
Qed.

Lemma next_power_of_2_pow2 fuel n p :
  next_power_of_2 fuel n = Some p → ∃ m, 0 <= m <= 63 ∧ p = 2 ^ m.
Proof.
  unfold next_power_of_2. destruct (n <=? 1).
  - intros [= <-]. exists 0. split; [lia|done].
  - intros Hrun. by apply (loop_returns_pow2 fuel 0 n p).
Qed.

Lemma loop_returns_ge fuel : ∀ power n p,
  next_power_of_2_loop fuel power n = Some p → n <= p.
Proof.
  induction fuel as [|fuel IH]; intros power n p; [done|]. simpl.
  destruct (Z.ltb_spec power n); [apply IH|].
  intros [= <-]. lia.
Qed.

Lemma next_power_of_2_ge fuel n p :
  1 < n → next_power_of_2 fuel n = Some p → n <= p.
Proof.
  unfold next_power_of_2. destruct (Z.leb_spec n 1); [lia|].
  intros _. apply loop_returns_ge.
Qed.

Lemma next_power_of_2_smallest fuel n :
  (64 <= fuel)%nat → 0 <= n <= 2 ^ 63 →
  ∃ p, next_power_of_2 fuel n = Some p ∧ smallest_power_of_2_ge n p ∧
       1 <= p.
Proof.
  intros Hfuel Hn. unfold next_power_of_2.
  destruct (Z.leb_spec n 1) as [Hle|Hgt].
  - exists 1. split; [done|]. split; [|lia].
    split; [by exists 0|]. split; [done|].
    intros p' (m' & Hm' & ->) _.
    pose proof (Z.pow_pos_nonneg 2 m'). lia.
  - destruct (loop_total 63 0 n fuel) as (m & Hm & Hrun & Hle & Hmin);
      try lia.
    exists (2 ^ m). split; [done|].
    assert (0 < 2 ^ m) by (apply Z.pow_pos_nonneg; lia).
    split; [|lia].
    split; [exists m; split; [lia|done]|]. split; [done|].
    intros p' (m' & Hm' & ->) Hp'.
    apply Z.pow_le_mono_r; [lia|].
    destruct Hmin as [->|Hlt]; [lia|].
    assert (2 ^ (m - 1) < 2 ^ m') as Hpow by lia.
    apply Z.pow_lt_mono_r_iff in Hpow; lia.
Qed.

(** *** The slot protocol on one thread *)

Section Fifo.

Context {T : Type} `{Inhabited T}.
Implicit Types (q : LockFreeQueue T) (ws vs : list T).

Variables (c m : Z).
Hypothesis Hm : 0 <= m <= 63.
Hypothesis Hc : c = 2 ^ m.

Lemma capacity_bounds : 0 < c <= 2 ^ 63.
Proof using Hm Hc.
  subst c. split; [apply Z.pow_pos_nonneg; lia|].
  apply Z.pow_le_mono_r; lia.
Qed.

Lemma index_below_capacity (k : nat) :
  Z.of_nat k < c → Z.to_nat (Z.land (Z.of_nat k) (c - 1)) = k.
Proof using Hm Hc.
  intros Hk. subst c.
  replace (2 ^ m - 1) with (Z.ones m) by (rewrite Z.ones_equiv; lia).
  rewrite Z.land_ones by lia. rewrite Z.mod_small by lia. lia.
Qed.

Lemma try_push_filled ws q v :
  filled c ws q → Z.of_nat (length ws) < c →
  ∃ q', try_push v q = (true, q') ∧ filled c (ws ++ [v]) q'.
Proof using Hm Hc.
  intros (Hcap & Hmask & Hhead & Htail & Hpub & Hfree) Hlen.
  pose proof capacity_bounds as Hcb.
  destruct (Hfree (length ws)) as (nd & Hnd & Hseq); [lia|].
  unfold try_push. rewrite Hcap, Hmask, Hhead, Htail.
  rewrite Z.sub_0_r, small_in_size_t by lia.
  destruct (Z.leb_spec c (Z.of_nat (length ws))); [lia|].
  rewrite index_below_capacity by lia. rewrite Hnd, Hseq.
  rewrite Z.eqb_refl. simpl.
  rewrite small_in_size_t by lia.
  eexists. split; [reflexivity|].
  pose proof (lookup_lt_Some _ _ _ Hnd) as Hin.
  unfold filled. simpl. rewrite length_app. simpl.
  repeat (split; [first [done | lia]|]). split.
  - intros i w Hw.
    destruct (decide (i = length ws)) as [->|Hne].
    + rewrite list_lookup_middle in Hw by done. inversion Hw; subst.
      rewrite list_lookup_insert_eq by done.
      eexists. split; [done|]. simpl. split; [done|lia].
    + rewrite list_lookup_insert_ne by done.
      apply Hpub. rewrite lookup_app_l in Hw; [done|].
      apply lookup_lt_Some in Hw. rewrite length_app in Hw. simpl in Hw. lia.
  - intros i Hi. rewrite list_lookup_insert_ne by lia.
    apply Hfree. lia.
Qed.

Lemma push_all_filled vs : ∀ ws q,
  filled c ws q → Z.of_nat (length ws + length vs) <= c →
  ∃ q', push_all vs q = (replicate (length vs) true, q') ∧
        filled c (ws ++ vs) q'.
Proof using Hm Hc.
  induction vs as [|v vs IH]; intros ws q Hfilled Hlen.
  - exists q. rewrite app_nil_r. by split.
  - simpl in Hlen.
    destruct (try_push_filled ws q v Hfilled) as (q1 & Hpush & Hq1); [lia|].
    destruct (IH (ws ++ [v]) q1 Hq1) as (q2 & Hrest & Hq2).
    { rewrite length_app. simpl. lia. }
    exists q2. simpl. rewrite Hpush, Hrest.
    split; [done|]. by rewrite <- app_assoc in Hq2.
Qed.

Lemma filled_draining ws q : filled c ws q → draining c ws 0 q.
Proof.
  intros (Hcap & Hmask & Hhead & Htail & Hpub & _).
  unfold draining. repeat (split; [done|]). intros i w _. apply Hpub.
Qed.

Lemma try_pop_draining ws (j : nat) q w :
  draining c ws j q → Z.of_nat (length ws) <= c → ws !! j = Some w →
  ∃ q', try_pop q = (Some w, q') ∧ draining c ws (S j) q'.
Proof using Hm Hc.
  intros (Hcap & Hmask & Hhead & Htail & Hpub) Hlen Hw.
  pose proof capacity_bounds as Hcb.
  pose proof (lookup_lt_Some _ _ _ Hw) as Hj.
  destruct (Hpub j w) as (nd & Hnd & Hdata & Hseq); [lia|done|].
  unfold try_pop. rewrite Hcap, Hmask, Hhead, Htail.
  destruct (Z.leb_spec (Z.of_nat (length ws)) (Z.of_nat j)); [lia|].
  rewrite index_below_capacity by lia. rewrite Hnd, Hseq.
  rewrite small_in_size_t by lia.
  rewrite !Z.eqb_refl. simpl. rewrite Hdata.
  eexists. split; [reflexivity|].
  unfold draining. simpl.
  repeat (split; [first [done | lia]|]).
  intros i w' Hi Hw'. rewrite list_lookup_insert_ne by lia.
  apply Hpub; [lia|done].
Qed.

Lemma pop_n_draining (n : nat) : ∀ (j : nat) ws q,
  draining c ws j q → Z.of_nat (length ws) <= c →
  (j + n <= length ws)%nat →
  ∃ q', pop_n n q = (Some <$> take n (drop j ws), q') ∧
        draining c ws (j + n) q'.
Proof using Hm Hc.
  induction n as [|n IH]; intros j ws q Hdr Hlen Hn.
  - exists q. simpl. rewrite Nat.add_0_r. by split.
  - destruct (lookup_lt_is_Some_2 ws j) as [w Hw]; [lia|].
    destruct (try_pop_draining ws j q w Hdr Hlen Hw) as (q1 & Hpop & Hq1).
    destruct (IH (S j) ws q1 Hq1 Hlen) as (q2 & Hrest & Hq2); [lia|].
    exists q2. simpl. rewrite Hpop, Hrest.
    split; [|by replace (j + S n)%nat with (S j + n)%nat by lia].
    rewrite (drop_S _ _ _ Hw). done.
Qed.

End Fifo.

Lemma new_filled {T : Type} `{Inhabited T} fuel host C
    (q : LockFreeQueue T) :
  new fuel host C = Some q →
  ∃ m, 0 <= m <= 63 ∧ capacity q = 2 ^ m ∧ filled (2 ^ m) [] q.
Proof.
  unfold new. destruct (next_power_of_2 fuel C) as [p|] eqn:Hp; [|done].
  destruct (make_unique_Node host p); [|done].
  intros [= <-]. apply next_power_of_2_pow2 in Hp as (m & Hm & ->).
  exists m. split; [done|]. split; [done|].
  assert (0 < 2 ^ m <= 2 ^ 63) as Hcb by (by apply (capacity_bounds _ m)).
  unfold filled. simpl. split; [done|].
  split; [apply small_in_size_t; lia|]. repeat (split; [done|]).
  intros i Hi. eexists. unfold initial_buffer.
  rewrite list_lookup_fmap, lookup_seqZ_lt by lia. simpl. split; [done|].
  simpl. lia.
Qed.

Lemma step_capacity {T : Type} (q : LockFreeQueue T) (o : op T) :
  capacity (step q o) = capacity q.
Proof.
  destruct o as [v|]; simpl.
  - unfold try_push. repeat case_match; done.
  - unfold try_pop. repeat case_match; done.
Qed.

Lemma run_capacity {T : Type} (ops : list (op T)) : ∀ q : LockFreeQueue T,
  capacity (run ops q) = capacity q.
Proof.
  induction ops as [|o ops IH]; intros q; [done|].
  unfold run. simpl. fold (run ops (step q o)).
  by rewrite IH, step_capacity.
Qed.

(** *** FIFO order and capacity *)

(** C7.  On a freshly constructed queue, N pushes followed by N pops on one
    thread, with N at most the realized capacity, all succeed, and the pops
    deliver the pushed values in the order they were pushed. *)
Theorem fifo_push_then_pop {T : Type} `{Inhabited T} (fuel : nat)
    (host : Z → bool) (C : Z) (q : LockFreeQueue T) (vs : list T) :
  new fuel host C = Some q →
  Z.of_nat (length vs) <= capacity q →
  fst (push_all vs q) = replicate (length vs) true ∧
  fst (pop_n (length vs) (snd (push_all vs q))) = Some <$> vs.
Proof.
  intros Hnew Hlen.
  destruct (new_filled fuel host C q Hnew) as (m & Hm & Hcap & Hfilled).
  rewrite Hcap in Hlen.
  destruct (push_all_filled (2 ^ m) m Hm eq_refl vs [] q Hfilled)
    as (q1 & Hpush & Hq1); [simpl; lia|].
  rewrite Hpush. simpl. split; [done|].
  apply (filled_draining (2 ^ m)) in Hq1.
  destruct (pop_n_draining (2 ^ m) m Hm eq_refl (length vs) 0 vs q1 Hq1)
    as (q2 & Hpop & _); [lia|lia|].
  rewrite Hpop. simpl. by rewrite firstn_all.
Qed.

Lemma fifo_push_then_pop_witness :
  ∃ q : LockFreeQueue Z,
    new 64 host_2_20 5 = Some q ∧
    fst (push_all [7; 8; 9; 10; 11; 12; 13; 14] q) = replicate 8 true ∧
    fst (pop_n 8 (snd (push_all [7; 8; 9; 10; 11; 12; 13; 14] q)))
    = [Some 7; Some 8; Some 9; Some 10; Some 11; Some 12; Some 13; Some 14].
Proof.
  eexists. split; [reflexivity|].
  apply (fifo_push_then_pop 64 host_2_20 5 _
           [7; 8; 9; 10; 11; 12; 13; 14]);
    [reflexivity | vm_compute; discriminate].
Defined.

(** C8, as the code has it.  For every requested capacity C up to 2^63,
    [next_power_of_2] yields the smallest power of two that is at least
    C, and at least 1.  The constructor then allocates that many nodes.
    When the allocation returns, the constructor returns, [capacity()] is
    that power of two, and no sequence of pushes and pops changes it.
    When the allocation throws, so does the constructor, and no capacity
    is reported; this is so on every host for C above 2^59, where the
    size of the array in bytes is not a [size_t]. *)
Theorem capacity_smallest_power_of_2 {T : Type} `{Inhabited T}
    (fuel : nat) (host : Z → bool) (C : Z) :
  (64 <= fuel)%nat → 0 <= C <= 2 ^ 63 →
  ∃ p : Z,
    next_power_of_2 fuel C = Some p ∧
    smallest_power_of_2_ge C p ∧
    1 <= p ∧
    (if make_unique_Node host p
     then ∃ q : LockFreeQueue T,
            new fuel host C = Some q ∧
            capacity q = p ∧
            ∀ ops, capacity (run ops q) = p
     else new (T := T) fuel host C = None) ∧
    (2 ^ 59 < C → new (T := T) fuel host C = None).
Proof.
  intros Hfuel HC.
  destruct (next_power_of_2_smallest fuel C Hfuel HC) as (p & Hp & Hsm & H1).
  exists p. split; [done|]. split; [done|]. split; [done|].
  unfold new. rewrite Hp. split.
  - destruct (make_unique_Node host p); [|done].
    eexists. split; [reflexivity|]. split; [done|].
    intros ops. by rewrite run_capacity.
  - intros Hlarge. destruct Hsm as ((m & Hm & ->) & Hge & _).
    assert (59 < m) as Hexp by (apply (Z.pow_lt_mono_r_iff 2); lia).
    assert (2 ^ 60 <= 2 ^ m) as Hpow by (apply Z.pow_le_mono_r; lia).
    unfold make_unique_Node, sizeof_Node_min, SIZE_BITS.
    destruct (Z.ltb_spec (2 ^ m * 16) (2 ^ 64)); [lia|done].
Qed.

Lemma capacity_smallest_power_of_2_witness :
  ∃ p : Z,
    next_power_of_2 64 100 = Some p ∧
    smallest_power_of_2_ge 100 p ∧
    1 <= p ∧
    (if make_unique_Node host_2_20 p
     then ∃ q : LockFreeQueue Z,
            new 64 host_2_20 100 = Some q ∧
            capacity q = p ∧
            ∀ ops, capacity (run ops q) = p
     else new (T := Z) 64 host_2_20 100 = None) ∧
    (2 ^ 59 < 100 → new (T := Z) 64 host_2_20 100 = None).
Proof.
  apply (capacity_smallest_power_of_2 64 host_2_20 100);
    [lia | split; [lia | done]].
Defined.

(** The values the specification names, on a host with room for them. *)
Example capacity_of_0_1_5_100 :
  capacity <$> new (T := Z) 64 host_2_20 0 = Some 1 ∧
  capacity <$> new (T := Z) 64 host_2_20 1 = Some 1 ∧
  capacity <$> new (T := Z) 64 host_2_20 5 = Some 8 ∧
  capacity <$> new (T := Z) 64 host_2_20 100 = Some 128.
Proof. repeat split; reflexivity. Qed.

(** C8 as stated fails for large requests, on every host.  For the request
    2^63 + 1 the loop of [next_power_of_2] shifts [power] to 0 and goes on
    for ever.  For the request 2^63 the loop ends with 2^63, and the
    allocation of 2^63 nodes throws [std::bad_array_new_length].  In both
    cases no queue is constructed and no capacity is reported. *)
Lemma capacity_above_2_63_never_reported :
  in_size_t (2 ^ 63 + 1) ∧
  (¬ ∃ (fuel : nat) (host : Z → bool) (q : LockFreeQueue Z),
       new fuel host (2 ^ 63 + 1) = Some q) ∧
  ¬ ∃ (fuel : nat) (host : Z → bool) (q : LockFreeQueue Z),
      new fuel host (2 ^ 63) = Some q.
Proof.
  split; [done|]. split.
  - intros (fuel & host & q & Hnew). unfold new in Hnew.
    assert (next_power_of_2 fuel (2 ^ 63 + 1) = None) as Hnone.
    { unfold next_power_of_2. simpl (_ <=? _).
      apply (loop_diverges 63 0); lia. }
    by rewrite Hnone in Hnew.
  - intros (fuel & host & q & Hnew). unfold new in Hnew.
    destruct (next_power_of_2 fuel (2 ^ 63)) as [p|] eqn:Hp; [|done].
    assert (2 ^ 63 <= p) as Hge by (by apply (next_power_of_2_ge fuel)).
    unfold make_unique_Node, sizeof_Node_min, SIZE_BITS in Hnew.
    destruct (Z.ltb_spec (p * 16) (2 ^ 64)); [lia|done].
Qed.

(** *** Any interleaving of pushes and pops *)

Lemma mod_window c a x y :
  0 < c → a <= x < a + c → a <= y < a + c → x mod c = y mod c → x = y.
Proof.
  intros Hc Hx Hy Hmod.
  pose proof (Z.div_mod x c ltac:(lia)) as Hdx.
  pose proof (Z.div_mod y c ltac:(lia)) as Hdy.
  rewrite Hmod in Hdx.
  assert (x / c = y / c) as Hq by nia.
  rewrite Hq in Hdx. lia.
Qed.

Section Refinement.

Context {T : Type} `{Inhabited T}.
Implicit Types (q : LockFreeQueue T) (items : list T).

Variables (c m : Z).
Hypothesis Hm : 0 <= m <= 63.
Hypothesis Hc : c = 2 ^ m.

Lemma slot_of_position z :
  0 <= z → Z.to_nat (Z.land z (c - 1)) = Z.to_nat (z mod c).
Proof using Hm Hc.
  intros Hz. subst c.
  replace (2 ^ m - 1) with (Z.ones m) by (rewrite Z.ones_equiv; lia).
  by rewrite Z.land_ones by lia.
Qed.

Lemma slots_differ a x y :
  a <= x < a + c → a <= y < a + c → x ≠ y →
  Z.to_nat (x mod c) ≠ Z.to_nat (y mod c).
Proof using Hm Hc.
  intros Hx Hy Hne Heq. pose proof (capacity_bounds c m Hm Hc) as Hcb.
  pose proof (Z.mod_pos_bound x c ltac:(lia)).
  pose proof (Z.mod_pos_bound y c ltac:(lia)).
  apply Hne, (mod_window c a); [lia|done|done|lia].
Qed.

Lemma new_holds fuel host C q :
  new fuel host C = Some q → c = capacity q → holds c [] q.
Proof using Hm Hc.
  unfold new. destruct (next_power_of_2 fuel C) as [p|] eqn:Hp; [|done].
  destruct (make_unique_Node host p); [|done].
  intros [= <-]. simpl. intros ->.
  pose proof (capacity_bounds p m Hm Hc) as Hcb.
  unfold holds. simpl. split; [done|].
  split; [apply small_in_size_t; lia|]. split; [lia|]. split; [done|].
  split; [lia|]. split; [intros i w Hw; by rewrite lookup_nil in Hw|].
  intros z Hz. rewrite Z.mod_small by lia. eexists. unfold initial_buffer.
  rewrite list_lookup_fmap, lookup_seqZ_lt by lia. simpl.
  split; [done|]. simpl. lia.
Qed.

Lemma try_push_holds items q v :
  holds c items q → head_ q < 2 ^ 63 →
  if Z.of_nat (length items) <? c
  then ∃ q', try_push v q = (true, q') ∧ holds c (items ++ [v]) q' ∧
             head_ q' = head_ q + 1
  else try_push v q = (false, q).
Proof using Hm Hc.
  intros (Hcap & Hmask & Htail & Hhead & Hlen & Hpub & Hfree) Hbound.
  pose proof (capacity_bounds c m Hm Hc) as Hcb.
  unfold try_push. rewrite Hcap, Hmask.
  replace (head_ q - tail_ q) with (Z.of_nat (length items)) by lia.
  rewrite small_in_size_t by lia.
  destruct (Z.ltb_spec (Z.of_nat (length items)) c) as [Hroom|Hfull].
  - destruct (Z.leb_spec c (Z.of_nat (length items))); [lia|].
    destruct (Hfree (head_ q)) as (nd & Hnd & Hseq); [lia|].
    rewrite slot_of_position by lia. rewrite Hnd, Hseq, Z.eqb_refl. simpl.
    rewrite small_in_size_t by lia.
    eexists. split; [reflexivity|]. split; [|done].
    pose proof (lookup_lt_Some _ _ _ Hnd) as Hin.
    unfold holds. simpl. rewrite length_app. simpl.
    repeat (split; [first [done | lia]|]). split.
    + intros i w Hw. destruct (decide (i = length items)) as [->|Hne].
      * rewrite list_lookup_middle in Hw by done. inversion Hw; subst.
        replace (tail_ q + Z.of_nat (length items)) with (head_ q) by lia.
        rewrite list_lookup_insert_eq by done.
        eexists. split; [done|]. simpl. split; [done|lia].
      * assert (i < length items)%nat as Hi.
        { apply lookup_lt_Some in Hw. rewrite length_app in Hw.
          simpl in Hw. lia. }
        rewrite lookup_app_l in Hw by done.
        rewrite list_lookup_insert_ne; [by apply Hpub|].
        apply (slots_differ (tail_ q)); lia.
    + intros z Hz. rewrite list_lookup_insert_ne; [apply Hfree; lia|].
      apply (slots_differ (tail_ q)); lia.
  - by destruct (Z.leb_spec c (Z.of_nat (length items))); [|lia].
Qed.

Lemma try_pop_holds items q :
  holds c items q → head_ q < 2 ^ 63 →
  match items with
  | [] => try_pop q = (None, q)
  | x :: rest =>
      ∃ q', try_pop q = (Some x, q') ∧ holds c rest q' ∧ head_ q' = head_ q
  end.
Proof using Hm Hc.
  intros (Hcap & Hmask & Htail & Hhead & Hlen & Hpub & Hfree) Hbound.
  pose proof (capacity_bounds c m Hm Hc) as Hcb.
  unfold try_pop. destruct items as [|x rest]; simpl in *.
  - by destruct (Z.leb_spec (head_ q) (tail_ q)); [|lia].
  - destruct (Z.leb_spec (head_ q) (tail_ q)); [lia|].
    destruct (Hpub 0%nat x) as (nd & Hnd & Hdata & Hseq); [done|].
    rewrite Z.add_0_r in Hnd, Hseq.
    rewrite Hmask, slot_of_position by lia.
    rewrite Hnd, Hseq, Hcap. rewrite !small_in_size_t by lia.
    rewrite !Z.eqb_refl. simpl. rewrite Hdata.
    eexists. split; [reflexivity|]. split; [|done].
    pose proof (lookup_lt_Some _ _ _ Hnd) as Hin.
    unfold holds. simpl.
    repeat (split; [first [done | lia]|]). split.
    + intros i w Hw. destruct (Hpub (S i) w Hw) as (nd' & Hnd' & ? & ?).
      replace (tail_ q + 1 + Z.of_nat i) with (tail_ q + Z.of_nat (S i))
        by lia.
      rewrite list_lookup_insert_ne.
      * eexists. split; [done|]. split; [done|lia].
      * apply lookup_lt_Some in Hw. apply (slots_differ (tail_ q)); lia.
    + intros z Hz. destruct (decide (z = tail_ q + c)) as [->|Hne].
      * replace (tail_ q + c) with (tail_ q + 1 * c) by lia.
        rewrite Z_mod_plus_full, list_lookup_insert_eq by done.
        eexists. split; [done|]. simpl. lia.
      * rewrite list_lookup_insert_ne; [apply Hfree; lia|].
        apply (slots_differ (tail_ q)); lia.
Qed.

(** One call, against one step of the list. *)
Lemma step_result_holds items q o :
  holds c items q → head_ q < 2 ^ 63 →
  fst (step_result q o) = fst (fifo_step c items o) ∧
  holds c (snd (fifo_step c items o)) (snd (step_result q o)) ∧
  head_ (snd (step_result q o)) <= head_ q + 1.
Proof using Hm Hc.
  intros Hholds Hbound. destruct o as [v|]; simpl.
  - pose proof (try_push_holds items q v Hholds Hbound) as Hpush.
    destruct (Z.of_nat (length items) <? c).
    + destruct Hpush as (q' & -> & Hq' & Hhead). simpl.
      split; [done|]. split; [done|lia].
    + rewrite Hpush. simpl. split; [done|]. split; [done|lia].
  - pose proof (try_pop_holds items q Hholds Hbound) as Hpop.
    destruct items as [|x rest].
    + rewrite Hpop. simpl. split; [done|]. split; [done|lia].
    + destruct Hpop as (q' & -> & Hq' & Hhead). simpl.
      split; [done|]. split; [done|lia].
Qed.

Lemma results_holds ops : ∀ items q,
  holds c items q → head_ q + Z.of_nat (length ops) <= 2 ^ 63 →
  results ops q = fifo_results c items ops ∧
  holds c (fifo_run c items ops) (run ops q).
Proof using Hm Hc.
  induction ops as [|o ops IH]; intros items q Hholds Hbound; [done|].
  simpl in Hbound.
  destruct (step_result_holds items q o Hholds) as (Hres & Hnext & Hhead);
    [lia|].
  simpl. unfold run, fifo_run. simpl.
  destruct (step_result q o) as [r q'] eqn:Hstep.
  destruct (fifo_step c items o) as [r' items'] eqn:Hfifo.
  simpl in *. subst r'.
  destruct (IH items' q' Hnext) as [-> Hrun]; [lia|].
  split; [done|].
  assert (step q o = q') as ->; [|done].
  destruct o; simpl in *.
  - by destruct (try_push v q); inversion Hstep.
  - by destruct (try_pop q); inversion Hstep.
Qed.

End Refinement.

Lemma new_head {T : Type} `{Inhabited T} fuel host C
    (q : LockFreeQueue T) :
  new fuel host C = Some q → head_ q = 0.
Proof.
  unfold new. destruct (next_power_of_2 fuel C) as [p|]; [|done].
  destruct (make_unique_Node host p); [|done]. by intros [= <-].
Qed.

(** X1.  A constructed queue is a bounded FIFO list on one thread.  Whatever the
    order of the calls, as long as the counters stay below 2^63, each
    [try_push] reports true and appends exactly when fewer than
    [capacity()] values are held, and each [try_pop] reports the oldest
    value held, or false when none is. *)
Theorem queue_refines_bounded_fifo {T : Type} `{Inhabited T}
    (fuel : nat) (host : Z → bool) (C : Z) (q : LockFreeQueue T)
    (ops : list (op T)) :
  new fuel host C = Some q →
  Z.of_nat (length ops) <= 2 ^ 63 →
  results ops q = fifo_results (capacity q) [] ops.
Proof.
  intros Hnew Hlen.
  destruct (new_filled fuel host C q Hnew) as (m & Hm & Hcap & _).
  pose proof (new_holds (2 ^ m) m Hm eq_refl fuel host C q Hnew
                (eq_sym Hcap)) as Hholds.
  rewrite Hcap.
  apply (results_holds (2 ^ m) m Hm eq_refl ops [] q Hholds).
  rewrite (new_head fuel host C q Hnew). lia.
Qed.

Lemma queue_refines_bounded_fifo_witness :
  ∃ q : LockFreeQueue Z,
    new 64 host_2_20 2 = Some q ∧
    results [Push 1; Push 2; Push 3; Pop; Push 4; Pop; Pop; Pop] q
    = [pushed true; pushed true; pushed false; popped (Some 1);
       pushed true; popped (Some 2); popped (Some 4); popped None].
Proof.
  eexists. split; [reflexivity|].
  rewrite (queue_refines_bounded_fifo 64 host_2_20 2 _
             [Push 1; Push 2; Push 3; Pop; Push 4; Pop; Pop; Pop]);
    [reflexivity | reflexivity | vm_compute; discriminate].
Defined.

(** X2.  [size()], [empty()] and [full()] of a constructed queue, after any
    calls on one thread with the counters below 2^63, are those of the
    list it stands for: the number of values held, whether there is none,
    and whether there are [capacity()] of them. *)
Theorem queue_observers_match_fifo {T : Type} `{Inhabited T}
    (fuel : nat) (host : Z → bool) (C : Z) (q : LockFreeQueue T)
    (ops : list (op T)) :
  new fuel host C = Some q →
  Z.of_nat (length ops) <= 2 ^ 63 →
  let items := fifo_run (capacity q) [] ops in
  size (run ops q) = Z.of_nat (length items) ∧
  Z.of_nat (length items) <= capacity q ∧
  (empty (run ops q) = true ↔ items = []) ∧
  (full (run ops q) = true ↔ Z.of_nat (length items) = capacity q).
Proof.
  intros Hnew Hlen items.
  destruct (new_filled fuel host C q Hnew) as (m & Hm & Hcap & _).
  pose proof (new_holds (2 ^ m) m Hm eq_refl fuel host C q Hnew
                (eq_sym Hcap)) as Hholds.
  destruct (results_holds (2 ^ m) m Hm eq_refl ops [] q Hholds)
    as [_ Hrun].
  { rewrite (new_head fuel host C q Hnew). lia. }
  subst items. rewrite Hcap.
  destruct Hrun as (Hcap' & _ & Htail & Hhead & Hle & _).
  pose proof (capacity_bounds (2 ^ m) m Hm eq_refl) as Hcb.
  set (items := fifo_run (2 ^ m) [] ops) in *.
  assert (size (run ops q) = Z.of_nat (length items)) as Hsize.
  { unfold size. rewrite Hhead.
    replace (tail_ (run ops q) + Z.of_nat (length items)
             - tail_ (run ops q)) with (Z.of_nat (length items)) by lia.
    apply small_in_size_t. lia. }
  split; [done|]. split; [done|]. split.
  - unfold empty. rewrite Z.leb_le, Hhead.
    destruct items; simpl; split; intros; try done; lia.
  - unfold full. fold (size (run ops q)). rewrite Hsize, Hcap', Z.leb_le.
    lia.
Qed.

Lemma queue_observers_match_fifo_witness :
  ∃ q : LockFreeQueue Z,
    new 64 host_2_20 2 = Some q ∧
    let items := fifo_run (capacity q) [] [Push 1; Push 2; Push 3; Pop] in
    size (run [Push 1; Push 2; Push 3; Pop] q) = Z.of_nat (length items) ∧
    Z.of_nat (length items) <= capacity q ∧
    (empty (run [Push 1; Push 2; Push 3; Pop] q) = true ↔ items = []) ∧
    (full (run [Push 1; Push 2; Push 3; Pop] q) = true
     ↔ Z.of_nat (length items) = capacity q).
Proof.
  eexists. split; [reflexivity|].
  apply (queue_observers_match_fifo 64 host_2_20 2 _
           [Push 1; Push 2; Push 3; Pop]);
    [reflexivity | vm_compute; discriminate].
Defined.

End LockFreeQueueFacts.

(* ---------------------------------------------------------------------- *)

Module MemoryPoolFacts.
Import MemoryPool.

Lemma rejected_not_valid ptr p :
  rejected ptr p → ptr ≠ 0 → is_valid_pointer ptr p = false.
Proof.
  intros [->|Hrej] Hnz; [done|].
  unfold is_valid_pointer. destruct (Z.eqb_spec ptr 0); [done|].
  destruct (existsb (in_chunk ptr p) (chunks_ p)) eqn:Hex; [|done].
  apply existsb_exists in Hex as (c & Hin & Hc).
  apply list_elem_of_In in Hin. unfold in_chunk in Hc.
  apply andb_prop in Hc as [Hrange Hoff].
  apply andb_prop in Hrange as [Hlo Hhi].
  destruct (Hrej c Hin) as [?|[?|?]]; lia.
Qed.

(** The null pointer, and a pointer that is at a block's data offset in no
    chunk, are refused; so is any pointer outside the one chunk of a pool
    that has not grown. *)
Lemma null_rejected p : rejected 0 p.
Proof. by left. Qed.

Lemma misaligned_rejected ptr p :
  (∀ c, c ∈ chunks_ p →
     (ptr - chunk_start c) mod block_size_ p ≠ offsetof_Block_data) →
  rejected ptr p.
Proof. intros Hmis. right. intros c Hc. right. right. by apply Hmis. Qed.

Lemma outside_single_chunk_rejected ptr p c :
  chunks_ p = [c] →
  chunk_bytes c = wrap (total_blocks_ p * block_size_ p) →
  ¬ in_owned_chunk ptr p →
  rejected ptr p.
Proof.
  intros Hchunks Hbytes Hout. right. intros c' Hc'.
  rewrite Hchunks in Hc'. apply list_elem_of_singleton in Hc' as ->.
  destruct (Z.lt_ge_cases ptr (chunk_start c)) as [?|Hlo]; [by left|].
  right. left. rewrite <- Hbytes.
  destruct (Z.le_gt_cases (chunk_start c + chunk_bytes c) ptr); [done|].
  exfalso. apply Hout. exists c. rewrite Hchunks.
  split; [by apply list_elem_of_singleton|lia].
Qed.

(** C3, as the code has it.  A pointer that is null, or that for every
    chunk lies before its start, or [total_blocks_ * block_size_] bytes or
    more past its start, or at an offset that is not the data offset of a
    block, is ignored by [deallocate]: the pool, and with it
    [allocated_blocks()] and the free list, stay as they were. *)
Theorem deallocate_rejected_is_noop (ptr : Z) (p : MemoryPool) :
  rejected ptr p →
  deallocate ptr p = p ∧
  allocated_blocks (deallocate ptr p) = allocated_blocks p ∧
  free_list (deallocate ptr p) = free_list p.
Proof.
  intros Hrej.
  assert (deallocate ptr p = p) as ->; [|done].
  unfold deallocate. destruct (Z.eqb_spec ptr 0) as [|Hnz]; [done|].
  by rewrite (rejected_not_valid ptr p Hrej Hnz).
Qed.

Lemma deallocate_rejected_is_noop_witness :
  ∃ p, new 4096 4 5 = Some p ∧
       deallocate 4201 p = p ∧
       allocated_blocks (deallocate 4201 p) = allocated_blocks p ∧
       free_list (deallocate 4201 p) = free_list p.
Proof.
  eexists. split; [reflexivity|].
  apply (deallocate_rejected_is_noop 4201).
  apply misaligned_rejected. intros c Hc.
  apply list_elem_of_singleton in Hc as ->. vm_compute. discriminate.
Defined.

(** C3 as stated fails.  In the pool [MemoryPool(4, 5)], on which
    [allocate()] has never been called, 4200 is the data address of the
    block at the head of the free list.  [deallocate(4200)] accepts it:
    the counter goes from 0 to 2^64 - 1 and the block is linked to
    itself. *)
Lemma deallocate_accepts_free_block :
  ∃ p, new 4096 4 5 = Some p ∧
       free_list_ p + offsetof_Block_data = 4200 ∧
       allocated_blocks p = 0 ∧
       allocated_blocks (deallocate 4200 p) = 2 ^ 64 - 1 ∧
       free_list (deallocate 4200 p) ≠ free_list p.
Proof.
  eexists. split; [reflexivity|]. repeat (split; [reflexivity|]).
  intros Heq. apply (f_equal (λ fl, snd fl !! 4192)) in Heq.
  vm_compute in Heq. discriminate.
Qed.

(** A block linked to itself: the walk of [free_blocks()] has no end. *)
Lemma free_blocks_self_loop p block :
  block ≠ 0 → next_ p !! block = Some block →
  ∀ fuel count, free_blocks_from fuel block count p = None.
Proof.
  intros Hnz Hloop. induction fuel as [|fuel IH]; intros count; [done|].
  simpl. destruct (Z.eqb_spec block 0); [done|].
  rewrite Hloop. simpl. apply IH.
Qed.

Lemma free_blocks_after_double_free :
  ∃ p, new 4096 4 5 = Some p ∧
       free_blocks 6 p = Some 5 ∧
       ∀ fuel, free_blocks fuel (deallocate 4200 p) = None.
Proof.
  eexists. split; [reflexivity|]. split; [reflexivity|].
  intros fuel. apply (free_blocks_self_loop _ 4192); [done|reflexivity].
Qed.

(** The range test takes [total_blocks_ * block_size_] bytes for every
    chunk.  Once the pool has grown, an address past the end of the first
    chunk, in no chunk and never handed out, is accepted too. *)
Lemma deallocate_accepts_pointer_past_chunk :
  ∃ p0 p1 p2 a b,
    new 4096 4 1 = Some p0 ∧ allocate 0 p0 = (a, p1) ∧
    allocate 8192 p1 = (b, p2) ∧
    ¬ in_owned_chunk 4128 p2 ∧ a ≠ 4128 ∧ b ≠ 4128 ∧
    allocated_blocks p2 = 2 ∧
    allocated_blocks (deallocate 4128 p2) = 1.
Proof.
  do 5 eexists. do 3 (split; [reflexivity|]).
  split; [|by vm_compute].
  intros (c & Hc & Hr). vm_compute in Hc.
  apply list_elem_of_In in Hc. simpl in Hc.
  destruct Hc as [<-|[<-|[]]]; simpl in Hr; lia.
Qed.

(** *** The free list as a chain through memory *)

Lemma chain_insert_notin next b x : ∀ l head,
  b ∉ l → chain next head l → chain (<[b := x]> next) head l.
Proof.
  induction l as [|b' l IH]; intros head Hnotin; [done|].
  apply not_elem_of_cons in Hnotin as [Hne Hl].
  intros (-> & Hnz & n & Hn & Hrest). simpl.
  split; [done|]. split; [done|]. exists n.
  rewrite lookup_insert_ne by done. split; [done|]. by apply IH.
Qed.

Lemma chain_push next head l b :
  chain next head l → b ∉ l → b ≠ 0 →
  chain (<[b := head]> next) b (b :: l).
Proof.
  intros Hchain Hnotin Hnz. simpl. split; [done|]. split; [done|].
  exists head. rewrite lookup_insert_eq. split; [done|].
  by apply chain_insert_notin.
Qed.

Lemma chain_null next head l : chain next head l → (head = 0 ↔ l = []).
Proof.
  destruct l as [|b l]; simpl; [by intros ->|].
  intros (-> & Hnz & _). split; [done|discriminate].
Qed.

(** The walk of [free_blocks()] along a chain counts its blocks. *)
Lemma free_blocks_from_chain p : ∀ l head count (fuel : nat),
  chain (next_ p) head l → (length l < fuel)%nat →
  0 <= count → count + Z.of_nat (length l) < 2 ^ 64 →
  free_blocks_from fuel head count p = Some (count + Z.of_nat (length l)).
Proof.
  induction l as [|b l IH]; intros head count fuel Hchain Hfuel Hcount Hmax;
    (destruct fuel as [|fuel]; [simpl in Hfuel; lia|]); simpl in *.
  - subst head. simpl. f_equal. lia.
  - destruct Hchain as (-> & Hnz & n & Hn & Hrest).
    destruct (Z.eqb_spec b 0); [done|]. rewrite Hn. simpl.
    rewrite small_in_size_t by lia.
    rewrite (IH n (count + 1) fuel Hrest); [f_equal; lia|lia|lia|lia].
Qed.

(** *** expand_pool *)

Lemma elem_of_blocks_from bs (n : nat) : ∀ ptr x,
  x ∈ blocks_from ptr bs n ↔
  ∃ i : Z, 0 <= i < Z.of_nat n ∧ x = ptr + i * bs.
Proof.
  induction n as [|n IH]; intros ptr x; simpl.
  - split; [by intros ?%not_elem_of_nil|]. intros (i & ? & _). lia.
  - rewrite elem_of_cons, IH. split.
    + intros [->|(i & Hi & ->)].
      * exists 0. split; lia.
      * exists (i + 1). split; lia.
    + intros (i & Hi & ->). destruct (decide (i = 0)) as [->|Hne].
      * left. lia.
      * right. exists (i - 1). split; lia.
Qed.

Lemma blocks_from_NoDup bs (n : nat) : ∀ ptr,
  0 < bs → NoDup (blocks_from ptr bs n).
Proof.
  induction n as [|n IH]; intros ptr Hbs; simpl; [apply NoDup_nil_2|].
  apply NoDup_cons. split; [|by apply IH].
  rewrite elem_of_blocks_from. intros (i & Hi & Heq). nia.
Qed.

Lemma blocks_from_length ptr bs n : length (blocks_from ptr bs n) = n.
Proof.
  revert ptr. induction n as [|n IH]; intros ptr; simpl; [done|].
  by rewrite IH.
Qed.

Lemma init_blocks_fields (n : nat) : ∀ ptr p,
  block_size_ (init_blocks n ptr p) = block_size_ p ∧
  chunks_ (init_blocks n ptr p) = chunks_ p ∧
  total_blocks_ (init_blocks n ptr p) = total_blocks_ p ∧
  allocated_blocks_ (init_blocks n ptr p) = allocated_blocks_ p.
Proof.
  induction n as [|n IH]; intros ptr p; [done|]. simpl.
  destruct (IH (ptr + block_size_ p) (push_free ptr p)) as (-> & -> & -> & ->).
  done.
Qed.

Lemma init_blocks_chain (n : nat) : ∀ ptr p free,
  chain (next_ p) (free_list_ p) free →
  NoDup (blocks_from ptr (block_size_ p) n ++ free) →
  (∀ b, b ∈ blocks_from ptr (block_size_ p) n → b ≠ 0) →
  chain (next_ (init_blocks n ptr p)) (free_list_ (init_blocks n ptr p))
        (reverse (blocks_from ptr (block_size_ p) n) ++ free).
Proof.
  induction n as [|n IH]; intros ptr p free Hchain Hnd Hnz; [done|].
  simpl in *. apply NoDup_cons in Hnd as [Hnotin Hnd].
  rewrite elem_of_app in Hnotin.
  rewrite reverse_cons, <- app_assoc. simpl.
  apply (IH (ptr + block_size_ p) (push_free ptr p) (ptr :: free)).
  - simpl. apply chain_push; [done|tauto|].
    apply Hnz. by left.
  - simpl. apply NoDup_app in Hnd as (Hnd1 & Hdisj & Hnd2).
    apply NoDup_app. split; [done|]. split.
    + intros x Hx [->|Hfree]%elem_of_cons; [tauto|]. by apply (Hdisj x).
    + apply NoDup_cons. split; [tauto|done].
  - intros b Hb. apply Hnz. by right.
Qed.

Lemma slot_extend p p' b :
  slot p b → block_size_ p' = block_size_ p →
  (∀ c, c ∈ chunks_ p → c ∈ chunks_ p') → slot p' b.
Proof.
  intros (c & i & Hc & Hi & Hb & Hroom) Hbs Hchunks.
  exists c, i. rewrite Hbs. split; [by apply Hchunks|done].
Qed.

(** A slot of one of the chunks lies in the bytes of that chunk. *)
Lemma slot_in_chunk p b :
  0 < block_size_ p → slot p b →
  ∃ c, c ∈ chunks_ p ∧
       chunk_start c <= b ∧ b + block_size_ p <= chunk_start c + chunk_bytes c.
Proof.
  intros Hbs (c & i & Hc & Hi & -> & Hroom). exists c.
  split; [done|]. nia.
Qed.

Lemma expand_pool_ok p free out chunk n :
  pool_ok p free out → fresh_chunk p chunk n →
  pool_ok (expand_pool chunk n p)
          (reverse (blocks_from chunk (block_size_ p) (Z.to_nat n)) ++ free)
          out.
Proof.
  intros (Hbs & Hchain & Hnd & Hdisj & Hfree & Hout & Hchunks & Hmax
          & Htotal & Halloc) (Hchunk & Hn & Hgrow & Hfresh).
  unfold offsetof_Block_data in *.
  set (bs := block_size_ p) in *.
  set (new_blocks := blocks_from chunk bs (Z.to_nat n)).
  assert (0 <= total_blocks_ p) as Htot0 by lia.
  assert (∀ b, b ∈ new_blocks →
               ∃ i, 0 <= i < n ∧ b = chunk + i * bs) as Hnew.
  { intros b Hb. apply elem_of_blocks_from in Hb as (i & Hi & ->).
    exists i. split; [lia|done]. }
  assert (∀ b, b ∈ new_blocks → ¬ slot p b) as Hnotold.
  { intros b Hb Hslot. destruct (Hnew b Hb) as (i & Hi & ->).
    apply slot_in_chunk in Hslot as (c & Hc & Hlo & Hhi); [|fold bs; lia].
    fold bs in Hhi. destruct (Hfresh c Hc); nia. }
  destruct (init_blocks_fields (Z.to_nat n) chunk p) as (Ef & Ec & Et & Ea).
  assert (wrap (bs * n) = bs * n) as Hwrap1.
  { apply wrap_small. unfold in_size_t, SIZE_BITS. nia. }
  assert (wrap (total_blocks_ p + n) = total_blocks_ p + n) as Hwrap2.
  { apply wrap_small. unfold in_size_t, SIZE_BITS. nia. }
  unfold pool_ok, expand_pool. simpl. rewrite Ef, Ec, Et, Ea.
  fold bs. rewrite Hwrap1, Hwrap2.
  split; [done|]. split.
  { apply init_blocks_chain; fold bs; fold new_blocks; [done| |].
    - apply NoDup_app. split; [apply blocks_from_NoDup; lia|].
      split; [|done]. intros b Hb Hin. by apply (Hnotold b Hb), Hfree.
    - intros b Hb. destruct (Hnew b Hb) as (i & Hi & ->). nia. }
  split.
  { apply NoDup_app.
    split; [rewrite reverse_Permutation; apply blocks_from_NoDup; lia|].
    split; [|done]. intros b Hb Hin. rewrite elem_of_reverse in Hb.
    by apply (Hnotold b Hb), Hfree. }
  split.
  { intros b [Hb|Hb]%elem_of_app Hin; [|by apply (Hdisj b)].
    rewrite elem_of_reverse in Hb. apply (Hnotold b Hb).
    pose proof (Hout _ Hin) as Hs. unfold offsetof_Block_data in Hs.
    by replace (b + 8 - 8) with b in Hs by lia. }
  assert (∀ b, slot p b →
            slot {| block_size_ := bs;
                    chunks_ := chunks_ p ++ [mkChunk chunk (bs * n)];
                    free_list_ := free_list_ (init_blocks (Z.to_nat n) chunk p);
                    total_blocks_ := total_blocks_ p + n;
                    allocated_blocks_ := allocated_blocks_ p;
                    next_ := next_ (init_blocks (Z.to_nat n) chunk p) |} b)
    as Hkeep.
  { intros b Hb. apply (slot_extend p); [done|done|]. simpl.
    intros c Hc. apply elem_of_app. by left. }
  split.
  { intros b [Hb|Hb]%elem_of_app; [|by apply Hkeep, Hfree].
    rewrite elem_of_reverse in Hb. destruct (Hnew b Hb) as (i & Hi & ->).
    exists (mkChunk chunk (bs * n)), i. simpl.
    split; [apply elem_of_app; right; by apply list_elem_of_singleton|].
    split; [lia|]. split; [done|nia]. }
  split; [intros ptr Hptr; by apply Hkeep, Hout|].
  split.
  { intros c [Hc|Hc%list_elem_of_singleton]%elem_of_app.
    - destruct (Hchunks c Hc). split; [done|nia].
    - subst c. simpl. split; [done|nia]. }
  split; [done|]. split; [|done].
  rewrite length_app, length_reverse. unfold new_blocks.
  rewrite blocks_from_length. lia.
Qed.

(** *** Pointers the pool accepts *)

Lemma slot_valid_pointer p free out b :
  pool_ok p free out → slot p b →
  b ≠ 0 ∧ b + offsetof_Block_data ≠ 0 ∧
  is_valid_pointer (b + offsetof_Block_data) p = true ∧
  in_owned_chunk (b + offsetof_Block_data) p.
Proof.
  intros (Hbs & _ & _ & _ & _ & _ & Hchunks & Hmax & Htotal & _)
         (c & i & Hc & Hi & -> & Hroom).
  unfold offsetof_Block_data in *.
  destruct (Hchunks c Hc) as [Hstart Hbytes].
  set (bs := block_size_ p) in *.
  assert (0 <= total_blocks_ p) by lia.
  assert (0 <= i * bs) by nia.
  split; [lia|]. split; [lia|]. split.
  - unfold is_valid_pointer.
    destruct (Z.eqb_spec (chunk_start c + i * bs + 8) 0); [lia|].
    apply existsb_exists. exists c. split; [by apply list_elem_of_In|].
    unfold in_chunk. fold bs.
    rewrite wrap_small by (unfold in_size_t, SIZE_BITS; nia).
    apply andb_true_intro. split; [apply andb_true_intro; split|].
    + apply Z.leb_le. lia.
    + apply Z.ltb_lt. nia.
    + apply Z.eqb_eq.
      replace (chunk_start c + i * bs + 8 - chunk_start c) with (8 + i * bs)
        by lia.
      rewrite Z_mod_plus_full. unfold offsetof_Block_data.
      apply Z.mod_small. lia.
  - exists c. split; [done|]. nia.
Qed.

(** *** allocate and deallocate on a pool in proper use *)

Lemma pop_ok p b rest out :
  pool_ok p (b :: rest) out →
  (b + offsetof_Block_data ∉ out) ∧
  pool_ok {| block_size_ := block_size_ p;
             chunks_ := chunks_ p;
             free_list_ := default 0 (next_ p !! b);
             total_blocks_ := total_blocks_ p;
             allocated_blocks_ := wrap (allocated_blocks_ p + 1);
             next_ := next_ p |}
          rest ({[b + offsetof_Block_data]} ∪ out).
Proof.
  intros Hok. pose proof Hok as
    (Hbs & Hchain & Hnd & Hdisj & Hfree & Hout & Hchunks & Hmax
     & Htotal & Halloc).
  simpl in Hchain. destruct Hchain as (Hhead & Hnz & n & Hn & Hrest).
  apply NoDup_cons in Hnd as [Hnotin Hnd].
  assert (b + offsetof_Block_data ∉ out) as Hnew.
  { apply Hdisj. by left. }
  split; [done|].
  assert (size ({[b + offsetof_Block_data]} ∪ out) = S (size out)) as Hsize.
  { rewrite size_union by (by apply disjoint_singleton_l).
    by rewrite size_singleton. }
  unfold pool_ok. simpl. rewrite Hn, Hsize. simpl.
  unfold offsetof_Block_data in *.
  split; [done|]. split; [done|]. split; [done|]. split.
  { intros x Hx [Heq%elem_of_singleton|Hin]%elem_of_union.
    - assert (x = b) as -> by lia. done.
    - apply (Hdisj x); [by right|done]. }
  split; [intros x Hx; apply Hfree; by right|]. split.
  { intros ptr [->%elem_of_singleton|Hin]%elem_of_union; [|by apply Hout].
    replace (b + 8 - 8) with b by lia. apply Hfree. by left. }
  split; [done|]. split; [done|]. simpl in Htotal. split; [lia|].
  rewrite Halloc. rewrite wrap_small; [lia|].
  unfold in_size_t, SIZE_BITS. nia.
Qed.

Lemma allocate_ok p free out chunk ptr p' :
  pool_ok p free out →
  (free_list_ p = 0 → fresh_chunk p chunk (Z.max 1 (total_blocks_ p / 2))) →
  allocate chunk p = (ptr, p') →
  (ptr ∉ out) ∧
  ∃ b free', ptr = b + offsetof_Block_data ∧
    pool_ok p' free' ({[ptr]} ∪ out) ∧
    (free_list_ p ≠ 0 → free = b :: free' ∧ next_ p' = next_ p ∧
                         chunks_ p' = chunks_ p ∧
                         total_blocks_ p' = total_blocks_ p) ∧
    (free_list_ p = 0 →
     total_blocks_ p' = total_blocks_ p + Z.max 1 (total_blocks_ p / 2) ∧
     Z.of_nat (length free')
     = Z.max 1 (total_blocks_ p / 2) - 1).
Proof.
  intros Hok Hfresh. unfold allocate.
  destruct (Z.eqb_spec (free_list_ p) 0) as [Hnull|Hhead].
  - specialize (Hfresh Hnull).
    pose proof Hok as (_ & Hchain & _). apply chain_null in Hchain.
    pose proof Hnull as Hempty. apply Hchain in Hempty as ->.
    pose proof (expand_pool_ok p [] out chunk _ Hok Hfresh) as Hok1.
    rewrite app_nil_r in Hok1.
    set (n := Z.max 1 (total_blocks_ p / 2)) in *.
    set (p1 := expand_pool chunk n p) in *.
    destruct (reverse (blocks_from chunk (block_size_ p) (Z.to_nat n)))
      as [|b rest] eqn:Hblocks.
    { apply (f_equal length) in Hblocks.
      rewrite length_reverse, blocks_from_length in Hblocks.
      simpl in Hblocks. lia. }
    pose proof Hok1 as (_ & (Hb & _) & _). simpl in Hb.
    intros [= <- <-]. rewrite Hb.
    destruct (pop_ok p1 b rest out Hok1) as [Hnew Hok'].
    split; [done|]. exists b, rest. split; [done|]. split; [done|].
    split; [intros Hne; congruence|]. intros _. split.
    + simpl. destruct (init_blocks_fields (Z.to_nat n) chunk p)
        as (_ & _ & -> & _).
      apply wrap_small. destruct Hfresh as (_ & _ & Hgrow & _).
      pose proof Hok as (Hbs & _). unfold offsetof_Block_data in Hbs.
      pose proof Hok as (_ & _ & _ & _ & _ & _ & _ & _ & Htot & _).
      unfold in_size_t, SIZE_BITS. nia.
    + apply (f_equal length) in Hblocks.
      rewrite length_reverse, blocks_from_length in Hblocks.
      simpl in Hblocks. lia.
  - pose proof Hok as (_ & Hchain & _).
    destruct free as [|b rest]; [by apply chain_null in Hchain as [_ ?]; tauto|].
    simpl in Hchain. destruct Hchain as (Hb & _).
    intros [= <- <-]. rewrite Hb.
    destruct (pop_ok p b rest out Hok) as [Hnew Hok'].
    split; [done|]. exists b, rest. split; [done|]. split; [done|].
    split; [done|]. intros Hnull. congruence.
Qed.

Lemma deallocate_ok p free out ptr :
  pool_ok p free out → ptr ∈ out →
  pool_ok (deallocate ptr p) ((ptr - offsetof_Block_data) :: free)
          (out ∖ {[ptr]}).
Proof.
  intros Hok Hin. pose proof Hok as
    (Hbs & Hchain & Hnd & Hdisj & Hfree & Hout & Hchunks & Hmax
     & Htotal & Halloc).
  destruct (slot_valid_pointer p free out _ Hok (Hout ptr Hin))
    as (Hbnz & Hpnz & Hvalid & _).
  unfold offsetof_Block_data in *.
  replace (ptr - 8 + 8) with ptr in * by lia.
  assert (size (out ∖ {[ptr]}) = (size out - 1)%nat ∧ (1 <= size out)%nat)
    as [Hsize Hpos].
  { rewrite size_difference by (by apply singleton_subseteq_l).
    rewrite size_singleton.
    split; [done|]. assert (size out ≠ 0%nat); [|lia].
    apply size_non_empty_iff. intros Hempty.
    apply (not_elem_of_empty (C := gset Z) ptr). by rewrite <- Hempty. }
  assert (ptr - 8 ∉ free) as Hnotin.
  { intros Hf. apply (Hdisj _ Hf). by replace (ptr - 8 + 8) with ptr by lia. }
  unfold deallocate. destruct (Z.eqb_spec ptr 0); [lia|].
  rewrite Hvalid. simpl. unfold pool_ok. simpl. rewrite Hsize.
  unfold offsetof_Block_data.
  split; [done|]. split.
  { split; [done|]. split; [done|]. exists (free_list_ p).
    rewrite lookup_insert_eq. split; [done|]. by apply chain_insert_notin. }
  split; [by apply NoDup_cons|]. split.
  { intros b [->|Hb]%elem_of_cons.
    - replace (ptr - 8 + 8) with ptr by lia.
      intros [_ Hne]%elem_of_difference. apply Hne.
      by apply elem_of_singleton.
    - intros [Hin' _]%elem_of_difference. by apply (Hdisj b). }
  split; [intros b [->|Hb]%elem_of_cons; [by apply Hout|by apply Hfree]|].
  split; [intros x [Hx _]%elem_of_difference; by apply Hout|].
  split; [done|]. split; [done|]. split; [lia|].
  rewrite Halloc. rewrite wrap_small; [lia|].
  unfold in_size_t, SIZE_BITS. nia.
Qed.

(** *** The constructor *)

Lemma new_block_size chunk block_size initial_blocks p :
  new chunk block_size initial_blocks = Some p →
  0 < block_size <= 2 ^ 32 →
  block_size_ p mod alignof_Block = 0 ∧
  block_size + 15 <= block_size_ p < block_size + 23.
Proof.
  unfold new. destruct (Z.eqb_spec block_size 0); [lia|].
  intros [= <-] Hbs. unfold sizeof_Block, alignof_Block.
  rewrite !(small_in_size_t (16 + block_size)) by lia.
  rewrite !(small_in_size_t (16 + block_size - 1)) by lia.
  set (t := 16 + block_size - 1).
  pose proof (Z.mod_pos_bound t 8 ltac:(lia)) as Hmod.
  pose proof (Z.div_mod t 8 ltac:(lia)) as Hdiv.
  assert (block_size_
            (if 0 <? initial_blocks
             then expand_pool chunk initial_blocks
                    {| block_size_ :=
                         if negb (t mod 8 =? 0)
                         then wrap (t + (8 - t mod 8)) else t;
                       chunks_ := []; free_list_ := 0; total_blocks_ := 0;
                       allocated_blocks_ := 0; next_ := ∅ |}
             else {| block_size_ :=
                       if negb (t mod 8 =? 0)
                       then wrap (t + (8 - t mod 8)) else t;
                     chunks_ := []; free_list_ := 0; total_blocks_ := 0;
                     allocated_blocks_ := 0; next_ := ∅ |})
          = if negb (t mod 8 =? 0) then wrap (t + (8 - t mod 8)) else t)
    as ->.
  { destruct (0 <? initial_blocks); [|done]. unfold expand_pool. simpl.
    by destruct (init_blocks_fields (Z.to_nat initial_blocks) chunk
                   {| block_size_ :=
                        if negb (t mod 8 =? 0)
                        then wrap (t + (8 - t mod 8)) else t;
                      chunks_ := []; free_list_ := 0; total_blocks_ := 0;
                      allocated_blocks_ := 0; next_ := ∅ |}) as (-> & _). }
  destruct (Z.eqb_spec (t mod 8) 0) as [Hz|Hnz]; simpl.
  - split; [done|]. subst t. lia.
  - rewrite small_in_size_t by (subst t; lia). split.
    + replace (t + (8 - t mod 8)) with (0 + (t / 8 + 1) * 8) by lia.
      by rewrite Z_mod_plus_full.
    + subst t. lia.
Qed.

Lemma new_ok chunk block_size initial_blocks p :
  new chunk block_size initial_blocks = Some p →
  0 < block_size <= 2 ^ 32 → 0 < chunk →
  0 <= initial_blocks <= 2 ^ 24 →
  ∃ free, pool_ok p free ∅ ∧
          Z.of_nat (length free) = initial_blocks ∧
          total_blocks_ p = initial_blocks.
Proof.
  intros Hnew Hbs Hchunk Hn.
  destruct (new_block_size _ _ _ _ Hnew Hbs) as [_ Hsize].
  revert Hnew Hsize. unfold new.
  destruct (Z.eqb_spec block_size 0); [lia|].
  set (p0 := {| block_size_ := _; chunks_ := []; free_list_ := 0;
                total_blocks_ := 0; allocated_blocks_ := 0; next_ := ∅ |}).
  intros [= <-] Hsize.
  assert (block_size + 15 <= block_size_ p0 < block_size + 23) as Hsize0.
  { destruct (0 <? initial_blocks); [|done].
    unfold expand_pool in Hsize. simpl in Hsize.
    by destruct (init_blocks_fields (Z.to_nat initial_blocks) chunk p0)
      as (<- & _). }
  assert (pool_ok p0 [] ∅) as Hok0.
  { unfold pool_ok, offsetof_Block_data. split; [lia|]. simpl.
    split; [done|]. split; [apply NoDup_nil_2|].
    split; [by intros b ?%not_elem_of_nil|].
    split; [by intros b ?%not_elem_of_nil|].
    split; [by intros ptr ?%not_elem_of_empty|].
    split; [by intros c ?%not_elem_of_nil|]. done. }
  destruct (Z.ltb_spec 0 initial_blocks).
  - eexists. split.
    + apply (expand_pool_ok p0 [] ∅ chunk initial_blocks Hok0).
      split; [done|]. split; [lia|].
      split; [|by intros c ?%not_elem_of_nil].
      change (total_blocks_ p0) with 0.
      assert (initial_blocks * block_size_ p0 <= 2 ^ 24 * (2 ^ 32 + 23))
        by nia.
      lia.
    + rewrite app_nil_r, length_reverse, blocks_from_length.
      split; [lia|]. simpl.
      destruct (init_blocks_fields (Z.to_nat initial_blocks) chunk p0)
        as (_ & _ & -> & _).
      simpl. apply small_in_size_t. lia.
  - exists []. split; [done|]. simpl. split; lia.
Qed.

Lemma in_use_ok p out : in_use p out → ∃ free, pool_ok p free out.
Proof.
  induction 1 as [chunk bs n p Hnew Hbs Hchunk Hn
                 |p out chunk ptr p' _ [free IH] Hfresh Halloc
                 |p out ptr _ [free IH] Hin
                 |p out chunk n _ [free IH] Hfresh].
  - destruct (new_ok _ _ _ _ Hnew Hbs Hchunk Hn) as (free & Hok & _).
    by exists free.
  - destruct (allocate_ok _ _ _ _ _ _ IH Hfresh Halloc)
      as (_ & b & free' & _ & Hok & _).
    by exists free'.
  - eexists. by apply deallocate_ok.
  - eexists. by apply expand_pool_ok.
Qed.

Lemma free_blocks_ok p free out :
  pool_ok p free out →
  free_blocks (S (length free)) p = Some (Z.of_nat (length free)).
Proof.
  intros (Hbs & Hchain & _ & _ & _ & _ & _ & Hmax & Htotal & _).
  unfold free_blocks, offsetof_Block_data in *.
  rewrite (free_blocks_from_chain p free (free_list_ p) 0); [done|done|lia|lia|].
  nia.
Qed.

(** *** The pool in proper use *)

(** X3.  The constructor, for a block size from 1 to 2^32, a chunk that is not
    at the null address and up to 2^24 blocks: the padded block size is a
    multiple of the alignment and leaves the requested bytes after the
    header; all the blocks are free and the walk of [free_blocks()] counts
    them. *)
Theorem new_pool_counts (chunk block_size initial_blocks : Z)
    (p : MemoryPool) :
  new chunk block_size initial_blocks = Some p →
  0 < block_size <= 2 ^ 32 → 0 < chunk →
  0 <= initial_blocks <= 2 ^ 24 →
  block_size_ p mod alignof_Block = 0 ∧
  offsetof_Block_data + block_size <= block_size_ p ∧
  total_blocks p = initial_blocks ∧
  allocated_blocks p = 0 ∧
  free_blocks (S (Z.to_nat initial_blocks)) p = Some initial_blocks.
Proof.
  intros Hnew Hbs Hchunk Hn.
  destruct (new_block_size _ _ _ _ Hnew Hbs) as [Hal Hsize].
  destruct (new_ok _ _ _ _ Hnew Hbs Hchunk Hn) as (free & Hok & Hlen & Htot).
  split; [done|]. split; [unfold offsetof_Block_data; lia|].
  split; [done|]. split.
  - destruct Hok as (_ & _ & _ & _ & _ & _ & _ & _ & _ & Halloc).
    unfold allocated_blocks. rewrite Halloc. by rewrite size_empty.
  - rewrite <- Hlen, Nat2Z.id. by apply (free_blocks_ok p free ∅).
Qed.

Lemma new_pool_counts_witness :
  block_size_ sample_pool mod alignof_Block = 0 ∧
  offsetof_Block_data + 4 <= block_size_ sample_pool ∧
  total_blocks sample_pool = 5 ∧
  allocated_blocks sample_pool = 0 ∧
  free_blocks (S (Z.to_nat 5)) sample_pool = Some 5.
Proof.
  apply (new_pool_counts 4096 4 5 sample_pool); [reflexivity|lia|lia|lia].
Defined.

(** X4.  In a pool whose client frees only pointers it was given, each once:
    [allocated_blocks()] is the number of pointers the client holds, the
    walk of [free_blocks()] ends, and allocated plus free is
    [total_blocks()]. *)
Theorem pool_counts_balance (p : MemoryPool) (out : gset Z) :
  in_use p out →
  allocated_blocks p = Z.of_nat (size out) ∧
  ∃ nfree : nat,
    free_blocks (S nfree) p = Some (Z.of_nat nfree) ∧
    allocated_blocks p + Z.of_nat nfree = total_blocks p.
Proof.
  intros [free Hok]%in_use_ok.
  pose proof (free_blocks_ok p free out Hok) as Hwalk.
  destruct Hok as (_ & _ & _ & _ & _ & _ & _ & _ & Htotal & Halloc).
  unfold allocated_blocks, total_blocks. split; [done|].
  exists (length free). split; [done|]. lia.
Qed.

Lemma sample_pool_in_use : in_use sample_pool ∅.
Proof. apply (in_use_new 4096 4 5); [reflexivity|lia|lia|lia]. Qed.

Lemma sample_pool_allocated_in_use :
  in_use (snd (allocate 0 sample_pool)) ({[4200]} ∪ ∅).
Proof.
  apply (in_use_allocate sample_pool ∅ 0 4200);
    [apply sample_pool_in_use | by vm_compute | reflexivity].
Qed.

Lemma pool_counts_balance_witness :
  allocated_blocks (snd (allocate 0 sample_pool))
  = Z.of_nat (size ({[4200]} ∪ ∅ : gset Z)) ∧
  ∃ nfree : nat,
    free_blocks (S nfree) (snd (allocate 0 sample_pool))
    = Some (Z.of_nat nfree) ∧
    allocated_blocks (snd (allocate 0 sample_pool)) + Z.of_nat nfree
    = total_blocks (snd (allocate 0 sample_pool)).
Proof.
  apply (pool_counts_balance (snd (allocate 0 sample_pool)) ({[4200]} ∪ ∅)).
  apply sample_pool_allocated_in_use.
Defined.

(** X5.  [allocate()] on such a pool, with a sound chunk from the host when it
    has to grow: the pointer is not null, it is not one the client holds
    already, [is_valid_pointer] accepts it, it lies in a chunk of the
    pool, and the counter goes up by one. *)
Theorem allocate_returns_new_valid_pointer (p : MemoryPool) (out : gset Z)
    (chunk ptr : Z) (p' : MemoryPool) :
  in_use p out →
  (free_list_ p = 0 → fresh_chunk p chunk (Z.max 1 (total_blocks_ p / 2))) →
  allocate chunk p = (ptr, p') →
  ptr ≠ 0 ∧ (ptr ∉ out) ∧
  is_valid_pointer ptr p' = true ∧ in_owned_chunk ptr p' ∧
  allocated_blocks p' = allocated_blocks p + 1.
Proof.
  intros [free Hok]%in_use_ok Hfresh Halloc.
  destruct (allocate_ok _ _ _ _ _ _ Hok Hfresh Halloc)
    as (Hnew & b & free' & -> & Hok' & _).
  pose proof Hok' as (_ & _ & _ & _ & _ & Hout & _ & _ & _ & Hcount).
  assert (slot p' b) as Hslot.
  { replace b with (b + offsetof_Block_data - offsetof_Block_data) by lia.
    apply Hout. apply elem_of_union. left. by apply elem_of_singleton. }
  destruct (slot_valid_pointer p' free' _ b Hok' Hslot) as (_ & ? & ? & ?).
  repeat (split; [done|]).
  destruct Hok as (_ & _ & _ & _ & _ & _ & _ & _ & _ & Hcount0).
  unfold allocated_blocks. rewrite Hcount, Hcount0.
  rewrite size_union, size_singleton; [lia|].
  intros x ->%elem_of_singleton. done.
Qed.

Lemma allocate_returns_new_valid_pointer_witness :
  4176 ≠ 0 ∧ (4176 ∉ ({[4200]} ∪ ∅ : gset Z)) ∧
  is_valid_pointer 4176 (snd (allocate 0 (snd (allocate 0 sample_pool))))
  = true ∧
  in_owned_chunk 4176 (snd (allocate 0 (snd (allocate 0 sample_pool)))) ∧
  allocated_blocks (snd (allocate 0 (snd (allocate 0 sample_pool))))
  = allocated_blocks (snd (allocate 0 sample_pool)) + 1.
Proof.
  apply (allocate_returns_new_valid_pointer
           (snd (allocate 0 sample_pool)) ({[4200]} ∪ ∅) 0 4176).
  - apply sample_pool_allocated_in_use.
  - by vm_compute.
  - reflexivity.
Defined.

Lemma allocate_pointer_valid (p : MemoryPool) (out : gset Z)
    (chunk ptr : Z) (p' : MemoryPool) :
  in_use p out →
  (free_list_ p = 0 → fresh_chunk p chunk (Z.max 1 (total_blocks_ p / 2))) →
  allocate chunk p = (ptr, p') →
  ptr ≠ 0 ∧ is_valid_pointer ptr p' = true.
Proof.
  intros [free Hok]%in_use_ok Hfresh Halloc.
  destruct (allocate_ok _ _ _ _ _ _ Hok Hfresh Halloc)
    as (Hnew & b & free' & -> & Hok' & _).
  pose proof Hok' as (_ & _ & _ & _ & _ & Hout & _).
  assert (slot p' b) as Hslot.
  { replace b with (b + offsetof_Block_data - offsetof_Block_data) by lia.
    apply Hout. apply elem_of_union. left. by apply elem_of_singleton. }
  destruct (slot_valid_pointer p' free' _ b Hok' Hslot) as (_ & ? & ? & ?).
  done.
Qed.

(** X6.  Freeing the pointer [allocate()] has just returned, when the pool did
    not have to grow for it, gives back the pool as it was before the
    call: free list, memory and counters. *)
Theorem deallocate_undoes_allocate (p : MemoryPool) (out : gset Z)
    (chunk ptr : Z) (p' : MemoryPool) :
  in_use p out → free_list_ p ≠ 0 →
  allocate chunk p = (ptr, p') →
  deallocate ptr p' = p.
Proof.
  intros Huse Hhead Halloc.
  destruct (allocate_pointer_valid p out chunk ptr p' Huse)
    as (Hnz & Hvalid); [done|done|].
  destruct (in_use_ok p out Huse) as [free Hok].
  pose proof Hok as (_ & Hchain & _ & _ & _ & _ & _ & Hmax & Htotal & Hcount).
  pose proof Hok as (Hbs & _). unfold offsetof_Block_data in Hbs.
  destruct free as [|b rest];
    [by apply chain_null in Hchain as [_ ?]; tauto|].
  simpl in Hchain. destruct Hchain as (Hb & _ & n & Hn & _).
  revert Halloc Hvalid. unfold allocate.
  destruct (Z.eqb_spec (free_list_ p) 0); [done|].
  intros [= <- <-] Hvalid. unfold deallocate.
  destruct (Z.eqb_spec (free_list_ p + offsetof_Block_data) 0); [done|].
  rewrite Hvalid. simpl. rewrite Hb, Hn. simpl.
  replace (b + offsetof_Block_data - offsetof_Block_data) with b by lia.
  rewrite insert_id by done.
  rewrite Hcount, (small_in_size_t (Z.of_nat (size out) + 1))
    by (simpl in Htotal; nia).
  replace (Z.of_nat (size out) + 1 - 1) with (Z.of_nat (size out)) by lia.
  rewrite small_in_size_t by (simpl in Htotal; nia).
  destruct p; simpl in *. by subst.
Qed.

Lemma deallocate_undoes_allocate_witness :
  deallocate 4200 (snd (allocate 0 sample_pool)) = sample_pool.
Proof.
  apply (deallocate_undoes_allocate sample_pool ∅ 0 4200);
    [apply sample_pool_in_use | by vm_compute | reflexivity].
Defined.

(** X7.  The free list is a stack: after a pointer the client held is freed,
    the next [allocate()] returns that pointer again. *)
Theorem allocate_reuses_freed_block (p : MemoryPool) (out : gset Z)
    (chunk ptr : Z) :
  in_use p out → ptr ∈ out →
  fst (allocate chunk (deallocate ptr p)) = ptr.
Proof.
  intros [free Hok]%in_use_ok Hin.
  pose proof (deallocate_ok p free out ptr Hok Hin) as Hok'.
  pose proof Hok' as (_ & (Hhead & Hnz & _) & _).
  unfold allocate. rewrite Hhead.
  destruct (Z.eqb_spec (ptr - offsetof_Block_data) 0); [done|].
  simpl. rewrite Hhead. lia.
Qed.

Lemma allocate_reuses_freed_block_witness :
  fst (allocate 0 (deallocate 4200 (snd (allocate 0 sample_pool)))) = 4200.
Proof.
  apply (allocate_reuses_freed_block (snd (allocate 0 sample_pool))
           ({[4200]} ∪ ∅) 0 4200).
  - apply sample_pool_allocated_in_use.
  - apply elem_of_union. left. by apply elem_of_singleton.
Defined.

Lemma blocks_from_snoc bs (n : nat) : ∀ ptr,
  blocks_from ptr bs (S n) = blocks_from ptr bs n ++ [ptr + Z.of_nat n * bs].
Proof.
  induction n as [|n IH]; intros ptr.
  - simpl. f_equal. lia.
  - change (blocks_from ptr bs (S (S n)))
      with (ptr :: blocks_from (ptr + bs) bs (S n)).
    rewrite IH.
    change (blocks_from ptr bs (S n))
      with (ptr :: blocks_from (ptr + bs) bs n).
    by replace (ptr + Z.of_nat (S n) * bs)
      with (ptr + bs + Z.of_nat n * bs) by lia.
Qed.

(** [allocate()] when the pool has to grow: the block it hands out is the
    one [expand_pool] pushed last, at the end of the new chunk, and the
    free list is left with the other blocks of that chunk. *)
Lemma allocate_grow_ok p out chunk ptr p' :
  pool_ok p [] out → free_list_ p = 0 →
  fresh_chunk p chunk (Z.max 1 (total_blocks_ p / 2)) →
  allocate chunk p = (ptr, p') →
  ptr = chunk + (Z.max 1 (total_blocks_ p / 2) - 1) * block_size_ p
        + offsetof_Block_data ∧
  (ptr ∉ out) ∧
  pool_ok p'
    (reverse (blocks_from chunk (block_size_ p)
                (Z.to_nat (Z.max 1 (total_blocks_ p / 2) - 1))))
    ({[ptr]} ∪ out).
Proof.
  intros Hok Hnull Hfresh. unfold allocate.
  destruct (Z.eqb_spec (free_list_ p) 0) as [_|Hhead]; [|done].
  pose proof (expand_pool_ok p [] out chunk _ Hok Hfresh) as Hok1.
  rewrite app_nil_r in Hok1.
  set (n := Z.max 1 (total_blocks_ p / 2)) in *.
  set (p1 := expand_pool chunk n p) in *.
  replace (Z.to_nat n) with (S (Z.to_nat (n - 1))) in Hok1 by lia.
  rewrite blocks_from_snoc, reverse_snoc in Hok1.
  rewrite Z2Nat.id in Hok1 by lia.
  pose proof Hok1 as (_ & (Hb & _) & _). simpl in Hb.
  intros [= <- <-]. rewrite Hb.
  destruct (pop_ok p1 _ _ out Hok1) as [Hnew Hok'].
  split; [done|]. split; [done|]. done.
Qed.

(** X8.  [allocate()] with an empty free list: every block is with the
    client and the pool grows by [max(1, total_blocks / 2)] blocks.  The
    pointer returned is the data of the last block of the new chunk: it
    is not one the client holds and [is_valid_pointer] accepts it.  The
    other blocks of the new chunk, and nothing else, are on the free list
    afterwards, from the highest address down. *)
Theorem allocate_grows_exhausted_pool (p : MemoryPool) (out : gset Z)
    (chunk ptr : Z) (p' : MemoryPool) :
  in_use p out → free_list_ p = 0 →
  fresh_chunk p chunk (Z.max 1 (total_blocks_ p / 2)) →
  allocate chunk p = (ptr, p') →
  allocated_blocks p = total_blocks p ∧
  total_blocks p' = total_blocks p + Z.max 1 (total_blocks p / 2) ∧
  allocated_blocks p' = allocated_blocks p + 1 ∧
  ptr = chunk + (Z.max 1 (total_blocks p / 2) - 1) * block_size_ p
        + offsetof_Block_data ∧
  (ptr ∉ out) ∧
  is_valid_pointer ptr p' = true ∧
  chain (next_ p') (free_list_ p')
    (reverse (blocks_from chunk (block_size_ p)
                (Z.to_nat (Z.max 1 (total_blocks p / 2) - 1)))) ∧
  free_blocks (S (Z.to_nat (Z.max 1 (total_blocks p / 2) - 1))) p'
  = Some (Z.max 1 (total_blocks p / 2) - 1).
Proof.
  intros Huse Hnull Hfresh Halloc.
  destruct (in_use_ok p out Huse) as [free Hok].
  pose proof Hok as (_ & Hchain & _ & _ & _ & _ & _ & _ & Htotal & Hcount).
  apply chain_null in Hchain. pose proof Hnull as Hempty.
  apply Hchain in Hempty. subst free.
  destruct (allocate_ok _ _ _ _ _ _ Hok (λ _, Hfresh) Halloc)
    as (_ & b & free' & _ & _ & _ & Hgrow).
  destruct (Hgrow Hnull) as [Htot _].
  destruct (allocate_grow_ok p out chunk ptr p' Hok Hnull Hfresh Halloc)
    as (Hptr & Hnew & Hok').
  destruct (allocate_pointer_valid p out chunk ptr p' Huse (λ _, Hfresh)
              Halloc) as [_ Hvalid].
  unfold total_blocks, allocated_blocks in *.
  split; [simpl in Htotal; lia|]. split; [done|].
  split.
  { pose proof Hok' as (_ & _ & _ & _ & _ & _ & _ & _ & _ & Hcount').
    rewrite Hcount', Hcount, size_union, size_singleton; [lia|].
    intros x ->%elem_of_singleton. done. }
  split; [done|]. split; [done|]. split; [done|].
  split; [apply Hok'|].
  pose proof (free_blocks_ok p' _ _ Hok') as Hwalk.
  rewrite length_reverse, blocks_from_length in Hwalk.
  rewrite Hwalk. f_equal. lia.
Qed.

Lemma sample_pool_fresh_chunk n :
  0 <= n <= 2 ^ 24 → fresh_chunk sample_pool 8192 n.
Proof.
  intros Hn. split; [lia|]. split; [lia|].
  split; [change (total_blocks_ sample_pool) with 5;
          change (block_size_ sample_pool) with 24; lia|].
  intros c Hc. change (chunks_ sample_pool) with [mkChunk 4096 120] in Hc.
  apply list_elem_of_singleton in Hc as ->. simpl. lia.
Qed.

Lemma exhausted_pool_in_use : in_use exhausted_pool ({[4104]} ∪ ∅).
Proof.
  apply (in_use_allocate one_block_pool ∅ 0 4104);
    [|by vm_compute|reflexivity].
  apply (in_use_new 4096 4 1); [reflexivity|lia|lia|lia].
Qed.

Lemma exhausted_pool_fresh_chunk :
  fresh_chunk exhausted_pool 8192
    (Z.max 1 (total_blocks_ exhausted_pool / 2)).
Proof.
  split; [lia|]. split; [by vm_compute|]. split; [by vm_compute|].
  intros c Hc. change (chunks_ exhausted_pool) with [mkChunk 4096 24] in Hc.
  apply list_elem_of_singleton in Hc as ->. simpl. lia.
Qed.

Lemma sample_pool_1_in_use : in_use sample_pool_1 ({[4200]} ∪ ∅).
Proof.
  apply (in_use_allocate sample_pool ∅ 0 4200);
    [apply sample_pool_in_use | by vm_compute | reflexivity].
Qed.

Lemma sample_pool_2_in_use :
  in_use sample_pool_2 ({[4176]} ∪ ({[4200]} ∪ ∅)).
Proof.
  apply (in_use_allocate sample_pool_1 ({[4200]} ∪ ∅) 0 4176);
    [apply sample_pool_1_in_use | by vm_compute | reflexivity].
Qed.

Lemma sample_pool_3_in_use :
  in_use sample_pool_3 ({[4152]} ∪ ({[4176]} ∪ ({[4200]} ∪ ∅))).
Proof.
  apply (in_use_allocate sample_pool_2 ({[4176]} ∪ ({[4200]} ∪ ∅)) 0 4152);
    [apply sample_pool_2_in_use | by vm_compute | reflexivity].
Qed.

Lemma sample_pool_4_in_use :
  in_use sample_pool_4
    ({[4128]} ∪ ({[4152]} ∪ ({[4176]} ∪ ({[4200]} ∪ ∅)))).
Proof.
  apply (in_use_allocate sample_pool_3
           ({[4152]} ∪ ({[4176]} ∪ ({[4200]} ∪ ∅))) 0 4128);
    [apply sample_pool_3_in_use | by vm_compute | reflexivity].
Qed.

Lemma drained_pool_in_use : in_use drained_pool drained_pool_out.
Proof.
  apply (in_use_allocate sample_pool_4
           ({[4128]} ∪ ({[4152]} ∪ ({[4176]} ∪ ({[4200]} ∪ ∅)))) 0 4104);
    [apply sample_pool_4_in_use | by vm_compute | reflexivity].
Qed.

Lemma drained_pool_fields :
  block_size_ drained_pool = 24 ∧ total_blocks_ drained_pool = 5 ∧
  chunks_ drained_pool = [mkChunk 4096 120].
Proof. by vm_compute. Qed.

Lemma drained_pool_fresh_chunk :
  fresh_chunk drained_pool 8192 (Z.max 1 (total_blocks_ drained_pool / 2)).
Proof.
  destruct drained_pool_fields as (Hbs & Htotal & Hchunks).
  unfold fresh_chunk. rewrite Hbs, Htotal, Hchunks.
  split; [lia|]. split; [done|]. split; [done|].
  intros c ->%list_elem_of_singleton. cbn [chunk_start chunk_bytes].
  right. done.
Qed.

Lemma allocate_grows_exhausted_pool_witness :
  allocated_blocks drained_pool = total_blocks drained_pool ∧
  total_blocks (snd (allocate 8192 drained_pool))
  = total_blocks drained_pool + Z.max 1 (total_blocks drained_pool / 2) ∧
  allocated_blocks (snd (allocate 8192 drained_pool))
  = allocated_blocks drained_pool + 1 ∧
  8224 = 8192 + (Z.max 1 (total_blocks drained_pool / 2) - 1)
                * block_size_ drained_pool
         + offsetof_Block_data ∧
  (8224 ∉ drained_pool_out) ∧
  is_valid_pointer 8224 (snd (allocate 8192 drained_pool)) = true ∧
  chain (next_ (snd (allocate 8192 drained_pool)))
    (free_list_ (snd (allocate 8192 drained_pool)))
    (reverse (blocks_from 8192 (block_size_ drained_pool)
                (Z.to_nat (Z.max 1 (total_blocks drained_pool / 2) - 1)))) ∧
  free_blocks (S (Z.to_nat (Z.max 1 (total_blocks drained_pool / 2) - 1)))
    (snd (allocate 8192 drained_pool))
  = Some (Z.max 1 (total_blocks drained_pool / 2) - 1).
Proof.
  apply (allocate_grows_exhausted_pool drained_pool drained_pool_out
           8192 8224 (snd (allocate 8192 drained_pool))).
  - apply drained_pool_in_use.
  - vm_compute. reflexivity.
  - apply drained_pool_fresh_chunk.
  - vm_compute. reflexivity.
Defined.

(** In that pool of five blocks, all allocated, the new chunk has two
    blocks: the second is handed out and the first is the free list. *)
Example drained_pool_grows_by_two :
  fst (allocate 8192 drained_pool) = 8224 ∧
  free_list_ (snd (allocate 8192 drained_pool)) = 8192 ∧
  reverse (blocks_from 8192 (block_size_ drained_pool)
             (Z.to_nat (Z.max 1 (total_blocks drained_pool / 2) - 1)))
  = [8192].
Proof. by vm_compute. Qed.

(** X9.  [reserve(n)] with a sound chunk from the host: [n] more blocks in
    total, [n] more free, as many allocated as before. *)
Theorem reserve_adds_free_blocks (p : MemoryPool) (out : gset Z)
    (chunk n : Z) :
  in_use p out → fresh_chunk p chunk n →
  total_blocks (reserve chunk n p) = total_blocks p + n ∧
  allocated_blocks (reserve chunk n p) = allocated_blocks p ∧
  ∃ nfree : nat,
    free_blocks (S nfree) p = Some (Z.of_nat nfree) ∧
    free_blocks (S (nfree + Z.to_nat n)) (reserve chunk n p)
    = Some (Z.of_nat nfree + n).
Proof.
  intros [free Hok]%in_use_ok Hfresh.
  pose proof (expand_pool_ok p free out chunk n Hok Hfresh) as Hok'.
  pose proof (free_blocks_ok _ _ _ Hok) as Hwalk.
  pose proof (free_blocks_ok _ _ _ Hok') as Hwalk'.
  rewrite length_app, length_reverse, blocks_from_length in Hwalk'.
  destruct Hfresh as (_ & Hn & _).
  destruct Hok as (_ & _ & _ & _ & _ & _ & _ & _ & Htotal & Hcount).
  destruct Hok' as (_ & _ & _ & _ & _ & _ & _ & _ & Htotal' & Hcount').
  rewrite length_app, length_reverse, blocks_from_length in Htotal'.
  unfold total_blocks, allocated_blocks, reserve.
  split; [lia|]. split; [lia|]. exists (length free). split; [done|].
  replace (length free + Z.to_nat n)%nat with (Z.to_nat n + length free)%nat
    by lia.
  rewrite Hwalk'. f_equal. lia.
Qed.

Lemma reserve_adds_free_blocks_witness :
  total_blocks (reserve 8192 3 sample_pool) = total_blocks sample_pool + 3 ∧
  allocated_blocks (reserve 8192 3 sample_pool)
  = allocated_blocks sample_pool ∧
  ∃ nfree : nat,
    free_blocks (S nfree) sample_pool = Some (Z.of_nat nfree) ∧
    free_blocks (S (nfree + Z.to_nat 3)) (reserve 8192 3 sample_pool)
    = Some (Z.of_nat nfree + 3).
Proof.
  apply (reserve_adds_free_blocks sample_pool ∅ 8192 3).
  - apply sample_pool_in_use.
  - apply sample_pool_fresh_chunk. lia.
Defined.

End MemoryPoolFacts.

(* ---------------------------------------------------------------------- *)

Module ThreadPoolFacts.
Import ThreadPool.

Section Pool.

Context {Task : Type}.
Implicit Types (p : ThreadPool Task) (c : call Task).

Lemma shutdown_stops p : stop_ (shutdown p) = true.
Proof. unfold shutdown. by destruct (workers_ p). Qed.

Lemma shutdown_no_workers p : workers_ (shutdown p) = O.
Proof. unfold shutdown. by destruct (workers_ p). Qed.

Lemma shutdown_idempotent p : shutdown (shutdown p) = shutdown p.
Proof. unfold shutdown. by destruct (workers_ p). Qed.

Lemma submit_stopped task p :
  stop_ p = true →
  submit task p = (runtime_error "submit on stopped ThreadPool", p).
Proof. intros Hstop. unfold submit. by rewrite Hstop. Qed.

(** A stopped pool without workers is a fixed point of every call that
    returns. *)
Lemma after_call_stopped c p p' :
  stop_ p = true → workers_ p = O → after_call c p = Some p' → p' = p.
Proof.
  intros Hstop Hw. destruct c as [task| | |]; simpl.
  - rewrite submit_stopped by done. by intros [= <-].
  - intros [= <-]. unfold shutdown. rewrite Hw.
    destruct p; simpl in *; by subst.
  - unfold wait_all. rewrite Hw. destruct (tasks_ p); [|done].
    by intros [= <-].
  - by intros [= <-].
Qed.

Lemma after_calls_stopped cs : ∀ p p',
  stop_ p = true → workers_ p = O → after_calls cs p = Some p' → p' = p.
Proof.
  induction cs as [|c cs IH]; intros p p' Hstop Hw; simpl.
  - by intros [= <-].
  - destruct (after_call c p) as [p1|] eqn:Hc; [|done].
    apply after_call_stopped in Hc as ->; [|done..]. by apply IH.
Qed.

(** C9.  After [shutdown()], and whatever calls follow it, [submit] ends
    with the runtime error and leaves the pool, its queue included, as it
    was; the queue is the one [shutdown] left and no worker takes a task
    from it; and a second [shutdown] changes nothing. *)
Theorem submit_after_shutdown_fails p cs p' task :
  after_calls cs (shutdown p) = Some p' →
  submit task p' = (runtime_error "submit on stopped ThreadPool", p') ∧
  tasks_ (snd (submit task p')) = tasks_ (shutdown p) ∧
  worker_step p' = None ∧
  shutdown (shutdown p) = shutdown p.
Proof.
  intros Hcalls.
  apply after_calls_stopped in Hcalls as ->;
    [|apply shutdown_stops|apply shutdown_no_workers].
  rewrite submit_stopped by apply shutdown_stops.
  split; [done|]. split; [done|]. split; [|apply shutdown_idempotent].
  unfold worker_step. by rewrite shutdown_no_workers.
Qed.

End Pool.

Lemma submit_after_shutdown_fails_witness :
  let p := snd (submit 7%nat (new 2 0)) in
  let cs := [call_submit 8%nat; call_pending_tasks; call_shutdown;
             call_wait_all] in
  after_calls cs (shutdown p) = Some (shutdown p) ∧
  submit 9%nat (shutdown p)
  = (runtime_error "submit on stopped ThreadPool", shutdown p) ∧
  tasks_ (snd (submit 9%nat (shutdown p))) = tasks_ (shutdown p) ∧
  worker_step (shutdown p) = None ∧
  shutdown (shutdown p) = shutdown p.
Proof.
  intros p cs. split; [reflexivity|].
  apply (submit_after_shutdown_fails p cs (shutdown p) 9%nat). reflexivity.
Defined.

(** *** The order of the queue *)

Section Order.

Context {Task : Type}.
Implicit Types (p : ThreadPool Task) (ts : list Task).

Lemma submit_all_running ts : ∀ p,
  stop_ p = false →
  tasks_ (submit_all ts p) = tasks_ p ++ ts ∧
  stop_ (submit_all ts p) = false ∧
  workers_ (submit_all ts p) = workers_ p.
Proof.
  induction ts as [|t ts IH]; intros p Hrun; simpl.
  - by rewrite app_nil_r.
  - unfold submit. rewrite Hrun. cbn [snd].
    destruct (IH {| workers_ := workers_ p; tasks_ := tasks_ p ++ [t];
                    stop_ := false; active_tasks_ := active_tasks_ p;
                    completed_tasks_ := completed_tasks_ p |} eq_refl)
      as (-> & -> & ->).
    simpl. by rewrite <- app_assoc.
Qed.

Lemma take_tasks_all (n : nat) : ∀ p,
  (0 < workers_ p)%nat → (length (tasks_ p) <= n)%nat →
  fst (take_tasks n p) = tasks_ p ∧
  tasks_ (snd (take_tasks n p)) = [] ∧
  stop_ (snd (take_tasks n p)) = stop_ p.
Proof.
  induction n as [|n IH]; intros p Hw Hn.
  - simpl. destruct (tasks_ p); [done|simpl in Hn; lia].
  - simpl. unfold worker_step.
    destruct (workers_ p) as [|w] eqn:Hworkers; [lia|].
    destruct (tasks_ p) as [|t rest] eqn:Htasks; [done|].
    set (p' := {| workers_ := S w; tasks_ := rest; stop_ := stop_ p;
                  active_tasks_ := active_tasks_ p;
                  completed_tasks_ := wrap (completed_tasks_ p + 1) |}).
    destruct (IH p') as (Hfst & Hsnd & Hstop);
      [simpl; lia|simpl in *; lia|].
    destruct (take_tasks n p') as [ts p'']. simpl in *.
    by rewrite Hfst.
Qed.

(** X10.  On a pool that has not been stopped, [submit] puts each task behind
    the ones queued, and the workers take the tasks from the front: what
    was queued first, then the submitted tasks in the order of their
    submission, until the queue is empty. *)
Theorem tasks_are_taken_in_submission_order p ts (n : nat) :
  stop_ p = false → (0 < workers_ p)%nat →
  (length (tasks_ p) + length ts <= n)%nat →
  pending_tasks (submit_all ts p) = (pending_tasks p + length ts)%nat ∧
  fst (take_tasks n (submit_all ts p)) = tasks_ p ++ ts ∧
  pending_tasks (snd (take_tasks n (submit_all ts p))) = 0%nat.
Proof.
  intros Hrun Hw Hn.
  destruct (submit_all_running ts p Hrun) as (Htasks & _ & Hworkers).
  destruct (take_tasks_all n (submit_all ts p)) as (Hfst & Hsnd & _).
  { by rewrite Hworkers. }
  { by rewrite Htasks, length_app. }
  unfold pending_tasks. rewrite Hfst, Hsnd, Htasks, length_app. done.
Qed.

End Order.

Lemma tasks_are_taken_in_submission_order_witness :
  let p := snd (submit 7%nat (new 2 0)) in
  pending_tasks (submit_all [8; 9]%nat p) = (pending_tasks p + 2)%nat ∧
  fst (take_tasks 5 (submit_all [8; 9]%nat p)) = tasks_ p ++ [8; 9]%nat ∧
  pending_tasks (snd (take_tasks 5 (submit_all [8; 9]%nat p))) = 0%nat.
Proof.
  intros p.
  apply (tasks_are_taken_in_submission_order p [8; 9]%nat 5);
    [reflexivity | simpl; lia | simpl; lia].
Defined.

End ThreadPoolFacts.

(* ---------------------------------------------------------------------- *)

Module CacheManagerFacts.
Import CacheManager.

Local Arguments insert_entry : simpl never.
Local Arguments evict_lru_item : simpl never.
Local Arguments estimate_memory_usage : simpl never.

(** *** Arithmetic of the byte counter *)

Lemma wrap_sub_l a b : wrap (wrap a - b) = wrap (a - b).
Proof. unfold wrap. apply Zminus_mod_idemp_l. Qed.

Lemma wrap_add_l a b : wrap (wrap a + b) = wrap (a + b).
Proof. unfold wrap. apply Zplus_mod_idemp_l. Qed.

Lemma sum_size_bytes_empty : sum_size_bytes ∅ = 0.
Proof. apply map_fold_empty. Qed.

Lemma sum_size_bytes_delete (m : gmap string CacheEntry) k e :
  m !! k = Some e →
  sum_size_bytes m = size_bytes e + sum_size_bytes (delete k m).
Proof.
  intros Hk. unfold sum_size_bytes.
  rewrite (map_fold_delete_L _ _ k e m); [done| |done].
  intros; lia.
Qed.

Lemma sum_size_bytes_insert (m : gmap string CacheEntry) k e :
  sum_size_bytes (<[k := e]> m)
  = size_bytes e + sum_size_bytes (delete k m).
Proof.
  rewrite <- (insert_delete_eq m). unfold sum_size_bytes.
  rewrite map_fold_insert_L; [done| |apply lookup_delete_eq].
  intros; lia.
Qed.

(** *** The lock *)

Lemma unlocked_eta s : unlocked s → set_mutex false s = s.
Proof. unfold unlocked. destruct s; simpl. by intros ->. Qed.

Lemma lock_guard_unlocked {A : Type} (body : CacheManager → outcome A) s :
  mutex_blind body → unlocked s → lock_guard body s = body s.
Proof.
  intros Hblind Hunl. unfold lock_guard. rewrite Hunl, (Hblind true s).
  pose proof (Hblind false s) as Hfix. rewrite unlocked_eta in Hfix by done.
  destruct (body s) as [a s'|w s'| |]; simpl in *; done.
Qed.

Lemma lock_guard_locked {A : Type} (body : CacheManager → outcome A) s :
  cache_mutex_ s = true → lock_guard body s = Blocked.
Proof. intros Hl. unfold lock_guard. by rewrite Hl. Qed.

Lemma evict_lru_item_set_mutex b s :
  evict_lru_item (set_mutex b s) = set_mutex b (evict_lru_item s).
Proof.
  unfold evict_lru_item. simpl. destruct (last (lru_list_ s)); [|done].
  simpl. by destruct (cache_ s !! _).
Qed.

Lemma evict_loop_set_mutex b fuel data_size : ∀ s,
  evict_loop fuel data_size (set_mutex b s)
  = set_mutex b <$> evict_loop fuel data_size s.
Proof.
  induction fuel as [|fuel IH]; intros s; [done|]. simpl.
  change (over_budget data_size (set_mutex b s))
    with (over_budget data_size s).
  change (cache_empty (set_mutex b s)) with (cache_empty s).
  destruct (over_budget data_size s && negb (cache_empty s)); [|done].
  by rewrite evict_lru_item_set_mutex, IH.
Qed.

Lemma insert_entry_set_mutex b key d data_size now s :
  insert_entry key d data_size now (set_mutex b s)
  = set_mutex b (insert_entry key d data_size now s).
Proof. unfold insert_entry. simpl. by destruct (cache_ s !! key). Qed.

Lemma get_body_blind key now : mutex_blind (get_body key now).
Proof.
  intros b s. unfold get_body. simpl. by destruct (cache_ s !! key).
Qed.

Lemma remove_body_blind key : mutex_blind (remove_body key).
Proof.
  intros b s. unfold remove_body. simpl.
  destruct (cache_ s !! key); [|done]. simpl.
  by destruct (remove_file key (disk s)).
Qed.

Lemma clear_body_blind : mutex_blind clear_body.
Proof. by intros b s. Qed.

Lemma put_body_blind fuel key d now : mutex_blind (put_body fuel key d now).
Proof.
  intros b s. unfold put_body. rewrite evict_loop_set_mutex.
  destruct (evict_loop fuel (estimate_memory_usage d) s) as [s1|]; [|done].
  cbn [fmap option_fmap option_map].
  change (over_budget (estimate_memory_usage d) (set_mutex b s1))
    with (over_budget (estimate_memory_usage d) s1).
  destruct (over_budget (estimate_memory_usage d) s1); [done|].
  rewrite insert_entry_set_mutex.
  set (s2 := insert_entry key d (estimate_memory_usage d) now s1).
  change (thread_pool_ (set_mutex b s2)) with (thread_pool_ s2).
  destruct (thread_pool_ s2) as [pool|]; [|done].
  by destruct (ThreadPool.submit (key, d) pool) as [[|what] pool'].
Qed.

Lemma get_unlocked key now s : unlocked s → get key now s = get_body key now s.
Proof. apply lock_guard_unlocked, get_body_blind. Qed.

Lemma put_unlocked fuel key d now s :
  unlocked s → put fuel key d now s = put_body fuel key d now s.
Proof. apply lock_guard_unlocked, put_body_blind. Qed.

Lemma remove_unlocked key s : unlocked s → remove key s = remove_body key s.
Proof. apply lock_guard_unlocked, remove_body_blind. Qed.

Lemma clear_unlocked s : unlocked s → clear s = clear_body s.
Proof. apply lock_guard_unlocked, clear_body_blind. Qed.

(** The two members that call a locking member while they hold the lock:
    if they come back at all, they have done nothing. *)
Lemma remove_each_locked keys s s' :
  cache_mutex_ s = true →
  state_after (remove_each keys s) = Some s' → s' = s.
Proof.
  intros Hl. destruct keys as [|key rest]; simpl.
  - by intros [= <-].
  - unfold remove. by rewrite lock_guard_locked.
Qed.

Lemma preload_each_locked fuel now keys : ∀ s s',
  cache_mutex_ s = true →
  state_after (preload_each fuel now keys s) = Some s' → s' = s.
Proof.
  induction keys as [|key rest IH]; intros s s' Hl; simpl.
  - by intros [= <-].
  - destruct (load_from_disk key s); [|by apply IH].
    unfold put. by rewrite lock_guard_locked.
Qed.

Lemma cleanup_expired_entries_unchanged max_age now s s' :
  unlocked s →
  state_after (cleanup_expired_entries max_age now s) = Some s' → s' = s.
Proof.
  intros Hunl. unfold cleanup_expired_entries, lock_guard. rewrite Hunl.
  unfold cleanup_expired_entries_body.
  destruct (remove_each _ (set_mutex true s)) as [a s1|w s1| |] eqn:Hrun;
    simpl; try done.
  - intros [= <-]. apply (f_equal state_after) in Hrun.
    apply remove_each_locked in Hrun as ->; [|done].
    by apply (unlocked_eta s).
  - intros [= <-]. apply (f_equal state_after) in Hrun.
    apply remove_each_locked in Hrun as ->; [|done].
    by apply (unlocked_eta s).
Qed.

Lemma preload_from_disk_unchanged fuel now s s' :
  unlocked s →
  state_after (preload_from_disk fuel now s) = Some s' → s' = s.
Proof.
  intros Hunl. unfold preload_from_disk, lock_guard. rewrite Hunl.
  destruct (preload_each _ _ _ (set_mutex true s)) as [a s1|w s1| |] eqn:Hrun;
    simpl; try done.
  - intros [= <-]. apply (f_equal state_after) in Hrun.
    apply preload_each_locked in Hrun as ->; [|done].
    by apply (unlocked_eta s).
  - intros [= <-]. apply (f_equal state_after) in Hrun.
    apply preload_each_locked in Hrun as ->; [|done].
    by apply (unlocked_eta s).
Qed.

(** *** The recency list and the byte counter, call by call *)

Lemma list_remove_elem key l k : k ∈ list_remove key l ↔ k ≠ key ∧ k ∈ l.
Proof. unfold list_remove. by rewrite list_elem_of_filter. Qed.

Lemma list_remove_NoDup key l : NoDup l → NoDup (list_remove key l).
Proof. apply NoDup_filter. Qed.

Lemma list_remove_absent key l : key ∉ l → list_remove key l = l.
Proof.
  unfold list_remove. induction l as [|x l IH]; [done|].
  intros [Hne Hl]%not_elem_of_cons. rewrite filter_cons.
  rewrite decide_True by done. f_equal. by apply IH.
Qed.

Lemma recency_inv_perm s :
  recency_inv s → lru_list_ s ≡ₚ elements (dom (cache_ s)).
Proof.
  intros [Hnd Hmem]. apply NoDup_Permutation; [done|apply NoDup_elements|].
  intros k. by rewrite elem_of_elements, elem_of_dom.
Qed.

Lemma recency_inv_length s :
  recency_inv s → length (lru_list_ s) = size s.
Proof.
  intros Hinv. unfold size. rewrite <- (size_dom (D := gset string)).
  apply Permutation_length, recency_inv_perm, Hinv.
Qed.

(** Moving a cached key to the front keeps the list a list of the keys. *)
Lemma move_to_front_inv s key e :
  recency_inv s →
  recency_inv (set_lru (key :: list_remove key (lru_list_ s))
                 (set_cache (<[key := e]> (cache_ s)) s)).
Proof.
  intros [Hnd Hmem]. split; simpl.
  - apply NoDup_cons. split; [|by apply list_remove_NoDup].
    rewrite list_remove_elem. by intros [? _].
  - intros k. rewrite elem_of_cons, list_remove_elem, lookup_insert.
    case_decide as Hk; [subst k|].
    + split; [by eauto|by left].
    + rewrite <- Hmem. intuition congruence.
Qed.

Lemma drop_key_inv s key l :
  recency_inv s → l = list_remove key (lru_list_ s) →
  recency_inv (set_lru l (set_cache (delete key (cache_ s)) s)).
Proof.
  intros [Hnd Hmem] ->. split; simpl.
  - by apply list_remove_NoDup.
  - intros k. rewrite list_remove_elem, lookup_delete.
    case_decide as Hk; [subst k|].
    + split; [by intros [? _]|]. by intros [? ?].
    + rewrite <- Hmem. intuition congruence.
Qed.

Lemma evict_lru_item_back s l k :
  recency_inv s → lru_list_ s = l ++ [k] →
  ∃ e, cache_ s !! k = Some e ∧
       evict_lru_item s
       = set_cache (delete k (cache_ s))
           (set_current (wrap (current_memory_bytes_ s - size_bytes e))
              (set_lru l s)).
Proof.
  intros [Hnd Hmem] Hlru.
  destruct (proj1 (Hmem k)) as [e He].
  { rewrite Hlru, elem_of_app, list_elem_of_singleton. by right. }
  exists e. split; [done|].
  unfold evict_lru_item. rewrite Hlru, last_snoc, removelast_last.
  simpl. by rewrite He.
Qed.

Lemma evict_lru_item_nil s : lru_list_ s = [] → evict_lru_item s = s.
Proof. intros Hnil. unfold evict_lru_item. by rewrite Hnil. Qed.

Lemma evict_lru_item_recency_inv s :
  recency_inv s → recency_inv (evict_lru_item s).
Proof.
  intros Hinv. destruct (last (lru_list_ s)) as [k|] eqn:Hlast.
  - apply last_Some in Hlast as [l Hl].
    destruct (evict_lru_item_back s l k Hinv Hl) as (e & He & ->).
    destruct Hinv as [Hnd Hmem]. rewrite Hl in Hnd, Hmem.
    apply NoDup_app in Hnd as (Hndl & Hdisj & _).
    split; simpl; [done|]. intros k'. rewrite lookup_delete.
    case_decide as Hk; [subst k'|].
    + split; [|by intros [? ?]]. intros Hin.
      destruct (Hdisj k Hin). by apply list_elem_of_singleton.
    + rewrite <- Hmem, elem_of_app, list_elem_of_singleton.
      intuition congruence.
  - apply last_None in Hlast. by rewrite evict_lru_item_nil.
Qed.

Lemma evict_lru_item_memory_inv s :
  memory_inv s → memory_inv (evict_lru_item s).
Proof.
  unfold memory_inv, evict_lru_item. intros Hmem.
  destruct (last (lru_list_ s)) as [k|]; [|done]. simpl.
  destruct (cache_ s !! k) as [e|] eqn:He; [|done]. simpl.
  rewrite Hmem, wrap_sub_l. f_equal.
  rewrite (sum_size_bytes_delete _ k e He). lia.
Qed.

Lemma evict_lru_item_unlocked s : unlocked s → unlocked (evict_lru_item s).
Proof.
  unfold unlocked, evict_lru_item. intros Hu.
  destruct (last (lru_list_ s)) as [k|]; [|done]. simpl.
  by destruct (cache_ s !! k).
Qed.

Lemma evict_lru_item_well_formed s :
  well_formed s → well_formed (evict_lru_item s).
Proof.
  intros (Hr & Hm & Hu).
  split; [by apply evict_lru_item_recency_inv|].
  split; [by apply evict_lru_item_memory_inv|].
  by apply evict_lru_item_unlocked.
Qed.

Lemma evict_loop_well_formed fuel data_size : ∀ s s1,
  well_formed s → evict_loop fuel data_size s = Some s1 → well_formed s1.
Proof.
  induction fuel as [|fuel IH]; intros s s1 Hwf; [done|]. simpl.
  destruct (over_budget data_size s && negb (cache_empty s)).
  - apply IH. by apply evict_lru_item_well_formed.
  - by intros [= <-].
Qed.

Lemma insert_entry_cache key d data_size now s :
  cache_ (insert_entry key d data_size now s)
  = <[key := mkEntry d data_size now now]> (cache_ s).
Proof. unfold insert_entry. by destruct (cache_ s !! key). Qed.

Lemma insert_entry_lru key d data_size now s :
  recency_inv s →
  lru_list_ (insert_entry key d data_size now s)
  = key :: list_remove key (lru_list_ s).
Proof.
  intros [_ Hmem]. unfold insert_entry.
  destruct (cache_ s !! key) as [e|] eqn:He; simpl; [done|].
  rewrite list_remove_absent; [done|].
  rewrite Hmem, He. by intros [? ?].
Qed.

Lemma insert_entry_well_formed key d data_size now s :
  well_formed s → well_formed (insert_entry key d data_size now s).
Proof.
  intros (Hr & Hm & Hu). split; [|split].
  - pose proof (move_to_front_inv s key (mkEntry d data_size now now) Hr)
      as [Hnd Hmem].
    split.
    + by rewrite insert_entry_lru.
    + intros k. rewrite insert_entry_lru, insert_entry_cache by done.
      apply Hmem.
  - unfold memory_inv in *. rewrite insert_entry_cache.
    rewrite sum_size_bytes_insert. unfold insert_entry.
    destruct (cache_ s !! key) as [e|] eqn:He; simpl.
    + rewrite Hm, wrap_sub_l, wrap_add_l. f_equal.
      rewrite (sum_size_bytes_delete _ key e He). lia.
    + rewrite Hm, wrap_add_l, delete_id by done. f_equal. lia.
  - unfold unlocked, insert_entry in *.
    by destruct (cache_ s !! key).
Qed.

Lemma put_body_well_formed fuel key d now s s' :
  well_formed s →
  state_after (put_body fuel key d now s) = Some s' → well_formed s'.
Proof.
  intros Hwf. unfold put_body.
  destruct (evict_loop fuel (estimate_memory_usage d) s) as [s1|] eqn:Hloop;
    [|done].
  apply evict_loop_well_formed in Hloop; [|done].
  destruct (over_budget (estimate_memory_usage d) s1).
  { by intros [= <-]. }
  pose proof (insert_entry_well_formed key d (estimate_memory_usage d) now
                s1 Hloop) as Hwf2.
  set (s2 := insert_entry key d (estimate_memory_usage d) now s1) in *.
  destruct (thread_pool_ s2) as [pool|].
  - destruct (ThreadPool.submit (key, d) pool) as [[|what] pool'];
      by intros [= <-].
  - by intros [= <-].
Qed.

Lemma get_body_well_formed key now s r s' :
  well_formed s → get_body key now s = Returned r s' → well_formed s'.
Proof.
  intros (Hr & Hm & Hu). unfold get_body.
  destruct (cache_ s !! key) as [e|] eqn:He; intros [= <- <-]; [|done].
  split; [|split].
  - by apply (move_to_front_inv s key (touch now e)).
  - unfold memory_inv in *. simpl. rewrite sum_size_bytes_insert. simpl.
    rewrite Hm. f_equal. by rewrite (sum_size_bytes_delete _ key e He).
  - done.
Qed.

Lemma remove_body_well_formed key s s' :
  well_formed s →
  state_after (remove_body key s) = Some s' → well_formed s'.
Proof.
  intros (Hr & Hm & Hu). unfold remove_body.
  destruct (cache_ s !! key) as [e|] eqn:He; [|by intros [= <-]].
  cbn zeta. destruct (remove_file key _) as [dir|]; intros [= <-].
  all: split; [|split]; [by apply (drop_key_inv s key)| |done].
  all: unfold memory_inv in *; simpl; rewrite Hm, wrap_sub_l; f_equal.
  all: rewrite (sum_size_bytes_delete _ key e He); lia.
Qed.

(** The state [remove] leaves, whether it returns or throws: the entry is
    gone, and some directory is there. *)
Lemma remove_body_state key s s' :
  state_after (remove_body key s) = Some s' →
  match cache_ s !! key with
  | Some e =>
      ∃ dir,
        s' = set_disk dir
               (set_cache (delete key (cache_ s))
                  (set_lru (list_remove key (lru_list_ s))
                     (set_current
                        (wrap (current_memory_bytes_ s - size_bytes e))
                        s)))
  | None => s' = s
  end.
Proof.
  unfold remove_body. destruct (cache_ s !! key) as [e|]; [|by intros [= <-]].
  cbn zeta. destruct (remove_file key _) as [dir|]; intros [= <-].
  - by exists dir.
  - by exists (disk s).
Qed.

Lemma clear_body_well_formed s s' :
  well_formed s → state_after (clear_body s) = Some s' → well_formed s'.
Proof.
  intros (Hr & Hm & Hu) [= <-]. split; [|split]; [|done..].
  split; simpl; [apply NoDup_nil_2|].
  intros k. rewrite lookup_empty. split; [by intros ?%not_elem_of_nil|].
  by intros [? ?].
Qed.

Lemma pool_worker_well_formed s : well_formed s → well_formed (pool_worker s).
Proof.
  intros Hwf. unfold pool_worker.
  destruct (thread_pool_ s) as [pool|]; [|done].
  by destruct (ThreadPool.worker_step pool) as [[[key d] pool']|].
Qed.

Lemma pool_shutdown_well_formed s :
  well_formed s → well_formed (pool_shutdown s).
Proof.
  intros Hwf. unfold pool_shutdown.
  by destruct (thread_pool_ s) as [pool|].
Qed.

Lemma exec_well_formed fuel o s s' :
  well_formed s → state_after (exec fuel o s) = Some s' → well_formed s'.
Proof.
  intros Hwf. pose proof Hwf as (_ & _ & Hu).
  destruct o as [key d now|key now|key| |max_age now|now| | |]; simpl.
  - rewrite put_unlocked by done. by apply put_body_well_formed.
  - rewrite get_unlocked by done.
    destruct (get_body key now s) as [r s1| | |] eqn:Hget; simpl; try done.
    + intros [= <-]. by eapply get_body_well_formed.
    + unfold get_body in Hget. by destruct (cache_ s !! key).
  - rewrite remove_unlocked by done. by apply remove_body_well_formed.
  - rewrite clear_unlocked by done. by apply clear_body_well_formed.
  - by intros ->%cleanup_expired_entries_unchanged.
  - by intros ->%preload_from_disk_unchanged.
  - intros [= <-]. by apply evict_lru_item_well_formed.
  - intros [= <-]. by apply pool_worker_well_formed.
  - intros [= <-]. by apply pool_shutdown_well_formed.
Qed.

Lemma new_well_formed max_memory_mb thread_pool files metadata :
  well_formed (new max_memory_mb thread_pool files metadata).
Proof.
  split; [|split]; [|done..].
  split; simpl; [apply NoDup_nil_2|].
  intros k. rewrite lookup_empty. split; [by intros ?%not_elem_of_nil|].
  by intros [? ?].
Qed.

Lemma reachable_well_formed s : reachable s → well_formed s.
Proof.
  induction 1 as [mb tp files md|s fuel o s' _ IH Hstep].
  - apply new_well_formed.
  - by apply (exec_well_formed fuel o s).
Qed.

(** *** The recorded sizes *)

Lemma evict_lru_item_sizes_inv s : sizes_inv s → sizes_inv (evict_lru_item s).
Proof.
  unfold sizes_inv, evict_lru_item. intros Hs.
  destruct (last (lru_list_ s)) as [k|]; [|done]. simpl.
  destruct (cache_ s !! k) as [e|] eqn:He; [|done]. simpl.
  intros k' e' [_ Hk']%lookup_delete_Some. by apply (Hs k').
Qed.

Lemma evict_loop_sizes_inv fuel data_size : ∀ s s1,
  sizes_inv s → evict_loop fuel data_size s = Some s1 → sizes_inv s1.
Proof.
  induction fuel as [|fuel IH]; intros s s1 Hs; [done|]. simpl.
  destruct (over_budget data_size s && negb (cache_empty s)).
  - apply IH. by apply evict_lru_item_sizes_inv.
  - by intros [= <-].
Qed.

Lemma insert_entry_sizes_inv key d now s :
  sizes_inv s →
  sizes_inv (insert_entry key d (estimate_memory_usage d) now s).
Proof.
  intros Hs k e. rewrite insert_entry_cache, lookup_insert.
  case_decide; [by intros [= <-]|]. apply Hs.
Qed.

Lemma put_body_sizes_inv fuel key d now s s' :
  sizes_inv s →
  state_after (put_body fuel key d now s) = Some s' → sizes_inv s'.
Proof.
  intros Hs. unfold put_body.
  destruct (evict_loop fuel (estimate_memory_usage d) s) as [s1|] eqn:Hloop;
    [|done].
  apply evict_loop_sizes_inv in Hloop; [|done].
  destruct (over_budget (estimate_memory_usage d) s1).
  { by intros [= <-]. }
  pose proof (insert_entry_sizes_inv key d now s1 Hloop) as Hs2.
  set (s2 := insert_entry key d (estimate_memory_usage d) now s1) in *.
  destruct (thread_pool_ s2) as [pool|].
  - destruct (ThreadPool.submit (key, d) pool) as [[|what] pool'];
      by intros [= <-].
  - by intros [= <-].
Qed.

Lemma exec_sizes_inv fuel o s s' :
  unlocked s → sizes_inv s →
  state_after (exec fuel o s) = Some s' → sizes_inv s'.
Proof.
  intros Hu Hs.
  destruct o as [key d now|key now|key| |max_age now|now| | |]; simpl.
  - rewrite put_unlocked by done. by apply put_body_sizes_inv.
  - rewrite get_unlocked by done. unfold get_body.
    destruct (cache_ s !! key) as [e|] eqn:He; intros [= <-]; [|done].
    intros k e'. simpl. rewrite lookup_insert.
    case_decide; [|apply Hs]. intros [= <-]. simpl. by apply (Hs key).
  - rewrite remove_unlocked by done. intros Hst%remove_body_state.
    destruct (cache_ s !! key) as [e|] eqn:He; [|by subst].
    destruct Hst as [dir ->].
    intros k e'. simpl. intros [_ Hk]%lookup_delete_Some. by apply (Hs k).
  - rewrite clear_unlocked by done. intros [= <-] k e. simpl.
    by rewrite lookup_empty.
  - by intros ->%cleanup_expired_entries_unchanged.
  - by intros ->%preload_from_disk_unchanged.
  - intros [= <-]. by apply evict_lru_item_sizes_inv.
  - intros [= <-]. unfold pool_worker.
    destruct (thread_pool_ s) as [pool|]; [|done].
    by destruct (ThreadPool.worker_step pool) as [[[key d] pool']|].
  - intros [= <-]. unfold pool_shutdown.
    by destruct (thread_pool_ s) as [pool|].
Qed.

Lemma reachable_sizes_inv s : reachable s → sizes_inv s.
Proof.
  induction 1 as [mb tp files md|s fuel o s' Hreach IH Hstep].
  - intros k e. simpl. by rewrite lookup_empty.
  - apply reachable_well_formed in Hreach as (_ & _ & Hu).
    by apply (exec_sizes_inv fuel o s).
Qed.

Lemma estimate_memory_usage_range d : in_size_t (estimate_memory_usage d).
Proof. apply wrap_range. Qed.

Lemma sum_size_bytes_nonneg (m : gmap string CacheEntry) :
  (∀ k e, m !! k = Some e → 0 <= size_bytes e) → 0 <= sum_size_bytes m.
Proof.
  induction m as [|k e m Hk IH] using map_ind; intros Hpos.
  - by rewrite sum_size_bytes_empty.
  - rewrite sum_size_bytes_insert, delete_id by done.
    assert (0 <= size_bytes e).
    { apply (Hpos k). by rewrite lookup_insert_eq. }
    assert (0 <= sum_size_bytes m); [|lia].
    apply IH. intros k' e' Hk'. apply (Hpos k').
    rewrite lookup_insert_ne; [done|]. intros ->. congruence.
Qed.

(** *** The invariants of reachable states *)

(** C5.  In every state of a cache manager, [current_memory_bytes_] is the
    sum of [size_bytes] over the entries: as [size_t] values always, and as
    integers whenever the sum is one a [size_t] can hold. *)
Theorem memory_usage_is_sum_of_sizes (s : CacheManager) :
  reachable s →
  memory_usage s = wrap (sum_size_bytes (cache_ s)) ∧
  (sum_size_bytes (cache_ s) < 2 ^ 64 →
   memory_usage s = sum_size_bytes (cache_ s)).
Proof.
  intros Hreach.
  pose proof (reachable_well_formed s Hreach) as (_ & Hmem & _).
  pose proof (reachable_sizes_inv s Hreach) as Hsizes.
  split; [done|]. intros Hfits. unfold memory_usage. rewrite Hmem.
  apply wrap_small. split; [|done].
  apply sum_size_bytes_nonneg. intros k e He.
  rewrite (Hsizes k e He). apply estimate_memory_usage_range.
Qed.

(** C6.  In every state of a cache manager the recency list is a
    permutation of the keys of the map: the same keys, each once. *)
Theorem recency_list_is_permutation_of_keys (s : CacheManager) :
  reachable s →
  lru_list_ s ≡ₚ elements (dom (cache_ s)) ∧
  NoDup (lru_list_ s) ∧
  length (lru_list_ s) = size s ∧
  ∀ k, k ∈ lru_list_ s ↔ contains k s = true.
Proof.
  intros Hreach.
  pose proof (reachable_well_formed s Hreach) as (Hrec & _ & _).
  split; [by apply recency_inv_perm|].
  split; [apply Hrec|].
  split; [by apply recency_inv_length|].
  intros k. unfold contains. rewrite bool_decide_eq_true. apply Hrec.
Qed.

(** *** The eviction loop *)

Lemma evict_n_S_r k s : evict_n (S k) s = evict_n k (evict_lru_item s).
Proof. unfold evict_n. apply Nat.iter_succ_r. Qed.

(** [k] evictions take the [k] keys at the back of the recency list, and
    their entries. *)
Lemma evict_n_spec (k : nat) : ∀ s,
  recency_inv s → (k ≤ length (lru_list_ s))%nat →
  recency_inv (evict_n k s) ∧
  lru_list_ (evict_n k s)
  = take (length (lru_list_ s) - k) (lru_list_ s) ∧
  cache_ (evict_n k s)
  = without (drop (length (lru_list_ s) - k) (lru_list_ s)) (cache_ s).
Proof.
  induction k as [|k IH]; intros s Hinv Hk.
  - rewrite Nat.sub_0_r, take_ge, drop_all by done. by simpl.
  - destruct (IH s Hinv) as (Hinv_k & Hlru_k & Hcache_k); [lia|].
    destruct (lookup_lt_is_Some_2 (lru_list_ s)
                (length (lru_list_ s) - S k)) as [x Hx]; [lia|].
    assert (lru_list_ (evict_n k s)
            = take (length (lru_list_ s) - S k) (lru_list_ s) ++ [x])
      as Hsnoc.
    { rewrite Hlru_k.
      replace (length (lru_list_ s) - k)%nat
        with (S (length (lru_list_ s) - S k)) by lia.
      by apply take_S_r. }
    destruct (evict_lru_item_back _ _ _ Hinv_k Hsnoc) as (e & He & Hev).
    change (evict_n (S k) s) with (evict_lru_item (evict_n k s)).
    split; [by apply evict_lru_item_recency_inv|].
    rewrite Hev. simpl. split; [done|].
    rewrite Hcache_k, (drop_S _ _ _ Hx).
    by replace (S (length (lru_list_ s) - S k))
      with (length (lru_list_ s) - k)%nat by lia.
Qed.

Lemma evict_n_size (k : nat) s :
  recency_inv s → (k ≤ size s)%nat →
  recency_inv (evict_n k s) ∧ size (evict_n k s) = (size s - k)%nat.
Proof.
  intros Hinv Hk. pose proof (recency_inv_length s Hinv) as Hlen.
  destruct (evict_n_spec k s Hinv) as (Hinv_k & Hlru_k & _); [lia|].
  split; [done|].
  rewrite <- (recency_inv_length _ Hinv_k), Hlru_k, length_take. lia.
Qed.

Lemma cache_empty_false s : cache_empty s = false ↔ size s ≠ 0%nat.
Proof. unfold cache_empty, size. apply bool_decide_eq_false. Qed.

Lemma cache_empty_true s : cache_empty s = true ↔ cache_ s = ∅.
Proof.
  unfold cache_empty. rewrite bool_decide_eq_true. apply map_size_empty_iff.
Qed.

(** With more fuel than entries the loop of [put] comes to its end: after
    some [k] evictions, each made over budget with a cache that was not
    empty, the guard fails. *)
Lemma evict_loop_spec data_size (fuel : nat) : ∀ s,
  recency_inv s → (size s < fuel)%nat →
  ∃ k : nat,
    (k ≤ size s)%nat ∧
    evict_loop fuel data_size s = Some (evict_n k s) ∧
    (∀ j : nat, (j < k)%nat →
       over_budget data_size (evict_n j s) = true ∧
       cache_empty (evict_n j s) = false) ∧
    over_budget data_size (evict_n k s)
    && negb (cache_empty (evict_n k s)) = false.
Proof.
  induction fuel as [|fuel IH]; intros s Hinv Hfuel; [lia|]. simpl.
  destruct (over_budget data_size s && negb (cache_empty s)) eqn:Hguard.
  - apply andb_prop in Hguard as [Hover Hne].
    apply negb_true_iff in Hne. pose proof Hne as Hsize.
    apply cache_empty_false in Hsize.
    destruct (evict_n_size 1 s Hinv) as [Hinv1 Hsize1]; [lia|].
    change (evict_n 1 s) with (evict_lru_item s) in *.
    destruct (IH (evict_lru_item s) Hinv1)
      as (k & Hk & Hrun & Hbefore & Hstop); [lia|].
    exists (S k). split; [lia|]. rewrite evict_n_S_r.
    split; [done|]. split; [|done].
    intros [|j] Hj; [by split|]. rewrite evict_n_S_r. apply Hbefore. lia.
  - exists 0%nat. split; [lia|]. split; [done|].
    split; [intros j Hj; lia|done].
Qed.

(** Without the recency list the loop does not end: an empty list with a
    cache over budget that is not empty. *)
Lemma evict_loop_diverges data_size s :
  lru_list_ s = [] → over_budget data_size s = true →
  cache_empty s = false →
  ∀ fuel, evict_loop fuel data_size s = None.
Proof.
  intros Hnil Hover Hne fuel. induction fuel as [|fuel IH]; [done|].
  simpl. rewrite Hover, Hne. simpl. by rewrite evict_lru_item_nil.
Qed.

(** *** put *)

(** C2.  [put(key, payload)] on a state of a cache manager, run with more
    fuel than there are entries.  It makes some number [k] of evictions;
    before each of them the counter plus the payload's size was over the
    budget and the cache was not empty; after [j] of them the [j] keys at
    the back of the recency list, and their entries, are gone.  If the
    payload is still over budget after the [k]-th, the cache is empty, the
    call returns, and that empty state is what it leaves; otherwise the
    state it leaves has the new entry under the key, in place of any
    entry the key had, and the key at the front of the recency list. *)
Theorem put_evicts_then_stores_or_drops (s : CacheManager) (key : string)
    (d : MarketDataSeries) (now : Z) (fuel : nat) :
  reachable s → (size s < fuel)%nat →
  ∃ k : nat,
    (k ≤ length (lru_list_ s))%nat ∧
    (∀ j : nat, (j < k)%nat →
       over_budget (estimate_memory_usage d) (evict_n j s) = true ∧
       cache_ (evict_n j s) ≠ ∅) ∧
    (∀ j : nat, (j ≤ k)%nat →
       lru_list_ (evict_n j s)
       = take (length (lru_list_ s) - j) (lru_list_ s) ∧
       cache_ (evict_n j s)
       = without (drop (length (lru_list_ s) - j) (lru_list_ s))
                 (cache_ s)) ∧
    if over_budget (estimate_memory_usage d) (evict_n k s)
    then
      put fuel key d now s = Returned () (evict_n k s) ∧
      cache_ (evict_n k s) = ∅ ∧
      lru_list_ (evict_n k s) = [] ∧
      memory_usage (evict_n k s) = 0
    else
      ∃ s', state_after (put fuel key d now s) = Some s' ∧
            cache_ s'
            = <[key := mkEntry d (estimate_memory_usage d) now now]>
                (cache_ (evict_n k s)) ∧
            lru_list_ s' = key :: list_remove key (lru_list_ (evict_n k s)).
Proof.
  intros Hreach Hfuel.
  pose proof (reachable_well_formed s Hreach) as Hwf.
  pose proof Hwf as (Hrec & Hmem & Hunl).
  pose proof (recency_inv_length s Hrec) as Hlen.
  destruct (evict_loop_spec (estimate_memory_usage d) fuel s Hrec Hfuel)
    as (k & Hk & Hrun & Hbefore & Hstop).
  pose proof (evict_loop_well_formed _ _ _ _ Hwf Hrun) as (Hrec_k & Hmem_k & _).
  exists k. split; [lia|]. split.
  { intros j Hj. destruct (Hbefore j Hj) as [Hover Hne]. split; [done|].
    intros Hempty%cache_empty_true. congruence. }
  split.
  { intros j Hj. destruct (evict_n_spec j s Hrec) as (_ & ? & ?); [lia|done]. }
  rewrite put_unlocked by done. unfold put_body. rewrite Hrun.
  destruct (over_budget (estimate_memory_usage d) (evict_n k s)).
  - simpl in Hstop. apply negb_false_iff in Hstop. split; [done|].
    pose proof Hstop as Hempty. apply cache_empty_true in Hempty.
    split; [done|]. split.
    + apply nil_length_inv. rewrite (recency_inv_length _ Hrec_k).
      unfold size. rewrite Hempty. apply map_size_empty.
    + unfold memory_usage. rewrite Hmem_k, Hempty. apply sum_size_bytes_empty.
  - pose proof (insert_entry_cache key d (estimate_memory_usage d) now
                  (evict_n k s)) as Hcache.
    pose proof (insert_entry_lru key d (estimate_memory_usage d) now
                  (evict_n k s) Hrec_k) as Hlru.
    set (s2 := insert_entry key d (estimate_memory_usage d) now
                 (evict_n k s)) in *.
    destruct (thread_pool_ s2) as [pool|].
    + destruct (ThreadPool.submit (key, d) pool) as [[|what] pool'];
        by eexists.
    + by eexists.
Qed.

(** C10.  From a state whose recency list is a permutation of the keys,
    [put] ends.  An eviction with a recency list that is not empty takes
    exactly one entry; the loop ends after at most [size()] evictions, so a
    fuel above [size()] is never used up; and the call returns or throws
    (it throws only when its thread pool has been stopped). *)
Theorem put_terminates (s : CacheManager) (key : string)
    (d : MarketDataSeries) (now : Z) (fuel : nat) :
  recency_inv s → (size s < fuel)%nat →
  (lru_list_ s ≠ [] → S (size (evict_lru_item s)) = size s) ∧
  (∃ k : nat,
     (k ≤ size s)%nat ∧
     evict_loop fuel (estimate_memory_usage d) s = Some (evict_n k s) ∧
     size (evict_n k s) = (size s - k)%nat) ∧
  (∃ s', state_after (put_body fuel key d now s) = Some s') ∧
  (unlocked s → ∃ s', state_after (put fuel key d now s) = Some s').
Proof.
  intros Hrec Hfuel.
  pose proof (recency_inv_length s Hrec) as Hlen.
  destruct (evict_loop_spec (estimate_memory_usage d) fuel s Hrec Hfuel)
    as (k & Hk & Hrun & _ & _).
  assert (∃ s', state_after (put_body fuel key d now s) = Some s') as Hbody.
  { unfold put_body. rewrite Hrun.
    destruct (over_budget (estimate_memory_usage d) (evict_n k s));
      [by eexists|].
    set (s2 := insert_entry key d (estimate_memory_usage d) now
                 (evict_n k s)).
    destruct (thread_pool_ s2) as [pool|]; [|by eexists].
    destruct (ThreadPool.submit (key, d) pool) as [[|what] pool'];
      by eexists. }
  split; [|split; [|split]].
  - intros Hne.
    destruct (evict_n_size 1 s Hrec) as [_ Hsize1].
    { destruct (lru_list_ s); simpl in Hlen; [done|lia]. }
    change (evict_n 1 s) with (evict_lru_item s) in Hsize1.
    destruct (lru_list_ s); simpl in Hlen; [done|lia].
  - exists k. split; [done|]. split; [done|].
    by apply evict_n_size.
  - done.
  - intros Hunl. by rewrite put_unlocked.
Qed.

Lemma run_reachable calls : ∀ s s',
  reachable s → run calls s = Some s' → reachable s'.
Proof.
  induction calls as [|[fuel o] rest IH]; intros s s' Hreach; simpl.
  - by intros [= <-].
  - destruct (state_after (exec fuel o s)) as [s1|] eqn:Hstep; [|done].
    apply IH. by apply (reachable_step s fuel o).
Qed.

Lemma two_puts_state_run :
  run two_puts (new 1 None ∅ None) = Some two_puts_state.
Proof.
  assert (is_Some (run two_puts (new 1 None ∅ None))) as [s Hs].
  { apply (bool_decide_unpack _). by vm_compute. }
  unfold two_puts_state. by rewrite Hs.
Qed.

Lemma two_puts_state_reachable : reachable two_puts_state.
Proof.
  apply (run_reachable two_puts (new 1 None ∅ None));
    [apply reachable_new | apply two_puts_state_run].
Qed.

Example two_puts_state_lru : lru_list_ two_puts_state = ["MSFT"; "AAPL"].
Proof. vm_compute. reflexivity. Qed.

Lemma put_terminates_witness :
  let s := two_puts_state in
  (lru_list_ s ≠ [] → S (size (evict_lru_item s)) = size s) ∧
  (∃ k : nat,
     (k ≤ size s)%nat ∧
     evict_loop 3 (estimate_memory_usage large_series) s
     = Some (evict_n k s) ∧
     size (evict_n k s) = (size s - k)%nat) ∧
  (∃ s', state_after (put_body 3 "GOOG" large_series 7 s) = Some s') ∧
  (unlocked s → ∃ s', state_after (put 3 "GOOG" large_series 7 s) = Some s').
Proof.
  intros s. apply (put_terminates s "GOOG" large_series 7 3).
  - apply reachable_well_formed, two_puts_state_reachable.
  - vm_compute. lia.
Defined.

Lemma put_evicts_then_stores_or_drops_witness :
  let s := two_puts_state in
  ∃ k : nat,
    (k ≤ length (lru_list_ s))%nat ∧
    (∀ j : nat, (j < k)%nat →
       over_budget (estimate_memory_usage large_series) (evict_n j s) = true ∧
       cache_ (evict_n j s) ≠ ∅) ∧
    (∀ j : nat, (j ≤ k)%nat →
       lru_list_ (evict_n j s)
       = take (length (lru_list_ s) - j) (lru_list_ s) ∧
       cache_ (evict_n j s)
       = without (drop (length (lru_list_ s) - j) (lru_list_ s))
                 (cache_ s)) ∧
    if over_budget (estimate_memory_usage large_series) (evict_n k s)
    then
      put 3 "GOOG" large_series 7 s = Returned () (evict_n k s) ∧
      cache_ (evict_n k s) = ∅ ∧
      lru_list_ (evict_n k s) = [] ∧
      memory_usage (evict_n k s) = 0
    else
      ∃ s', state_after (put 3 "GOOG" large_series 7 s) = Some s' ∧
            cache_ s'
            = <[ "GOOG" := mkEntry large_series
                             (estimate_memory_usage large_series) 7 7]>
                (cache_ (evict_n k s)) ∧
            lru_list_ s'
            = "GOOG" :: list_remove "GOOG" (lru_list_ (evict_n k s)).
Proof.
  intros s.
  apply (put_evicts_then_stores_or_drops s "GOOG" large_series 7 3).
  - apply two_puts_state_reachable.
  - vm_compute. lia.
Defined.

(** On that state the budget of one megabyte is nearly used: a third
    payload of the large size evicts the key at the back, "AAPL", and
    nothing else. *)
Example put_third_evicts_back :
  match run [(1%nat, op_put "AAPL" sample_series 5);
             (2%nat, op_put "MSFT" large_series 6);
             (3%nat, op_put "GOOG" large_series 7)]
            (new 1 None ∅ None) with
  | Some s =>
      lru_list_ s = ["GOOG"; "MSFT"] ∧ contains "AAPL" s = false ∧
      memory_usage s = 2 * estimate_memory_usage large_series
  | None => False
  end.
Proof. by vm_compute. Qed.

Lemma memory_usage_is_sum_of_sizes_witness :
  memory_usage two_puts_state
  = wrap (sum_size_bytes (cache_ two_puts_state)) ∧
  (sum_size_bytes (cache_ two_puts_state) < 2 ^ 64 →
   memory_usage two_puts_state = sum_size_bytes (cache_ two_puts_state)).
Proof.
  apply (memory_usage_is_sum_of_sizes two_puts_state).
  apply two_puts_state_reachable.
Defined.

Example two_puts_state_memory_usage :
  memory_usage two_puts_state
  = estimate_memory_usage sample_series + estimate_memory_usage large_series.
Proof. vm_compute. reflexivity. Qed.

Lemma recency_list_is_permutation_of_keys_witness :
  lru_list_ two_puts_state ≡ₚ elements (dom (cache_ two_puts_state)) ∧
  NoDup (lru_list_ two_puts_state) ∧
  length (lru_list_ two_puts_state) = size two_puts_state ∧
  ∀ k, k ∈ lru_list_ two_puts_state ↔ contains k two_puts_state = true.
Proof.
  apply (recency_list_is_permutation_of_keys two_puts_state).
  apply two_puts_state_reachable.
Defined.

(** *** remove *)

(** C4, as the code has it.  [remove(key)] on a state of a cache manager.
    When the key has an entry, the entry leaves the map, its size is
    taken off the counter and the key leaves the recency list; then
    [std::filesystem::remove] is called on the path of the key.  When the
    path names a regular file, that file is deleted, no other file
    changes, and [remove] returns.  When there is nothing under the
    path, no file changes and [remove] returns.  When the host reports
    another error, [remove] throws [filesystem_error]: the entry is gone
    by then and no file has changed.  When the key has no entry,
    [remove] returns and nothing changes: a file of that key stays on
    the disk. *)
Theorem remove_deletes_entry_and_its_file (s : CacheManager) (key : string) :
  reachable s →
  match cache_ s !! key with
  | Some e =>
      ∃ s', state_after (remove key s) = Some s' ∧
            cache_ s' = delete key (cache_ s) ∧
            lru_list_ s' = list_remove key (lru_list_ s) ∧
            (key ∉ lru_list_ s') ∧
            current_memory_bytes_ s'
            = wrap (current_memory_bytes_ s - size_bytes e) ∧
            match get_cache_file_path key (disk s) with
            | names f =>
                remove key s = Returned () s' ∧
                files_ (disk s') = delete f (files_ (disk s)) ∧
                host_ (disk s') = host_ (disk s)
            | missing =>
                remove key s = Returned () s' ∧ disk s' = disk s
            | refused =>
                remove key s = Threw "filesystem error: cannot remove" s' ∧
                disk s' = disk s
            end
  | None => remove key s = Returned () s
  end.
Proof.
  intros Hreach.
  pose proof (reachable_well_formed s Hreach) as (_ & _ & Hunl).
  rewrite remove_unlocked by done. unfold remove_body.
  destruct (cache_ s !! key) as [e|]; [|done].
  cbn zeta. unfold remove_file. cbn [disk set_cache set_lru set_current].
  assert (∀ l, key ∉ list_remove key l) as Hgone.
  { intros l. rewrite list_remove_elem. by intros [? _]. }
  destruct (get_cache_file_path key (disk s)) as [f| |];
    eexists; (split; [reflexivity|]); cbn;
    repeat (split; [done|]); (split; [apply Hgone|]); done.
Qed.

Lemma remove_deletes_entry_and_its_file_witness :
  match cache_ two_puts_state !! "AAPL" with
  | Some e =>
      ∃ s', state_after (remove "AAPL" two_puts_state) = Some s' ∧
            cache_ s' = delete "AAPL" (cache_ two_puts_state) ∧
            lru_list_ s' = list_remove "AAPL" (lru_list_ two_puts_state) ∧
            ("AAPL" ∉ lru_list_ s') ∧
            current_memory_bytes_ s'
            = wrap (current_memory_bytes_ two_puts_state - size_bytes e) ∧
            match get_cache_file_path "AAPL" (disk two_puts_state) with
            | names f =>
                remove "AAPL" two_puts_state = Returned () s' ∧
                files_ (disk s') = delete f (files_ (disk two_puts_state)) ∧
                host_ (disk s') = host_ (disk two_puts_state)
            | missing =>
                remove "AAPL" two_puts_state = Returned () s' ∧
                disk s' = disk two_puts_state
            | refused =>
                remove "AAPL" two_puts_state
                = Threw "filesystem error: cannot remove" s' ∧
                disk s' = disk two_puts_state
            end
  | None => remove "AAPL" two_puts_state = Returned () two_puts_state
  end.
Proof.
  apply (remove_deletes_entry_and_its_file two_puts_state "AAPL").
  apply two_puts_state_reachable.
Defined.

(** On the confined host: the key "AAPL" names the file "AAPL.cache";
    the path of the key "AAPL.cache/x" needs a directory where that file
    is, and the path of the key "a/b" a directory that is not there. *)
Example paths_of_three_keys :
  get_cache_file_path "AAPL" (disk two_puts_state) = names "AAPL.cache" ∧
  get_cache_file_path "AAPL.cache/x" (disk two_puts_state) = refused ∧
  get_cache_file_path "a/b" (disk two_puts_state) = missing ∧
  get_cache_file_path "./AAPL" (disk two_puts_state) = names "AAPL.cache".
Proof. by vm_compute. Qed.

(** [remove] of a cached key whose path the host refuses: the exception
    comes after the entry has been erased. *)
Example remove_throws_after_erasing :
  match run [(1%nat, op_put "AAPL" sample_series 1);
             (1%nat, op_put "AAPL.cache/x" sample_series 2)]
            (new 1 None ∅ None) with
  | Some s =>
      contains "AAPL.cache/x" s = true ∧
      match remove "AAPL.cache/x" s with
      | Threw what s' =>
          what = "filesystem error: cannot remove" ∧
          contains "AAPL.cache/x" s' = false ∧
          lru_list_ s' = ["AAPL"] ∧
          file_exists "AAPL" s' = true
      | _ => False
      end
  | None => False
  end.
Proof. by vm_compute. Qed.

Example remove_cached_key :
  contains "AAPL" two_puts_state = true ∧
  file_exists "AAPL" two_puts_state = true ∧
  match remove "AAPL" two_puts_state with
  | Returned _ s' =>
      contains "AAPL" s' = false ∧ file_exists "AAPL" s' = false ∧
      lru_list_ s' = ["MSFT"] ∧
      memory_usage s' = estimate_memory_usage large_series
  | _ => False
  end.
Proof. by vm_compute. Qed.

(** C4 as stated fails.  With a budget of one megabyte, "A", "B" and "C"
    are put; the third [put] evicts "A", the least recently used.  The file
    of "A" is still on the disk and "A" has no entry.  [remove("A")]
    returns and the file of "A" is still there. *)
Lemma remove_keeps_file_of_evicted_key :
  match run [(1%nat, op_put "A" large_series 1);
             (2%nat, op_put "B" large_series 2);
             (3%nat, op_put "C" large_series 3)]
            (new 1 None ∅ None) with
  | Some s =>
      lru_list_ s = ["C"; "B"] ∧
      contains "A" s = false ∧
      file_exists "A" s = true ∧
      match remove "A" s with
      | Returned _ s' => file_exists "A" s' = true
      | _ => False
      end
  | None => False
  end.
Proof. by vm_compute. Qed.

(** The same with a file that was in the directory before the cache
    manager was constructed. *)
Lemma remove_keeps_file_found_at_construction :
  let s := new 10 None
             (mkDirectory {[ "AAPL.cache" := sample_series ]} confined_host)
             None in
  contains "AAPL" s = false ∧
  file_exists "AAPL" s = true ∧
  remove "AAPL" s = Returned () s.
Proof.
  intros s. split; [by vm_compute|]. split; [by vm_compute|]. reflexivity.
Qed.

(** *** hit_rate *)

Lemma hit_rate_no_requests s : total_requests_ s = 0 → hit_rate s = 0%Q.
Proof. intros Hz. unfold hit_rate. by rewrite Hz. Qed.

Lemma evict_lru_item_counters s :
  total_requests_ (evict_lru_item s) = total_requests_ s ∧
  cache_hits_ (evict_lru_item s) = cache_hits_ s.
Proof.
  unfold evict_lru_item. destruct (last (lru_list_ s)) as [k|]; [|done].
  simpl. by destruct (cache_ s !! k).
Qed.

Lemma evict_loop_counters fuel data_size : ∀ s s1,
  evict_loop fuel data_size s = Some s1 →
  total_requests_ s1 = total_requests_ s ∧ cache_hits_ s1 = cache_hits_ s.
Proof.
  induction fuel as [|fuel IH]; intros s s1; [done|]. simpl.
  destruct (over_budget data_size s && negb (cache_empty s)).
  - intros Hrun. destruct (IH _ _ Hrun) as [-> ->].
    apply evict_lru_item_counters.
  - by intros [= <-].
Qed.

(** No call writes the two counters. *)
Lemma exec_counters fuel o s s' :
  unlocked s → state_after (exec fuel o s) = Some s' →
  total_requests_ s' = total_requests_ s ∧ cache_hits_ s' = cache_hits_ s.
Proof.
  intros Hu.
  destruct o as [key d now|key now|key| |max_age now|now| | |]; simpl.
  - rewrite put_unlocked by done. unfold put_body.
    destruct (evict_loop fuel (estimate_memory_usage d) s) as [s1|] eqn:Hloop;
      [|done].
    apply evict_loop_counters in Hloop as [<- <-].
    destruct (over_budget (estimate_memory_usage d) s1).
    { by intros [= <-]. }
    assert (total_requests_
              (insert_entry key d (estimate_memory_usage d) now s1)
            = total_requests_ s1 ∧
            cache_hits_ (insert_entry key d (estimate_memory_usage d) now s1)
            = cache_hits_ s1) as [<- <-].
    { unfold insert_entry. by destruct (cache_ s1 !! key). }
    set (s2 := insert_entry key d (estimate_memory_usage d) now s1).
    destruct (thread_pool_ s2) as [pool|].
    + destruct (ThreadPool.submit (key, d) pool) as [[|what] pool'];
        by intros [= <-].
    + by intros [= <-].
  - rewrite get_unlocked by done. unfold get_body.
    destruct (cache_ s !! key); by intros [= <-].
  - rewrite remove_unlocked by done. intros Hst%remove_body_state.
    destruct (cache_ s !! key) as [e|]; [|by subst].
    by destruct Hst as [dir ->].
  - rewrite clear_unlocked by done. by intros [= <-].
  - by intros ->%cleanup_expired_entries_unchanged.
  - by intros ->%preload_from_disk_unchanged.
  - intros [= <-]. apply evict_lru_item_counters.
  - intros [= <-]. unfold pool_worker.
    destruct (thread_pool_ s) as [pool|]; [|done].
    by destruct (ThreadPool.worker_step pool) as [[[key d] pool']|].
  - intros [= <-]. unfold pool_shutdown.
    by destruct (thread_pool_ s) as [pool|].
Qed.

(** The counters of every state are the ones the constructor loaded, and
    [hit_rate()] is what it was at construction. *)
Lemma reachable_counters s :
  reachable s →
  ∃ metadata,
    total_requests_ s = fst (load_cache_metadata metadata) ∧
    cache_hits_ s = snd (load_cache_metadata metadata).
Proof.
  induction 1 as [mb tp files md|s fuel o s' Hreach IH Hstep].
  - by exists md.
  - destruct IH as (md & Hreq & Hhits). exists md.
    apply reachable_well_formed in Hreach as (_ & _ & Hu).
    destruct (exec_counters fuel o s s' Hu Hstep) as [-> ->]. done.
Qed.

(** C1, first half: with no request recorded [hit_rate()] is 0.  Second
    half, on the code: a cache manager constructed without metadata, then
    [get] (a miss), [put], [get] (a hit) of one key.  The second [get]
    delivers the payload, and the counters are still 0 and 0, not 2 and 1;
    [hit_rate()] is 0, not 1/2. *)
Theorem hit_rate_after_miss_put_hit :
  hit_rate (new 10 None ∅ None) = 0%Q ∧
  match get "AAPL" 1 (new 10 None ∅ None) with
  | Returned None s1 =>
      match put 1 "AAPL" sample_series 2 s1 with
      | Returned _ s2 =>
          match get "AAPL" 3 s2 with
          | Returned (Some d) s3 =>
              d = sample_series ∧
              total_requests_ s3 = 0 ∧ cache_hits_ s3 = 0 ∧
              hit_rate s3 = 0%Q
          | _ => False
          end
      | _ => False
      end
  | _ => False
  end.
Proof. by vm_compute. Qed.

(** *** What put leaves alone, and what it stores *)

Lemma evict_lru_item_frame s :
  max_memory_bytes_ (evict_lru_item s) = max_memory_bytes_ s ∧
  thread_pool_ (evict_lru_item s) = thread_pool_ s ∧
  disk (evict_lru_item s) = disk s.
Proof.
  unfold evict_lru_item. destruct (last (lru_list_ s)) as [k|]; [|done].
  simpl. by destruct (cache_ s !! k).
Qed.

Lemma evict_n_frame (k : nat) s :
  max_memory_bytes_ (evict_n k s) = max_memory_bytes_ s ∧
  thread_pool_ (evict_n k s) = thread_pool_ s ∧
  disk (evict_n k s) = disk s.
Proof.
  induction k as [|k IH]; [done|].
  change (evict_n (S k) s) with (evict_lru_item (evict_n k s)).
  destruct (evict_lru_item_frame (evict_n k s)) as (-> & -> & ->). done.
Qed.

Lemma insert_entry_frame key d data_size now s :
  max_memory_bytes_ (insert_entry key d data_size now s)
  = max_memory_bytes_ s ∧
  thread_pool_ (insert_entry key d data_size now s) = thread_pool_ s ∧
  disk (insert_entry key d data_size now s) = disk s.
Proof. unfold insert_entry. by destruct (cache_ s !! key). Qed.

(** [put] once its loop has ended on a state that is not over budget. *)
Lemma put_stores fuel key d now s s1 :
  unlocked s →
  evict_loop fuel (estimate_memory_usage d) s = Some s1 →
  over_budget (estimate_memory_usage d) s1 = false →
  put fuel key d now s
  = match thread_pool_ s1 with
    | Some pool =>
        if ThreadPool.stop_ pool
        then Threw "submit on stopped ThreadPool"
                   (insert_entry key d (estimate_memory_usage d) now s1)
        else Returned ()
               (set_pool (Some (snd (ThreadPool.submit (key, d) pool)))
                  (insert_entry key d (estimate_memory_usage d) now s1))
    | None =>
        Returned ()
          (persist_to_disk key d
             (insert_entry key d (estimate_memory_usage d) now s1))
    end.
Proof.
  intros Hunl Hloop Hfits. rewrite put_unlocked by done.
  unfold put_body. rewrite Hloop, Hfits.
  destruct (insert_entry_frame key d (estimate_memory_usage d) now s1)
    as (_ & -> & _).
  destruct (thread_pool_ s1) as [pool|]; [|done].
  by destruct pool as [w t [|] a c].
Qed.

(** A payload that fits the budget by itself is not over budget when the
    loop of [put] ends. *)
Lemma fitting_payload_not_over_budget fuel d s :
  well_formed s → (size s < fuel)%nat →
  estimate_memory_usage d <= max_memory_bytes_ s →
  ∃ k : nat,
    evict_loop fuel (estimate_memory_usage d) s = Some (evict_n k s) ∧
    over_budget (estimate_memory_usage d) (evict_n k s) = false ∧
    well_formed (evict_n k s).
Proof.
  intros Hwf Hfuel Hfits. pose proof Hwf as (Hrec & _ & _).
  destruct (evict_loop_spec (estimate_memory_usage d) fuel s Hrec Hfuel)
    as (k & _ & Hrun & _ & Hstop).
  pose proof (evict_loop_well_formed _ _ _ _ Hwf Hrun) as Hwf_k.
  exists k. split; [done|]. split; [|done].
  destruct (over_budget (estimate_memory_usage d) (evict_n k s)) eqn:Hover;
    [|done].
  simpl in Hstop. apply negb_false_iff, cache_empty_true in Hstop.
  destruct Hwf_k as (_ & Hmem & _). unfold memory_inv in Hmem.
  rewrite Hstop, sum_size_bytes_empty in Hmem.
  unfold over_budget in Hover. rewrite Hmem in Hover.
  destruct (evict_n_frame k s) as (Hmax & _). rewrite Hmax in Hover.
  change (wrap 0) with 0 in Hover. rewrite Z.add_0_l in Hover.
  rewrite wrap_small in Hover by apply estimate_memory_usage_range.
  apply Z.ltb_lt in Hover. lia.
Qed.

(** X11.  A payload whose estimated size is within the budget is stored, and
    [get] then returns it, whatever was under the key before and whether
    [put] returned or threw. *)
Theorem put_then_get_returns_payload (s : CacheManager) (key : string)
    (d : MarketDataSeries) (now now' : Z) (fuel : nat) :
  reachable s → (size s < fuel)%nat →
  estimate_memory_usage d <= max_memory_bytes_ s →
  ∃ s', state_after (put fuel key d now s) = Some s' ∧
        contains key s' = true ∧
        ∃ s'', get key now' s' = Returned (Some d) s''.
Proof.
  intros Hreach Hfuel Hfits.
  pose proof (reachable_well_formed s Hreach) as Hwf.
  pose proof Hwf as (_ & _ & Hunl).
  destruct (fitting_payload_not_over_budget fuel d s Hwf Hfuel Hfits)
    as (k & Hrun & Hover & Hwf_k).
  destruct (state_after (put fuel key d now s)) as [s'|] eqn:Hput.
  - pose proof Hput as Hwf'. rewrite put_unlocked in Hwf' by done.
    apply put_body_well_formed in Hwf'; [|done].
    assert (cache_ s' !! key
            = Some (mkEntry d (estimate_memory_usage d) now now)) as Hkey.
    { rewrite (put_stores fuel key d now s _ Hunl Hrun Hover) in Hput.
      destruct (thread_pool_ (evict_n k s)) as [pool|];
        [destruct (ThreadPool.stop_ pool)|];
        injection Hput as <-;
        change (cache_ (insert_entry key d (estimate_memory_usage d) now
                          (evict_n k s)) !! key
                = Some (mkEntry d (estimate_memory_usage d) now now));
        by rewrite insert_entry_cache, lookup_insert_eq. }
    exists s'. split; [done|]. split.
    + unfold contains. rewrite Hkey. by apply bool_decide_eq_true.
    + destruct Hwf' as (_ & _ & Hunl').
      rewrite get_unlocked by done. unfold get_body. rewrite Hkey.
      by eexists.
  - rewrite (put_stores fuel key d now s _ Hunl Hrun Hover) in Hput.
    destruct (thread_pool_ (evict_n k s)) as [pool|];
      [destruct (ThreadPool.stop_ pool)|]; done.
Qed.

Lemma put_then_get_returns_payload_witness :
  ∃ s', state_after (put 3 "AAPL" large_series 8 two_puts_state) = Some s' ∧
        contains "AAPL" s' = true ∧
        ∃ s'', get "AAPL" 9 s' = Returned (Some large_series) s''.
Proof.
  apply (put_then_get_returns_payload two_puts_state "AAPL" large_series
           8 9 3).
  - apply two_puts_state_reachable.
  - vm_compute. lia.
  - by vm_compute.
Defined.



(** On the confined host, the key "AAPL" gets the file "AAPL.cache";
    the key "a/b" is cached and gets no file, as the directory "a" is
    not there; the key "./AAPL" replaces the file of "AAPL". *)
Example put_writes_the_file_the_path_names :
  match run [(1%nat, op_put "AAPL" sample_series 1);
             (1%nat, op_put "a/b" sample_series 2);
             (1%nat, op_put "./AAPL" (mkSeries "AAPL" []) 3)]
            (new 1 None ∅ None) with
  | Some s =>
      contains "a/b" s = true ∧ file_exists "a/b" s = false ∧
      contains "./AAPL" s = true ∧
      dom (files_ (disk s)) = {[ "AAPL.cache" ]} ∧
      load_from_disk "AAPL" s = Some (mkSeries "AAPL" [])
  | None => False
  end.
Proof. vm_compute. repeat split. Qed.

(** *** The budget *)

Lemma wrap_below z : 0 <= z < 2 ^ 64 → wrap z = z.
Proof. intros Hz. by apply wrap_small. Qed.

Lemma estimate_memory_usage_bounds d :
  0 <= estimate_memory_usage d < 2 ^ 64.
Proof. apply estimate_memory_usage_range. Qed.

Lemma sizes_inv_nonneg s k e :
  sizes_inv s → cache_ s !! k = Some e → 0 <= size_bytes e.
Proof.
  intros Hs He. rewrite (Hs k e He). apply estimate_memory_usage_bounds.
Qed.

Lemma sizes_inv_sum_nonneg s : sizes_inv s → 0 <= sum_size_bytes (cache_ s).
Proof.
  intros Hs. apply sum_size_bytes_nonneg. intros k e.
  by apply sizes_inv_nonneg.
Qed.

Lemma sizes_inv_sum_delete_nonneg s key :
  sizes_inv s → 0 <= sum_size_bytes (delete key (cache_ s)).
Proof.
  intros Hs. apply sum_size_bytes_nonneg.
  intros k e [_ He]%lookup_delete_Some. by apply (sizes_inv_nonneg s k).
Qed.

(** Taking an entry off the counter, when the counter is the sum. *)
Lemma counter_without_entry s key e :
  sizes_inv s → cache_ s !! key = Some e →
  current_memory_bytes_ s = sum_size_bytes (cache_ s) →
  current_memory_bytes_ s < 2 ^ 64 →
  wrap (current_memory_bytes_ s - size_bytes e)
  = sum_size_bytes (delete key (cache_ s)) ∧
  sum_size_bytes (delete key (cache_ s)) <= current_memory_bytes_ s.
Proof.
  intros Hs He Hsum Hlt.
  pose proof (sizes_inv_nonneg s key e Hs He).
  pose proof (sizes_inv_sum_delete_nonneg s key Hs).
  pose proof (sum_size_bytes_delete (cache_ s) key e He).
  split; [|lia]. rewrite wrap_below; lia.
Qed.

Lemma evict_lru_item_within_budget s :
  sizes_inv s → max_memory_bytes_ s < 2 ^ 64 → within_budget s →
  within_budget (evict_lru_item s).
Proof.
  intros Hs Hmax [Hsum Hle]. unfold evict_lru_item.
  destruct (last (lru_list_ s)) as [k|]; [|done]. cbn [cache_ set_lru].
  destruct (cache_ s !! k) as [e|] eqn:He; [|done].
  destruct (counter_without_entry s k e Hs He Hsum) as [Hcur Hdown]; [lia|].
  unfold within_budget. simpl. rewrite Hcur. split; [done|lia].
Qed.

Lemma evict_loop_within_budget fuel data_size : ∀ s s1,
  sizes_inv s → max_memory_bytes_ s < 2 ^ 64 → within_budget s →
  evict_loop fuel data_size s = Some s1 →
  within_budget s1 ∧ max_memory_bytes_ s1 = max_memory_bytes_ s.
Proof.
  induction fuel as [|fuel IH]; intros s s1 Hs Hmax Hb; [done|]. simpl.
  destruct (over_budget data_size s && negb (cache_empty s)).
  - intros Hloop. destruct (evict_lru_item_frame s) as (Hsame & _).
    destruct (IH (evict_lru_item s) s1) as [Hb1 Hmax1]; try done.
    + by apply evict_lru_item_sizes_inv.
    + by rewrite Hsame.
    + by apply evict_lru_item_within_budget.
    + split; [done|]. by rewrite Hmax1.
  - by intros [= <-].
Qed.

Lemma insert_entry_within_budget key d now s :
  sizes_inv s → within_budget s →
  max_memory_bytes_ s + estimate_memory_usage d < 2 ^ 64 →
  over_budget (estimate_memory_usage d) s = false →
  within_budget (insert_entry key d (estimate_memory_usage d) now s).
Proof.
  intros Hs [Hsum Hle] Hfits Hover.
  pose proof (estimate_memory_usage_bounds d) as [Hest _].
  pose proof (sizes_inv_sum_nonneg s Hs) as Hpos.
  unfold over_budget in Hover. apply Z.ltb_ge in Hover.
  rewrite wrap_below in Hover by lia.
  unfold within_budget.
  destruct (insert_entry_frame key d (estimate_memory_usage d) now s)
    as (-> & _).
  rewrite insert_entry_cache, sum_size_bytes_insert.
  cbn [size_bytes]. unfold insert_entry.
  destruct (cache_ s !! key) as [e|] eqn:He.
  - destruct (counter_without_entry s key e Hs He Hsum) as [Hcur Hdown];
      [lia|].
    pose proof (sizes_inv_sum_delete_nonneg s key Hs).
    simpl. rewrite Hcur. rewrite wrap_below by lia.
    lia.
  - rewrite delete_id by done. simpl.
    rewrite wrap_below by lia. lia.
Qed.

Lemma put_body_within_budget fuel key d now s s' :
  sizes_inv s → max_memory_bytes_ s < 2 ^ 64 → within_budget s →
  max_memory_bytes_ s + estimate_memory_usage d < 2 ^ 64 →
  state_after (put_body fuel key d now s) = Some s' →
  within_budget s' ∧ max_memory_bytes_ s' = max_memory_bytes_ s.
Proof.
  intros Hs Hmax Hb Hfits. unfold put_body.
  destruct (evict_loop fuel (estimate_memory_usage d) s) as [s1|] eqn:Hloop;
    [|done].
  destruct (evict_loop_within_budget _ _ _ _ Hs Hmax Hb Hloop)
    as [Hb1 Hmax1].
  apply evict_loop_sizes_inv in Hloop; [|done].
  destruct (over_budget (estimate_memory_usage d) s1) eqn:Hover.
  { by intros [= <-]. }
  pose proof (insert_entry_within_budget key d now s1 Hloop Hb1) as Hb2.
  rewrite Hmax1 in Hb2. specialize (Hb2 Hfits Hover).
  destruct (insert_entry_frame key d (estimate_memory_usage d) now s1)
    as (Hmax2 & _).
  rewrite <- Hmax1, <- Hmax2.
  set (s2 := insert_entry key d (estimate_memory_usage d) now s1) in *.
  destruct (thread_pool_ s2) as [pool|].
  - destruct (ThreadPool.submit (key, d) pool) as [[|what] pool'];
      by intros [= <-].
  - by intros [= <-].
Qed.

Lemma exec_within_budget fuel o s s' :
  unlocked s → sizes_inv s → max_memory_bytes_ s < 2 ^ 64 →
  within_budget s → payload_fits (max_memory_bytes_ s) (fuel, o) →
  state_after (exec fuel o s) = Some s' →
  within_budget s' ∧ max_memory_bytes_ s' = max_memory_bytes_ s.
Proof.
  intros Hu Hs Hmax Hb Hfits.
  destruct o as [key d now|key now|key| |max_age now|now| | |]; simpl.
  - rewrite put_unlocked by done. by apply put_body_within_budget.
  - rewrite get_unlocked by done. unfold get_body.
    destruct (cache_ s !! key) as [e|] eqn:He; intros [= <-]; [|done].
    split; [|done]. destruct Hb as [Hsum Hle]. unfold within_budget. simpl.
    rewrite sum_size_bytes_insert. cbn [size_bytes touch].
    rewrite <- (sum_size_bytes_delete _ _ _ He). done.
  - rewrite remove_unlocked by done. intros Hst%remove_body_state.
    destruct (cache_ s !! key) as [e|] eqn:He; [|by subst].
    destruct Hst as [dir ->].
    split; [|done]. destruct Hb as [Hsum Hle].
    destruct (counter_without_entry s key e Hs He Hsum) as [Hcur Hdown];
      [lia|].
    unfold within_budget. simpl. rewrite Hcur. split; [done|lia].
  - rewrite clear_unlocked by done. intros [= <-]. split; [|done].
    destruct Hb as [Hsum Hle]. pose proof (sizes_inv_sum_nonneg s Hs).
    unfold within_budget. simpl. rewrite sum_size_bytes_empty.
    split; [done|lia].
  - by intros ->%cleanup_expired_entries_unchanged.
  - by intros ->%preload_from_disk_unchanged.
  - intros [= <-]. destruct (evict_lru_item_frame s) as (-> & _).
    split; [|done]. by apply evict_lru_item_within_budget.
  - intros [= <-]. unfold pool_worker.
    destruct (thread_pool_ s) as [pool|]; [|done].
    by destruct (ThreadPool.worker_step pool) as [[[key d] pool']|].
  - intros [= <-]. unfold pool_shutdown.
    by destruct (thread_pool_ s) as [pool|].
Qed.

Lemma run_within_budget calls : ∀ s s',
  well_formed s → sizes_inv s → max_memory_bytes_ s < 2 ^ 64 →
  within_budget s →
  Forall (payload_fits (max_memory_bytes_ s)) calls →
  run calls s = Some s' →
  within_budget s' ∧ max_memory_bytes_ s' = max_memory_bytes_ s.
Proof.
  induction calls as [|[fuel o] calls IH]; intros s s' Hwf Hs Hmax Hb Hall.
  { by intros [= <-]. }
  apply Forall_cons in Hall as [Hfits Hall]. simpl.
  destruct (state_after (exec fuel o s)) as [s1|] eqn:Hstep; [|done].
  pose proof Hwf as (_ & _ & Hu).
  destruct (exec_within_budget fuel o s s1 Hu Hs Hmax Hb Hfits Hstep)
    as [Hb1 Hmax1].
  intros Hrun. rewrite <- Hmax1. apply IH; try done.
  - by apply (exec_well_formed fuel o s).
  - by apply (exec_sizes_inv fuel o s).
  - by rewrite Hmax1.
  - by rewrite Hmax1.
Qed.

(** X13.  The byte counter never passes the budget.  After any history of calls
    on a new cache manager, with payloads that the budget and a [size_t]
    have room for, the budget is the one of the constructor, the counter
    is the sum of the sizes of the entries, as integers, and it is at most
    the budget. *)
Theorem memory_usage_never_exceeds_budget (max_memory_mb : Z)
    (thread_pool : option (ThreadPool.ThreadPool PersistTask))
    (files : Directory) (metadata : option (Z * Z))
    (calls : list (nat * op)) (s : CacheManager) :
  Forall (payload_fits
            (max_memory_bytes_ (new max_memory_mb thread_pool files metadata)))
         calls →
  run calls (new max_memory_mb thread_pool files metadata) = Some s →
  max_memory_bytes_ s
  = max_memory_bytes_ (new max_memory_mb thread_pool files metadata) ∧
  memory_usage s = sum_size_bytes (cache_ s) ∧
  0 <= memory_usage s <= max_memory_bytes_ s.
Proof.
  intros Hall Hrun.
  set (s0 := new max_memory_mb thread_pool files metadata) in *.
  assert (0 <= max_memory_bytes_ s0 < 2 ^ 64) as [Hlo Hhi]
    by apply wrap_range.
  assert (sizes_inv s0) as Hs0.
  { intros k e. simpl. by rewrite lookup_empty. }
  assert (within_budget s0) as Hb0.
  { split; simpl; [by rewrite sum_size_bytes_empty|done]. }
  destruct (run_within_budget calls s0 s) as [[Hsum Hle] Hmax]; try done.
  { apply new_well_formed. }
  split; [done|]. split; [done|]. split; [|done].
  unfold memory_usage. rewrite Hsum. apply sizes_inv_sum_nonneg.
  apply reachable_sizes_inv. apply (run_reachable calls s0); [|done].
  apply reachable_new.
Qed.

Lemma memory_usage_never_exceeds_budget_witness :
  max_memory_bytes_ two_puts_state
  = max_memory_bytes_ (new 1 None ∅ None) ∧
  memory_usage two_puts_state = sum_size_bytes (cache_ two_puts_state) ∧
  0 <= memory_usage two_puts_state <= max_memory_bytes_ two_puts_state.
Proof.
  apply (memory_usage_never_exceeds_budget 1 None ∅ None two_puts
           two_puts_state).
  - repeat constructor; by vm_compute.
  - apply two_puts_state_run.
Defined.

Lemma evict_n_sum (k : nat) s :
  sizes_inv s →
  sizes_inv (evict_n k s) ∧
  sum_size_bytes (cache_ (evict_n k s)) <= sum_size_bytes (cache_ s).
Proof.
  intros Hs. induction k as [|k [Hs_k Hle]].
  { split; [done|]. change (evict_n 0 s) with s. lia. }
  change (evict_n (S k) s) with (evict_lru_item (evict_n k s)).
  split; [by apply evict_lru_item_sizes_inv|].
  unfold evict_lru_item.
  destruct (last (lru_list_ (evict_n k s))) as [x|]; [|done].
  cbn [cache_ set_lru].
  destruct (cache_ (evict_n k s) !! x) as [e|] eqn:He; [|done].
  pose proof (sizes_inv_nonneg _ x e Hs_k He).
  pose proof (sum_size_bytes_delete _ x e He). simpl. lia.
Qed.

Lemma recency_inv_empty s :
  recency_inv s → cache_ s = ∅ → lru_list_ s = [].
Proof.
  intros [_ Hmem] Hempty. destruct (lru_list_ s) as [|x l]; [done|].
  destruct (proj1 (Hmem x)) as [e He]; [by left|].
  by rewrite Hempty, lookup_empty in He.
Qed.

(** X14.  A payload larger than the whole budget is not stored, and the call
    costs the cache all its entries: [put] evicts one after the other
    until the map is empty and returns.  No file is written or deleted. *)
Theorem put_larger_than_budget_empties_cache (s : CacheManager)
    (key : string) (d : MarketDataSeries) (now : Z) (fuel : nat) :
  reachable s → (size s < fuel)%nat →
  sum_size_bytes (cache_ s) + estimate_memory_usage d < 2 ^ 64 →
  max_memory_bytes_ s < estimate_memory_usage d →
  ∃ s', put fuel key d now s = Returned () s' ∧
        cache_ s' = ∅ ∧ lru_list_ s' = [] ∧ memory_usage s' = 0 ∧
        max_memory_bytes_ s' = max_memory_bytes_ s ∧
        disk s' = disk s ∧ thread_pool_ s' = thread_pool_ s.
Proof.
  intros Hreach Hfuel Hsum Hlarge.
  pose proof (reachable_well_formed s Hreach) as Hwf.
  pose proof Hwf as (Hrec & _ & Hunl).
  pose proof (reachable_sizes_inv s Hreach) as Hs.
  destruct (evict_loop_spec (estimate_memory_usage d) fuel s Hrec Hfuel)
    as (k & _ & Hrun & _ & Hstop).
  pose proof (evict_loop_well_formed _ _ _ _ Hwf Hrun)
    as (Hrec_k & Hmem_k & _).
  destruct (evict_n_sum k s Hs) as [Hs_k Hle].
  pose proof (sizes_inv_sum_nonneg _ Hs_k) as Hpos.
  pose proof (estimate_memory_usage_bounds d) as [Hest _].
  destruct (evict_n_frame k s) as (Hmax & Hpool & Hdisk).
  assert (over_budget (estimate_memory_usage d) (evict_n k s) = true)
    as Hover.
  { unfold over_budget. apply Z.ltb_lt. rewrite Hmem_k, Hmax.
    rewrite (wrap_below (sum_size_bytes _)) by lia.
    rewrite wrap_below by lia. lia. }
  rewrite Hover in Hstop. simpl in Hstop.
  apply negb_false_iff, cache_empty_true in Hstop.
  exists (evict_n k s). split.
  { rewrite put_unlocked by done. unfold put_body. by rewrite Hrun, Hover. }
  split; [done|]. split; [by apply recency_inv_empty|].
  split; [|done]. unfold memory_usage.
  by rewrite Hmem_k, Hstop, sum_size_bytes_empty.
Qed.

Lemma put_larger_than_budget_empties_cache_witness :
  ∃ s', put 3 "GOOG" (mkSeries "GOOG" (data_ large_series ++ data_ large_series
                                        ++ data_ large_series)) 7
            two_puts_state = Returned () s' ∧
        cache_ s' = ∅ ∧ lru_list_ s' = [] ∧ memory_usage s' = 0 ∧
        max_memory_bytes_ s' = max_memory_bytes_ two_puts_state ∧
        disk s' = disk two_puts_state ∧
        thread_pool_ s' = thread_pool_ two_puts_state.
Proof.
  apply (put_larger_than_budget_empties_cache two_puts_state "GOOG"
           (mkSeries "GOOG" (data_ large_series ++ data_ large_series
                             ++ data_ large_series)) 7 3).
  - apply two_puts_state_reachable.
  - vm_compute. lia.
  - by vm_compute.
  - by vm_compute.
Defined.

(** *** get *)

(** X15.  [get(key)] of a cached key returns its payload and makes the key the
    most recently used: the number of entries and the byte counter stay,
    and when there is another entry, the next eviction takes that one and
    not the key.  [get] of a key that is not cached returns nothing and
    changes nothing; it does not look for a file of the key. *)
Theorem get_hit_protects_key_from_eviction (s : CacheManager) (key : string)
    (now : Z) :
  reachable s →
  match cache_ s !! key with
  | Some e =>
      ∃ s', get key now s = Returned (Some (data e)) s' ∧
            head (lru_list_ s') = Some key ∧
            size s' = size s ∧ memory_usage s' = memory_usage s ∧
            ((1 < size s)%nat → contains key (evict_lru_item s') = true)
  | None => get key now s = Returned None s
  end.
Proof.
  intros Hreach.
  pose proof (reachable_well_formed s Hreach) as Hwf.
  pose proof Hwf as (_ & _ & Hunl).
  rewrite get_unlocked by done.
  destruct (cache_ s !! key) as [e|] eqn:He.
  - set (s' := set_lru (key :: list_remove key (lru_list_ s))
                 (set_cache (<[key := touch now e]> (cache_ s)) s)).
    assert (get_body key now s = Returned (Some (data e)) s') as Hget.
    { unfold get_body. by rewrite He. }
    pose proof (get_body_well_formed _ _ _ _ _ Hwf Hget) as (Hrec' & _ & _).
    assert (cache_ s' = <[key := touch now e]> (cache_ s)) as Hcache by done.
    assert (lru_list_ s' = key :: list_remove key (lru_list_ s)) as Hlru
      by done.
    assert (size s' = size s) as Hsize.
    { unfold size. rewrite Hcache. apply map_size_insert_Some. by exists e. }
    exists s'. split; [done|]. split; [by rewrite Hlru|].
    split; [done|]. split; [done|].
    clearbody s'. intros Hmore.
    pose proof (recency_inv_length s' Hrec') as Hlen.
    rewrite Hlru in Hlen. simpl in Hlen.
    destruct (list_remove key (lru_list_ s)) as [|y rest _] eqn:Hrest
      using rev_ind; [simpl in Hlen; lia|].
    destruct (evict_lru_item_back s' (key :: rest) y Hrec')
      as (e' & _ & ->); [by rewrite Hlru|].
    destruct Hrec' as [Hnd _]. rewrite Hlru in Hnd.
    apply NoDup_cons in Hnd as [Hfresh _].
    unfold contains. apply bool_decide_eq_true. cbn [cache_ set_cache].
    rewrite lookup_delete_ne, Hcache, lookup_insert_eq; [done|].
    intros ->. apply Hfresh. rewrite elem_of_app, list_elem_of_singleton.
    by right.
  - unfold get_body. by rewrite He.
Qed.

Lemma get_hit_protects_key_from_eviction_witness :
  match cache_ two_puts_state !! "AAPL" with
  | Some e =>
      ∃ s', get "AAPL" 9 two_puts_state = Returned (Some (data e)) s' ∧
            head (lru_list_ s') = Some "AAPL" ∧
            size s' = size two_puts_state ∧
            memory_usage s' = memory_usage two_puts_state ∧
            ((1 < size two_puts_state)%nat →
             contains "AAPL" (evict_lru_item s') = true)
  | None => get "AAPL" 9 two_puts_state = Returned None two_puts_state
  end.
Proof.
  apply (get_hit_protects_key_from_eviction two_puts_state "AAPL" 9).
  apply two_puts_state_reachable.
Defined.

(** *** remove, twice *)

(** X16.  After [remove(key)] the key is not cached: a second [remove(key)]
    changes nothing, [get(key)] finds nothing, and the entries of the
    other keys are the ones from before. *)
Theorem remove_twice_is_remove_once (s s' : CacheManager) (key : string) :
  reachable s → remove key s = Returned () s' →
  contains key s' = false ∧
  remove key s' = Returned () s' ∧
  (∀ now, get key now s' = Returned None s') ∧
  ∀ k, k ≠ key → cache_ s' !! k = cache_ s !! k.
Proof.
  intros Hreach Hrem.
  assert (reachable s') as Hreach'.
  { apply (reachable_step s 0 (op_remove key)); [done|].
    simpl. by rewrite Hrem. }
  pose proof (reachable_well_formed s Hreach) as (_ & _ & Hunl).
  pose proof (reachable_well_formed s' Hreach') as (_ & _ & Hunl').
  rewrite remove_unlocked in Hrem by done.
  assert (state_after (remove_body key s) = Some s') as Hst
    by by rewrite Hrem.
  apply remove_body_state in Hst.
  assert (cache_ s' !! key = None ∧
          ∀ k, k ≠ key → cache_ s' !! k = cache_ s !! k) as [Hgone Hrest].
  { destruct (cache_ s !! key) as [e|] eqn:He.
    - destruct Hst as [dir ->].
      cbn [cache_ set_cache set_disk]. split; [apply lookup_delete_eq|].
      intros k Hk. by apply lookup_delete_ne.
    - by subst. }
  split; [|split; [|split]].
  - unfold contains. rewrite Hgone. apply bool_decide_eq_false.
    by intros [? ?].
  - rewrite remove_unlocked by done. unfold remove_body. by rewrite Hgone.
  - intros now. rewrite get_unlocked by done. unfold get_body.
    by rewrite Hgone.
  - done.
Qed.

Lemma remove_twice_is_remove_once_witness :
  let s' := default pooled_put_state
              (state_after (remove "AAPL" pooled_put_state)) in
  contains "AAPL" s' = false ∧
  remove "AAPL" s' = Returned () s' ∧
  (∀ now, get "AAPL" now s' = Returned None s') ∧
  ∀ k, k ≠ "AAPL" → cache_ s' !! k = cache_ pooled_put_state !! k.
Proof.
  apply (remove_twice_is_remove_once pooled_put_state
           (default pooled_put_state
              (state_after (remove "AAPL" pooled_put_state))) "AAPL").
  - apply (run_reachable pooled_put
             (new 1 (Some (ThreadPool.new 2 8)) ∅ None)); [|reflexivity].
    apply reachable_new.
  - reflexivity.
Defined.

(** *** The members that lock twice *)

Lemma remove_each_blocked key keys s :
  cache_mutex_ s = true → remove_each (key :: keys) s = Blocked.
Proof.
  intros Hlocked. simpl. unfold remove. by rewrite lock_guard_locked.
Qed.

(** X17.  [cleanup_expired_entries(max_age)] never removes an entry.
    With no entry older than [max_age] it returns and the state is as
    before.  With one, it calls [remove], which locks [cache_mutex_]
    while the caller holds it.  C++ leaves that undefined; on the target
    of the model the thread blocks and the call does not come back. *)
Theorem cleanup_expired_entries_removes_nothing (s : CacheManager)
    (max_age now : Z) :
  reachable s →
  ((∀ k e, cache_ s !! k = Some e → expired max_age now e = false) →
   cleanup_expired_entries max_age now s = Returned () s) ∧
  (∀ k e, cache_ s !! k = Some e → expired max_age now e = true →
          cleanup_expired_entries max_age now s = Blocked).
Proof.
  intros Hreach.
  pose proof (reachable_well_formed s Hreach) as (_ & _ & Hunl).
  unfold cleanup_expired_entries, lock_guard. rewrite Hunl.
  unfold cleanup_expired_entries_body.
  change (cache_ (set_mutex true s)) with (cache_ s).
  destruct (filter (λ kv, expired max_age now (snd kv) = true)
                   (map_to_list (cache_ s))) as [|[k0 e0] rest] eqn:Hfilter.
  - split.
    + intros _. simpl. f_equal. by apply (unlocked_eta s).
    + intros k e He Hexp.
      assert ((k, e) ∈ filter (λ kv, expired max_age now (snd kv) = true)
                              (map_to_list (cache_ s))) as Hin.
      { apply list_elem_of_filter. split; [done|].
        by apply elem_of_map_to_list. }
      rewrite Hfilter in Hin. by apply elem_of_nil in Hin.
  - assert ((k0, e0) ∈ filter (λ kv, expired max_age now (snd kv) = true)
                              (map_to_list (cache_ s))) as Hin
      by (rewrite Hfilter; left).
    apply list_elem_of_filter in Hin as [Hexp Hin].
    apply elem_of_map_to_list in Hin. simpl in Hexp.
    rewrite fmap_cons, remove_each_blocked by done.
    split; [|done]. intros Hnone. specialize (Hnone k0 e0 Hin). congruence.
Qed.

Lemma cleanup_expired_entries_removes_nothing_witness :
  cache_ two_puts_state !! "AAPL"
  = Some (mkEntry sample_series (estimate_memory_usage sample_series) 5 5) ∧
  expired 2 9
    (mkEntry sample_series (estimate_memory_usage sample_series) 5 5)
  = true ∧
  cleanup_expired_entries 2 9 two_puts_state = Blocked.
Proof.
  assert (cache_ two_puts_state !! "AAPL"
          = Some (mkEntry sample_series
                    (estimate_memory_usage sample_series) 5 5)) as Hentry
    by (vm_compute; reflexivity).
  split; [exact Hentry|]. split; [reflexivity|].
  apply (proj2 (cleanup_expired_entries_removes_nothing two_puts_state 2 9
                  two_puts_state_reachable) "AAPL" _ Hentry).
  reflexivity.
Defined.

(** With no entry that old, the same call returns. *)
Example cleanup_with_nothing_expired :
  match cleanup_expired_entries 10 9 two_puts_state with
  | Returned _ s' => lru_list_ s' = ["MSFT"; "AAPL"]
  | _ => False
  end.
Proof. by vm_compute. Qed.

Lemma put_blocked fuel key d now s :
  cache_mutex_ s = true → put fuel key d now s = Blocked.
Proof. intros Hlocked. unfold put. by rewrite lock_guard_locked. Qed.

Lemma preload_each_none fuel now keys s :
  (∀ k, k ∈ keys → load_from_disk k s = None) →
  preload_each fuel now keys s = Returned () s.
Proof.
  induction keys as [|k keys IH]; intros Hnone; [done|]. simpl.
  rewrite Hnone by left. apply IH. intros k' Hk'. apply Hnone. by right.
Qed.

Lemma preload_each_some fuel now keys s k d :
  cache_mutex_ s = true → k ∈ keys → load_from_disk k s = Some d →
  preload_each fuel now keys s = Blocked.
Proof.
  intros Hlocked Hin Hload.
  induction keys as [|k0 keys IH]; [by apply elem_of_nil in Hin|]. simpl.
  destruct (load_from_disk k0 s) as [d0|] eqn:Hk0.
  - by rewrite put_blocked.
  - apply IH. apply elem_of_cons in Hin as [->|Hin]; [congruence|done].
Qed.

(** X18.  [preload_from_disk()] never loads an entry.  It visits the
    regular files of the cache directory whose extension is [".cache"].
    When [load_from_disk] reads none of them, it returns and the state is
    as before.  When it reads one, [put] is called, which locks
    [cache_mutex_] while the caller holds it.  C++ leaves that undefined;
    on the target of the model the thread blocks and the call does not
    come back. *)
Theorem preload_from_disk_loads_nothing (s : CacheManager) (fuel : nat)
    (now : Z) :
  reachable s →
  ((∀ k, k ∈ cache_file_keys (disk s) → load_from_disk k s = None) →
   preload_from_disk fuel now s = Returned () s) ∧
  (∀ k d, k ∈ cache_file_keys (disk s) → load_from_disk k s = Some d →
          preload_from_disk fuel now s = Blocked).
Proof.
  intros Hreach.
  pose proof (reachable_well_formed s Hreach) as (_ & _ & Hunl).
  unfold preload_from_disk, lock_guard. rewrite Hunl.
  change (disk (set_mutex true s)) with (disk s).
  split.
  - intros Hnone. rewrite preload_each_none; [|done].
    f_equal. by apply (unlocked_eta s).
  - intros k d Hin Hload.
    by rewrite (preload_each_some fuel now _ (set_mutex true s) k d).
Qed.

Lemma preload_from_disk_loads_nothing_witness :
  "AAPL" ∈ cache_file_keys (disk two_puts_state) ∧
  load_from_disk "AAPL" two_puts_state = Some sample_series ∧
  preload_from_disk 3 9 two_puts_state = Blocked.
Proof.
  assert ("AAPL" ∈ cache_file_keys (disk two_puts_state)) as Hin.
  { apply (bool_decide_unpack _). by vm_compute. }
  assert (load_from_disk "AAPL" two_puts_state = Some sample_series)
    as Hload by (vm_compute; reflexivity).
  split; [exact Hin|]. split; [exact Hload|].
  apply (proj2 (preload_from_disk_loads_nothing two_puts_state 3 9
                  two_puts_state_reachable) "AAPL" sample_series Hin Hload).
Defined.

(** The file of the empty key, ".cache", has no extension: the scan of
    [preload_from_disk] does not see it, and the call returns. *)
Example preload_skips_file_of_empty_key :
  match run [(1%nat, op_put "" sample_series 1)] (new 1 None ∅ None) with
  | Some s =>
      file_exists "" s = true ∧
      cache_file_keys (disk s) = [] ∧
      match preload_from_disk 1 2 s with
      | Returned _ s' => lru_list_ s' = [""]
      | _ => False
      end
  | None => False
  end.
Proof. by vm_compute. Qed.

(** *** The queued writes *)






(** *** hit_rate *)

(** X21.  No call changes what [hit_rate()] returns: after any history of calls
    the two counters, and with them the rate, are the ones of the state
    the history started from. *)
Theorem hit_rate_never_changes (calls : list (nat * op))
    (s s' : CacheManager) :
  reachable s → run calls s = Some s' →
  total_requests_ s' = total_requests_ s ∧
  cache_hits_ s' = cache_hits_ s ∧
  hit_rate s' = hit_rate s.
Proof.
  revert s. induction calls as [|[fuel o] calls IH]; intros s Hreach.
  { by intros [= <-]. }
  simpl. destruct (state_after (exec fuel o s)) as [s1|] eqn:Hstep; [|done].
  intros Hrun.
  pose proof (reachable_well_formed s Hreach) as (_ & _ & Hunl).
  destruct (exec_counters fuel o s s1 Hunl Hstep) as [Hreq Hhits].
  destruct (IH s1) as (Hreq' & Hhits' & Hrate'); [|done|].
  { by apply (reachable_step s fuel o). }
  split; [congruence|]. split; [congruence|].
  rewrite Hrate'. unfold hit_rate. by rewrite Hreq, Hhits.
Qed.

Lemma hit_rate_never_changes_witness :
  total_requests_ two_puts_state = total_requests_ (new 1 None ∅ None) ∧
  cache_hits_ two_puts_state = cache_hits_ (new 1 None ∅ None) ∧
  hit_rate two_puts_state = hit_rate (new 1 None ∅ None).
Proof.
  apply (hit_rate_never_changes two_puts (new 1 None ∅ None)
           two_puts_state).
  - apply reachable_new.
  - apply two_puts_state_run.
Defined.

End CacheManagerFacts.
